(** * RamzLib: the Observable engine, its combinators and the pull adapter

    A shallow embedding of [src/reactive/observable.ts] (class [Observable],
    class [Subscription]) and [src/reactive/iterator.ts]
    (class [ObservableAsyncIterator]), and of the predicate combinators
    ([every], [some], [oneOf], ...) and the helpers on [Maybe] values, which
    are pure functions.

    The program is written with closures over mutable objects.  The embedding
    keeps that shape:

    - the objects live in a [World]: the [_callbacks] field of every
      Observable, the array objects those fields refer to, the promises with
      their reactions, the microtask queue, the timers, captured mutable
      variables, the iterators and the DOM elements;
    - every closure the source creates is a constructor of [Fn] that records
      what the closure captured; [call] runs the body of a closure;
    - [call] is recursive through the heap (a listener may run the [trigger]
      of another Observable), so it is defined by recursion on a bound on the
      depth of nested calls. *)

From Stdlib Require Import ZArith String List Lia.
From stdpp Require Import base option list.
Import ListNotations.

(** ** Values *)

(** The values that travel through a stream ([T], [any]). *)
Inductive Value : Type :=
| VUndefined
| VBool (b : bool)
| VNum (n : Z)
| VStr (s : string)
| VError (message : string)     (* new Error(message) *)
| VFunction (name : string)     (* a function object looked at as a value *)
| VIterDone.                     (* AsyncIteratorDone.Instance *)

(** JavaScript's ToBoolean, as used by [if (x)] and [x && y]. *)
Definition truthy (v : Value) : bool :=
  match v with
  | VUndefined => false
  | VBool b => b
  | VNum n => negb (n =? 0)%Z
  | VStr s => negb (s =? "")%string
  | VError _ | VFunction _ | VIterDone => true
  end.

(** [export const ERROR_TIMEOUT = new Error("Observable timed out.")] *)
Definition ERROR_TIMEOUT : Value := VError "Observable timed out.".

(** The error of reading [this] before [super(...)] has returned, or a
    [const] before its initialiser has finished (the build targets ES6).
    Only its kind is recorded; the message is the engine's. *)
Definition ReferenceError : Value := VError "ReferenceError".

(** ** Closures *)

(** One constructor per function value of the source; the arguments are the
    captured variables.  Observables, promises, iterators, elements and
    captured mutable variables are referred to by their index in the
    [World]. *)
Inductive Fn : Type :=
(* Observable.constructor *)
| FTrigger (this : nat)
| FDone (this : nat)
| FFail (this : nat)
(* the two functions handed to a Promise executor *)
| FResolve (promise : nat)
| FReject (promise : nat)
(* a listener supplied by a consumer: it raises [e] when [throws obj = Some e]
   and otherwise records that consumer [consumer] has observed [obj] *)
| FUser (consumer : nat) (throws : Value -> option Value)
(* an action supplied to [then]: it records, for consumer [consumer], that
   it ran, and returns [result] *)
| FAction (consumer : nat) (result : Value)
(* map: obj => trigger(mapper(obj)) *)
| FMapListener (mapper : Value -> Value) (trigger : Fn)
(* filter: obj => { if (predicate(obj)) trigger(obj); } *)
| FFilterListener (predicate : Value -> bool) (trigger : Fn)
(* reduce: obj => { initialValue = reducer(initialValue, obj);
                    trigger(initialValue); } *)
| FReduceListener (initialValue : nat) (reducer : Value -> Value -> Value)
                  (trigger : Fn)
(* then: () => { } and () => resolve(action()) *)
| FNoop
| FThenResolve (resolve : Fn) (action : Fn)
(* subscribe: unsubscribeDone, unsubscribeFail, preTrigger *)
| FUnsubscribeDone (this index : nat) (done : Fn)
| FUnsubscribeFail (this index : nat) (fail : Fn)
| FPreTrigger (trigger : Fn) (listener : nat)
(* withTimeout: () => { fail(ERROR_TIMEOUT); } *)
| FTimeoutFire (fail : Fn)
(* firstN: (obj) => { if (n-- === 0) { unsubscribe(); } } *)
| FFirstNListener (n : nat) (unsubscribe : Fn)
(* ObservableAsyncIterator.constructor: the listener and the two handlers *)
| FIterValue (this : nat)
| FIterDone (this : nat)
| FIterFail (this : nat)
(* Subscription.fromListener: cb => trigger(cb) and
   () => element.removeEventListener(event, trigger) *)
| FEventWrapper (trigger : Fn)
| FRemoveListener (element : nat) (event : string) (listener : Fn).

(** Identity of function objects, as [removeEventListener] compares them.
    The closures that carry a function of the consumer are never handed to an
    element; they are told apart by the consumer number only. *)
Fixpoint sameFunction (f g : Fn) : bool :=
  match f, g with
  | FTrigger a, FTrigger b | FDone a, FDone b | FFail a, FFail b
  | FResolve a, FResolve b | FReject a, FReject b
  | FIterValue a, FIterValue b | FIterDone a, FIterDone b
  | FIterFail a, FIterFail b => Nat.eqb a b
  | FUser a _, FUser b _ | FAction a _, FAction b _ => Nat.eqb a b
  | FNoop, FNoop => true
  | FThenResolve r a, FThenResolve r' a' =>
      sameFunction r r' && sameFunction a a'
  | FUnsubscribeDone s i d, FUnsubscribeDone s' i' d'
  | FUnsubscribeFail s i d, FUnsubscribeFail s' i' d' =>
      Nat.eqb s s' && Nat.eqb i i' && sameFunction d d'
  | FPreTrigger t l, FPreTrigger t' l' => sameFunction t t' && Nat.eqb l l'
  | FTimeoutFire a, FTimeoutFire b | FEventWrapper a, FEventWrapper b =>
      sameFunction a b
  | FFirstNListener n u, FFirstNListener n' u' =>
      Nat.eqb n n' && sameFunction u u'
  | FRemoveListener e ev l, FRemoveListener e' ev' l' =>
      Nat.eqb e e' && (ev =? ev')%string && sameFunction l l'
  | _, _ => false
  end.

(** ** The world *)

(** [type CallbackItem<T> = { listener, resolve, reject }] *)
Record CallbackItem : Type :=
  { listener : Fn; resolve : Fn; reject : Fn }.

(** A reaction registered by [promise.then(f)] ([onRejected] absent) or by
    [promise.catch(g)] ([onFulfilled] absent); [derivedPromise] is the promise
    these calls return. *)
Record Reaction : Type :=
  { onFulfilled : option Fn; onRejected : option Fn; derivedPromise : nat }.

Inductive PromiseState : Type :=
| Pending (reactions : list Reaction)
| Fulfilled (value : Value)
| Rejected (reason : Value).

(** A promise reaction job waiting in the microtask queue. *)
Record Job : Type :=
  { jobReaction : Reaction; jobRejected : bool; jobValue : Value }.

(** The fields of an [ObservableAsyncIterator]; [done] holds the promise, if
    any. *)
Record IteratorState : Type :=
  { demanded : list (Fn * Fn); queued : list Value; done : option nat }.

(** What an outside observer can witness: a consumer's listener ran to its
    end on a value, and the resolving functions of a promise were called. *)
Inductive Event : Type :=
| Saw (consumer : nat) (obj : Value)
| CalledResolve (promise : nat) (value : Value)
| CalledReject (promise : nat) (reason : Value).

Record World : Type :=
  { (* per Observable, its field [_callbacks]: [undefined] or a reference to
       an array object *)
    observables : list (option nat);
    (* the array objects [(CallbackItem<T> | undefined)[]] *)
    arrays : list (list (option CallbackItem));
    promises : list PromiseState;
    microtasks : list Job;
    now : Z;
    timers : list (Z * Fn);
    (* captured variables that the closures assign to *)
    cells : list Value;
    fnCells : list (option Fn);
    iterators : list IteratorState;
    (* per element, the registered (event, listener) pairs *)
    elements : list (list (string * Fn));
    log : list Event }.

Definition initialWorld : World :=
  {| observables := []; arrays := []; promises := []; microtasks := [];
     now := 0; timers := []; cells := []; fnCells := []; iterators := [];
     elements := []; log := [] |}.

Definition set_observables (x : list (option nat)) (w : World) : World :=
  {| observables := x; arrays := arrays w; promises := promises w;
     microtasks := microtasks w; now := now w; timers := timers w;
     cells := cells w; fnCells := fnCells w; iterators := iterators w;
     elements := elements w; log := log w |}.

Definition set_arrays (x : list (list (option CallbackItem))) (w : World)
  : World :=
  {| observables := observables w; arrays := x; promises := promises w;
     microtasks := microtasks w; now := now w; timers := timers w;
     cells := cells w; fnCells := fnCells w; iterators := iterators w;
     elements := elements w; log := log w |}.

Definition set_promises (x : list PromiseState) (w : World) : World :=
  {| observables := observables w; arrays := arrays w; promises := x;
     microtasks := microtasks w; now := now w; timers := timers w;
     cells := cells w; fnCells := fnCells w; iterators := iterators w;
     elements := elements w; log := log w |}.

Definition set_microtasks (x : list Job) (w : World) : World :=
  {| observables := observables w; arrays := arrays w; promises := promises w;
     microtasks := x; now := now w; timers := timers w;
     cells := cells w; fnCells := fnCells w; iterators := iterators w;
     elements := elements w; log := log w |}.

Definition set_now (x : Z) (w : World) : World :=
  {| observables := observables w; arrays := arrays w; promises := promises w;
     microtasks := microtasks w; now := x; timers := timers w;
     cells := cells w; fnCells := fnCells w; iterators := iterators w;
     elements := elements w; log := log w |}.

Definition set_timers (x : list (Z * Fn)) (w : World) : World :=
  {| observables := observables w; arrays := arrays w; promises := promises w;
     microtasks := microtasks w; now := now w; timers := x;
     cells := cells w; fnCells := fnCells w; iterators := iterators w;
     elements := elements w; log := log w |}.

Definition set_cells (x : list Value) (w : World) : World :=
  {| observables := observables w; arrays := arrays w; promises := promises w;
     microtasks := microtasks w; now := now w; timers := timers w;
     cells := x; fnCells := fnCells w; iterators := iterators w;
     elements := elements w; log := log w |}.

Definition set_fnCells (x : list (option Fn)) (w : World) : World :=
  {| observables := observables w; arrays := arrays w; promises := promises w;
     microtasks := microtasks w; now := now w; timers := timers w;
     cells := cells w; fnCells := x; iterators := iterators w;
     elements := elements w; log := log w |}.

Definition set_iterators (x : list IteratorState) (w : World) : World :=
  {| observables := observables w; arrays := arrays w; promises := promises w;
     microtasks := microtasks w; now := now w; timers := timers w;
     cells := cells w; fnCells := fnCells w; iterators := x;
     elements := elements w; log := log w |}.

Definition set_elements (x : list (list (string * Fn))) (w : World) : World :=
  {| observables := observables w; arrays := arrays w; promises := promises w;
     microtasks := microtasks w; now := now w; timers := timers w;
     cells := cells w; fnCells := fnCells w; iterators := iterators w;
     elements := x; log := log w |}.

Definition set_log (x : list Event) (w : World) : World :=
  {| observables := observables w; arrays := arrays w; promises := promises w;
     microtasks := microtasks w; now := now w; timers := timers w;
     cells := cells w; fnCells := fnCells w; iterators := iterators w;
     elements := elements w; log := x |}.

Definition record (e : Event) (w : World) : World :=
  set_log (log w ++ [e]) w.

(** ** Running closures *)

(** How the call of a function ends. *)
Inductive Completion : Type :=
| Return (v : Value)
| Throw (e : Value).

(** [None]: the bound on nested calls was too small, or the program touched
    an object that does not exist. *)
Definition Result : Type := option (Completion * World).

Definition returns (w : World) : Result := Some (Return VUndefined, w).

(** Sequencing: an exception skips the rest. *)
Definition andThen (r : Result) (k : Value -> World -> Result) : Result :=
  match r with
  | Some (Return v, w) => k v w
  | _ => r
  end.

(** [Array.prototype.forEach] on the array object [a]: the indices below the
    length the array had at the start are visited in order, and each element
    is read when its turn comes. *)
Fixpoint forEachFrom (a : nat)
    (callbackfn : option CallbackItem -> nat -> World -> Result)
    (idx count : nat) (w : World) : Result :=
  match count with
  | O => returns w
  | S count' =>
      match arrays w !! a with
      | Some arr =>
          match arr !! idx with
          | Some elt =>
              andThen (callbackfn elt idx w)
                      (fun _ w' => forEachFrom a callbackfn (S idx) count' w')
          | None => forEachFrom a callbackfn (S idx) count' w
          end
      | None => None
      end
  end.

Definition arrayForEach (a : nat)
    (callbackfn : option CallbackItem -> nat -> World -> Result)
    (w : World) : Result :=
  match arrays w !! a with
  | Some arr => forEachFrom a callbackfn 0 (length arr) w
  | None => None
  end.

(** [this._callbacks[idx] = undefined], behind [if (this._callbacks)]. *)
Definition clearSlot (this idx : nat) (w : World) : World :=
  match observables w !! this with
  | Some (Some a) =>
      match arrays w !! a with
      | Some arr => set_arrays (<[a := <[idx := None]> arr]> (arrays w)) w
      | None => w
      end
  | _ => w
  end.

(** [this._callbacks = undefined] *)
Definition discardCallbacks (this : nat) (w : World) : World :=
  set_observables (<[this := None]> (observables w)) w.

(** Settling a promise: only a pending promise changes, and its reactions
    are queued as microtasks. *)
Definition settle (p : nat) (rejected : bool) (v : Value) (w : World)
  : World :=
  match promises w !! p with
  | Some (Pending rs) =>
      set_microtasks
        (microtasks w ++
           List.map (fun r => {| jobReaction := r; jobRejected := rejected;
                                 jobValue := v |}) rs)
        (set_promises
           (<[p := if rejected then Rejected v else Fulfilled v]>
              (promises w)) w)
  | _ => w
  end.

(** [this._callbacks && this._callbacks[index]] then
    [this._callbacks[index] = undefined], of [unsubscribeOnly]. *)
Definition unsubscribeOnly (this index : nat) (w : World) : bool * World :=
  match observables w !! this with
  | Some (Some a) =>
      match arrays w !! a with
      | Some arr =>
          match arr !! index with
          | Some (Some _) => (true, clearSlot this index w)
          | _ => (false, w)
          end
      | None => (false, w)
      end
  | _ => (false, w)
  end.

(** [element.removeEventListener(event, listener)] *)
Definition removeEventListener (element : nat) (event : string) (l : Fn)
    (w : World) : World :=
  match elements w !! element with
  | Some ls =>
      set_elements
        (<[element :=
             List.filter
               (fun r => negb ((fst r =? event)%string
                               && sameFunction (snd r) l)) ls]>
           (elements w)) w
  | None => w
  end.

(** Calling each pending pull of an iterator:
    [for (const demanded of this.demanded) demanded.resolve/reject(v)]. *)
Fixpoint forOf (call1 : Fn -> World -> Result) (fs : list Fn) (w : World)
  : Result :=
  match fs with
  | [] => returns w
  | f :: fs' => andThen (call1 f w) (fun _ w' => forOf call1 fs' w')
  end.

Definition allocPromise (s : PromiseState) (w : World) : nat * World :=
  (length (promises w), set_promises (promises w ++ [s]) w).

(** The three callbacks the constructor hands to [_callbacks.forEach];
    [callf] runs a closure.

    [trigger]:
      (cb, idx) => { if (!cb) return;
                     try { cb.listener(obj); }
                     catch (e) { cb.reject(e);
                                 if (this._callbacks) {
                                   this._callbacks[idx] = undefined; } } } *)
Definition triggerEach (callf : Fn -> Value -> World -> Result)
    (this : nat) (obj : Value)
    (cb : option CallbackItem) (idx : nat) (w : World) : Result :=
  match cb with
  | None => returns w
  | Some cb =>
      match callf (listener cb) obj w with
      | Some (Throw e, w1) =>
          andThen (callf (reject cb) e w1)
                  (fun _ w2 => returns (clearSlot this idx w2))
      | Some (Return _, w1) => returns w1
      | None => None
      end
  end.

(** [done]: d => d && d.resolve() *)
Definition doneEach (callf : Fn -> Value -> World -> Result)
    (d : option CallbackItem) (idx : nat) (w : World) : Result :=
  match d with
  | None => returns w
  | Some d => andThen (callf (resolve d) VUndefined w) (fun _ w' => returns w')
  end.

(** [fail]: d => d && d.reject(err) *)
Definition failEach (callf : Fn -> Value -> World -> Result) (err : Value)
    (d : option CallbackItem) (idx : nat) (w : World) : Result :=
  match d with
  | None => returns w
  | Some d => andThen (callf (reject d) err w) (fun _ w' => returns w')
  end.

Fixpoint call (fuel : nat) (f : Fn) (arg : Value) (w : World) {struct fuel}
  : Result :=
  match fuel with
  | O => None
  | S fuel =>
    match f with
    | FTrigger this =>
        (* this._callbacks && this._callbacks.forEach((cb, idx) => ...) *)
        match observables w !! this with
        | Some (Some a) =>
            arrayForEach a (triggerEach (call fuel) this arg) w
        | Some None => returns w
        | None => None
        end
    | FDone this =>
        match observables w !! this with
        | Some (Some a) =>
            andThen (arrayForEach a (doneEach (call fuel)) w)
                    (fun _ w' => returns (discardCallbacks this w'))
        | Some None => returns (discardCallbacks this w)
        | None => None
        end
    | FFail this =>
        match observables w !! this with
        | Some (Some a) =>
            andThen (arrayForEach a (failEach (call fuel) arg) w)
                    (fun _ w' => returns (discardCallbacks this w'))
        | Some None => returns (discardCallbacks this w)
        | None => None
        end
    | FResolve p =>
        returns (settle p false arg (record (CalledResolve p arg) w))
    | FReject p =>
        returns (settle p true arg (record (CalledReject p arg) w))
    | FUser c throws =>
        match throws arg with
        | Some e => Some (Throw e, w)
        | None => returns (record (Saw c arg) w)
        end
    | FAction c result => Some (Return result, record (Saw c arg) w)
    | FMapListener mapper trigger => call fuel trigger (mapper arg) w
    | FFilterListener predicate trigger =>
        if predicate arg then call fuel trigger arg w else returns w
    | FReduceListener initialValue reducer trigger =>
        match cells w !! initialValue with
        | Some acc =>
            let acc' := reducer acc arg in
            call fuel trigger acc'
                 (set_cells (<[initialValue := acc']> (cells w)) w)
        | None => None
        end
    | FNoop => returns w
    | FThenResolve resolve action =>
        andThen (call fuel action VUndefined w)
                (fun r w' => call fuel resolve r w')
    | FUnsubscribeDone this index done =>
        let (unsubscribed, w') := unsubscribeOnly this index w in
        if unsubscribed then call fuel done VUndefined w' else returns w'
    | FUnsubscribeFail this index fail =>
        let (unsubscribed, w') := unsubscribeOnly this index w in
        if unsubscribed then call fuel fail arg w' else returns w'
    | FPreTrigger trigger listener =>
        andThen (call fuel trigger arg w)
                (fun _ w' =>
                   match fnCells w' !! listener with
                   | Some (Some l) => call fuel l arg w'   (* if (listener) *)
                   | Some None => returns w'
                   | None => None
                   end)
    | FTimeoutFire fail => call fuel fail ERROR_TIMEOUT w
    | FFirstNListener n unsubscribe =>
        match cells w !! n with
        | Some (VNum k) =>
            let w' := set_cells (<[n := VNum (k - 1)]> (cells w)) w in
            if (k =? 0)%Z then call fuel unsubscribe VUndefined w'
            else returns w'
        | _ => None
        end
    | FIterValue this =>
        match iterators w !! this with
        | Some it =>
            match demanded it with
            | d :: rest =>                      (* this.demanded.shift() *)
                call fuel (fst d) arg
                     (set_iterators
                        (<[this := {| demanded := rest; queued := queued it;
                                      done := done it |}]> (iterators w)) w)
            | [] =>
                returns
                  (set_iterators
                     (<[this := {| demanded := []; queued := queued it ++ [arg];
                                   done := done it |}]> (iterators w)) w)
            end
        | None => None
        end
    | FIterDone this =>
        match iterators w !! this with
        | Some it =>
            let (p, w1) := allocPromise (Fulfilled VIterDone) w in
            let w2 :=
              set_iterators
                (<[this := {| demanded := demanded it; queued := queued it;
                              done := Some p |}]> (iterators w1)) w1 in
            andThen
              (forOf (fun r w => call fuel r VIterDone w)
                     (List.map fst (demanded it)) w2)
              (fun _ w3 =>
                 match iterators w3 !! this with
                 | Some it' =>
                     returns
                       (set_iterators
                          (<[this := {| demanded := []; queued := queued it';
                                        done := done it' |}]> (iterators w3))
                          w3)
                 | None => None
                 end)
        | None => None
        end
    | FIterFail this =>
        match iterators w !! this with
        | Some it =>
            let (p, w1) := allocPromise (Rejected arg) w in
            let w2 :=
              set_iterators
                (<[this := {| demanded := demanded it; queued := queued it;
                              done := Some p |}]> (iterators w1)) w1 in
            andThen
              (forOf (fun r w => call fuel r arg w)
                     (List.map snd (demanded it)) w2)
              (fun _ w3 =>
                 match iterators w3 !! this with
                 | Some it' =>
                     returns
                       (set_iterators
                          (<[this := {| demanded := []; queued := queued it';
                                        done := done it' |}]> (iterators w3))
                          w3)
                 | None => None
                 end)
        | None => None
        end
    | FEventWrapper trigger => call fuel trigger arg w
    | FRemoveListener element event l =>
        returns (removeEventListener element event l w)
    end
  end.

(** ** Scripts *)

(** Straight-line code that runs against the world. *)
Definition M (A : Type) : Type := World -> option (A * World).

Definition ret {A : Type} (x : A) : M A := fun w => Some (x, w).

Definition bind {A B : Type} (m : M A) (k : A -> M B) : M B :=
  fun w => match m w with
           | Some (x, w') => k x w'
           | None => None
           end.

Declare Scope script_scope.
Delimit Scope script_scope with script.
Notation "'let*' x ':=' m 'in' k" := (bind m (fun x => k))
  (at level 10, x name, m at level 100, k at level 200) : script_scope.
Notation "m ';;' k" := (bind m (fun _ => k))
  (at level 100, k at level 200, right associativity) : script_scope.
Local Open Scope script_scope.

(** A call made by a script; an exception nobody catches ends the script. *)
Definition invoke (fuel : nat) (f : Fn) (arg : Value) : M unit :=
  fun w => match call fuel f arg w with
           | Some (Return _, w') => Some (tt, w')
           | _ => None
           end.

(** The same, keeping the value returned. *)
Definition invokeValue (fuel : nat) (f : Fn) (arg : Value) : M Value :=
  fun w => match call fuel f arg w with
           | Some (Return v, w') => Some (v, w')
           | _ => None
           end.

(** ** Promises and the event loop *)

Definition newPromise (s : PromiseState) : M nat :=
  fun w => Some (allocPromise s w).

(** [promise.then(onFulfilled)] and [promise.catch(onRejected)]: a reaction on
    a settled promise is queued at once. *)
Definition addReaction (p : nat) (onF onR : option Fn) : M nat :=
  fun w =>
    let (child, w1) := allocPromise (Pending []) w in
    let r := {| onFulfilled := onF; onRejected := onR;
                derivedPromise := child |} in
    match promises w1 !! p with
    | Some (Pending rs) =>
        Some (child,
              set_promises (<[p := Pending (rs ++ [r])]> (promises w1)) w1)
    | Some (Fulfilled v) =>
        Some (child,
              set_microtasks
                (microtasks w1 ++
                   [{| jobReaction := r; jobRejected := false;
                       jobValue := v |}]) w1)
    | Some (Rejected e) =>
        Some (child,
              set_microtasks
                (microtasks w1 ++
                   [{| jobReaction := r; jobRejected := true;
                       jobValue := e |}]) w1)
    | None => None
    end.

Definition promiseThen (p : nat) (onFulfilled : Fn) : M nat :=
  addReaction p (Some onFulfilled) None.

Definition promiseCatch (p : nat) (onRejected : Fn) : M nat :=
  addReaction p None (Some onRejected).

(** One promise reaction job: without a handler for the outcome the derived
    promise takes the outcome over; otherwise the handler runs and the derived
    promise is settled with what it returns or throws. *)
Definition runJob (fuel : nat) (j : Job) (w : World) : option World :=
  let r := jobReaction j in
  match (if jobRejected j then onRejected r else onFulfilled r) with
  | None => Some (settle (derivedPromise r) (jobRejected j) (jobValue j) w)
  | Some handler =>
      match call fuel handler (jobValue j) w with
      | Some (Return v, w') => Some (settle (derivedPromise r) false v w')
      | Some (Throw e, w') => Some (settle (derivedPromise r) true e w')
      | None => None
      end
  end.

(** The microtask queue is run until it is empty. *)
Fixpoint runMicrotasks (fuel : nat) (w : World) : option World :=
  match microtasks w with
  | [] => Some w
  | j :: rest =>
      match fuel with
      | O => None
      | S fuel' =>
          match runJob fuel' j (set_microtasks rest w) with
          | Some w' => runMicrotasks fuel' w'
          | None => None
          end
      end
  end.

(** The end of the current turn of the event loop. *)
Definition endOfTurn (fuel : nat) : M unit :=
  fun w => match runMicrotasks fuel w with
           | Some w' => Some (tt, w')
           | None => None
           end.

(** [setTimeout(cb, ms)] *)
Definition setTimeout (cb : Fn) (ms : Z) : M unit :=
  fun w => Some (tt, set_timers (timers w ++ [((now w + ms)%Z, cb)]) w).

(** The timer to fire next among those due by [target]: the earliest one,
    the first registered among equals. *)
Fixpoint nextDue (target : Z) (ts : list (Z * Fn)) (idx : nat)
    (best : option (nat * (Z * Fn))) : option (nat * (Z * Fn)) :=
  match ts with
  | [] => best
  | t :: ts' =>
      let best' :=
        if (fst t <=? target)%Z then
          match best with
          | Some (_, b) => if (fst t <? fst b)%Z then Some (idx, t) else best
          | None => Some (idx, t)
          end
        else best in
      nextDue target ts' (S idx) best'
  end.

(** Time passes until [target]; every timer due by then fires in its own
    turn. *)
Fixpoint advanceTo (fuel : nat) (target : Z) (w : World) : option World :=
  match nextDue target (timers w) 0 None with
  | None => Some (set_now (Z.max (now w) target) w)
  | Some (i, (due, cb)) =>
      match fuel with
      | O => None
      | S fuel' =>
          let w1 := set_now (Z.max (now w) due)
                            (set_timers (delete i (timers w)) w) in
          match call fuel' cb VUndefined w1 with
          | Some (_, w2) =>
              match runMicrotasks fuel' w2 with
              | Some w3 => advanceTo fuel' target w3
              | None => None
              end
          | None => None
          end
      end
  end.

Definition sleep (fuel : nat) (ms : Z) : M unit :=
  fun w => match advanceTo fuel (now w + ms)%Z w with
           | Some w' => Some (tt, w')
           | None => None
           end.

(** ** class Observable *)

Module Observable.

(** [new Observable(executor)]: the field initialiser [_callbacks = []] runs,
    then the executor, synchronously, with the three closures of the
    constructor. *)
Definition new (executor : Fn -> Fn -> Fn -> M unit) : M nat :=
  fun w =>
    let this := length (observables w) in
    let a := length (arrays w) in
    let w0 := set_observables (observables w ++ [Some a])
                (set_arrays (arrays w ++ [[]]) w) in
    match executor (FTrigger this) (FDone this) (FFail this) w0 with
    | Some (_, w1) => Some (this, w1)
    | None => None
    end.

(** [return this._callbacks === undefined;] *)
Definition isDone (this : nat) : M bool :=
  fun w => match observables w !! this with
           | Some None => Some (true, w)
           | Some (Some _) => Some (false, w)
           | None => None
           end.

(** [this._callbacks!.length] *)
Definition callbacksLength (this : nat) : M nat :=
  fun w => match observables w !! this with
           | Some (Some a) =>
               match arrays w !! a with
               | Some arr => Some (length arr, w)
               | None => None
               end
           | _ => None
           end.

(** [this._callbacks!.push(item)] *)
Definition push (this : nat) (item : CallbackItem) : M unit :=
  fun w => match observables w !! this with
           | Some (Some a) =>
               match arrays w !! a with
               | Some arr =>
                   Some (tt, set_arrays (<[a := arr ++ [Some item]]> (arrays w))
                                        w)
               | None => None
               end
           | _ => None
           end.

Definition forEach (this : nat) (each : Fn) : M nat :=
  let* isdone := isDone this in
  if isdone then
    (* signal `done` if isDone already. *)
    newPromise (Fulfilled VUndefined)
  else
    let* p := newPromise (Pending []) in
    push this {| listener := each; resolve := FResolve p;
                 reject := FReject p |};;
    ret p.

Definition map (this : nat) (mapper : Value -> Value) : M nat :=
  new (fun trigger done fail =>
         forEach this (FMapListener mapper trigger);;
         ret tt).

Definition filter (this : nat) (predicate : Value -> bool) : M nat :=
  new (fun trigger done fail =>
         let* p := forEach this (FFilterListener predicate trigger) in
         let* p' := promiseThen p done in
         promiseCatch p' fail;;
         ret tt).

Definition reduce (fuel : nat) (this : nat) (initialValue : Value)
    (reducer : Value -> Value -> Value) : M nat :=
  new (fun trigger done fail =>
         fun w =>
           (* the parameter [initialValue] is assigned to by the listener *)
           let cell := length (cells w) in
           (invoke fuel trigger initialValue;;
            let* p := forEach this (FReduceListener cell reducer trigger) in
            let* p' := promiseThen p done in
            promiseCatch p' fail;;
            ret tt)
             (set_cells (cells w ++ [initialValue]) w)).

(** [then(action)] *)
Definition then_ (fuel : nat) (this : nat) (action : Fn) : M nat :=
  let* isdone := isDone this in
  if isdone then
    let* r := invokeValue fuel action VUndefined in
    newPromise (Fulfilled r)
  else
    let* p := newPromise (Pending []) in
    push this {| listener := FNoop;
                 resolve := FThenResolve (FResolve p) action;
                 reject := FReject p |};;
    ret p.

Definition empty (fuel : nat) : M nat :=
  new (fun trigger done fail => invoke fuel done VUndefined).

Definition never : M nat :=
  new (fun trigger done fail => ret tt).

(** [array.forEach(trigger)] *)
Fixpoint forEachValue (fuel : nat) (f : Fn) (array : list Value) : M unit :=
  match array with
  | [] => ret tt
  | v :: rest => invoke fuel f v;; forEachValue fuel f rest
  end.

Definition fromArray (fuel : nat) (array : list Value) : M nat :=
  new (fun trigger done fail =>
         forEachValue fuel trigger array;;
         invoke fuel done VUndefined).

Definition just (fuel : nat) (val : Value) : M nat :=
  new (fun trigger done fail =>
         invoke fuel trigger val;;
         invoke fuel done VUndefined).

(** The expression [this.isDone]: the method itself, a function object. *)
Definition isDoneMethod : Value := VFunction "isDone".

(** The body of [subscribe] past its guard: [return new Observable(...)]. *)
Definition subscribeBody (this : nat)
    (executor : Fn -> Fn -> M (option Fn)) : M nat :=
  new (fun trigger done fail =>
         let* index := callbacksLength this in
         let unsubscribeDone := FUnsubscribeDone this index done in
         let unsubscribeFail := FUnsubscribeFail this index fail in
         fun w =>
           (* const listener, read by preTrigger *)
           let lcell := length (fnCells w) in
           (push this {| listener := FPreTrigger trigger lcell;
                         resolve := unsubscribeDone;
                         reject := unsubscribeFail |};;
            let* l := executor unsubscribeDone unsubscribeFail in
            fun w' =>
              Some (tt, set_fnCells (<[lcell := l]> (fnCells w')) w'))
             (set_fnCells (fnCells w ++ [None]) w)).

(** [subscribe(executor)]; the executor receives [unsubscribeDone] and
    [unsubscribeFail] and may return a listener. *)
Definition subscribe (fuel : nat) (this : nat)
    (executor : Fn -> Fn -> M (option Fn)) : M nat :=
  if truthy isDoneMethod then                       (* if (this.isDone) *)
    empty fuel
  else
    subscribeBody this executor.

(** [(unsubscribe, fail) => { setTimeout(() => { fail(ERROR_TIMEOUT); },
                                          timeoutMs); }] *)
Definition withTimeoutExecutor (timeoutMs : Z) : Fn -> Fn -> M (option Fn) :=
  fun unsubscribe fail =>
    setTimeout (FTimeoutFire fail) timeoutMs;;
    ret None.

Definition withTimeout (fuel : nat) (this : nat) (timeoutMs : Z) : M nat :=
  subscribe fuel this (withTimeoutExecutor timeoutMs).

(** [unsubscribe => { return (obj) => { if (n-- === 0) unsubscribe(); }; }] *)
Definition firstNExecutor (n : Z) : Fn -> Fn -> M (option Fn) :=
  fun unsubscribe fail =>
    fun w =>
      (* the parameter [n] of [firstN] is decremented by the listener *)
      let cell := length (cells w) in
      Some (Some (FFirstNListener cell unsubscribe),
            set_cells (cells w ++ [VNum n]) w).

Definition firstN (fuel : nat) (this : nat) (n : Z) : M nat :=
  if (n <=? 0)%Z then empty fuel
  else subscribe fuel this (firstNExecutor n).

(** [filterWhere(predicate)]: the body of [filter], for a type guard. *)
Definition filterWhere (this : nat) (predicate : Value -> bool) : M nat :=
  new (fun trigger done fail =>
         let* p := forEach this (FFilterListener predicate trigger) in
         let* p' := promiseThen p done in
         promiseCatch p' fail;;
         ret tt).

(** [withConditions(...conditions)]: the listener
    [obj => { if (conditions.every(c => c(obj))) trigger(obj); }] is the
    listener of [filter] for the predicate [obj => conditions.every(...)]. *)
Definition withConditions (this : nat) (conditions : list (Value -> bool))
  : M nat :=
  new (fun trigger done fail =>
         let* p := forEach this
                     (FFilterListener
                        (fun obj => forallb (fun c => c obj) conditions)
                        trigger) in
         let* p' := promiseThen p done in
         promiseCatch p' fail;;
         ret tt).

(** [static throw(error)] *)
Definition throw (fuel : nat) (error : Value) : M nat :=
  new (fun trigger done fail => invoke fuel fail error).

End Observable.

(** ** class Subscription *)

Module Subscription.

(** How [new Subscription(...)] ends: with the new object, or with an
    exception. *)
Inductive Construction : Type :=
| Constructed (this : nat)
| Threw (e : Value).

(** [new Subscription(executor)] is
    [super((trigger, done, fail) => { this.dispose = done;
                                      executor(trigger, done, fail); })].
    The constructor of [Observable] initialises [_callbacks] and calls the
    closure at once, before [super(...)] has returned, where [this] cannot be
    read yet: [this.dispose = done] throws, the exception leaves both
    constructors, and the statement that calls [executor] is not reached. *)
Definition new (executor : Fn -> Fn -> Fn -> World -> Result)
  : World -> option (Construction * World) :=
  fun w =>
    let this := length (observables w) in
    let a := length (arrays w) in
    let w0 := set_observables (observables w ++ [Some a])
                (set_arrays (arrays w ++ [[]]) w) in
    match andThen (Some (Throw ReferenceError, w0))    (* this.dispose = done; *)
                  (fun _ w1 =>
                     executor (FTrigger this) (FDone this) (FFail this) w1)
    with
    | Some (Return _, w1) => Some (Constructed this, w1)
    | Some (Throw e, w1) => Some (Threw e, w1)
    | None => None
    end.

(** [element.addEventListener(event, listener)]: a pair already registered
    is not registered twice. *)
Definition addEventListener (element : nat) (event : string) (l : Fn)
  : M unit :=
  fun w =>
    match elements w !! element with
    | Some ls =>
        if existsb (fun r => (fst r =? event)%string && sameFunction (snd r) l)
                   ls
        then Some (tt, w)
        else Some (tt, set_elements (<[element := ls ++ [(event, l)]]>
                                       (elements w)) w)
    | None => None
    end.

(** [const sub = new Subscription((trigger, done) => {
       element.addEventListener(event, cb => trigger(cb));
       sub.then(() => element.removeEventListener(event, trigger)); });
     return sub;]
    The executor would run while [sub] is being initialised: reading [sub]
    in [sub.then(...)] throws before the argument is evaluated. *)
Definition fromListener (element : nat) (event : string)
  : World -> option (Construction * World) :=
  new (fun trigger done fail w =>
         match addEventListener element event (FEventWrapper trigger) w with
         | Some (_, w1) => Some (Throw ReferenceError, w1)
         | None => None
         end).

End Subscription.

(** ** class ObservableAsyncIterator *)

Module ObservableAsyncIterator.

Definition new (observable : nat) : M nat :=
  fun w =>
    let this := length (iterators w) in
    (let* p := Observable.forEach observable (FIterValue this) in
     let* p' := promiseThen p (FIterDone this) in
     promiseCatch p' (FIterFail this);;
     ret this)
      (set_iterators
         (iterators w ++ [{| demanded := []; queued := []; done := None |}])
         w).

Definition next (this : nat) : M nat :=
  fun w =>
    match iterators w !! this with
    | Some it =>
        (* const queued = this.queued.shift(); *)
        let queued_ := match queued it with
                       | q :: _ => q
                       | [] => VUndefined
                       end in
        let w1 := set_iterators
                    (<[this := {| demanded := demanded it;
                                  queued := tail (queued it);
                                  done := done it |}]> (iterators w)) w in
        if truthy queued_ then                        (* if (queued) *)
          Some (allocPromise (Fulfilled queued_) w1)
        else
          match done it with
          | Some p => Some (p, w1)                    (* if (this.done) *)
          | None =>
              let (p, w2) := allocPromise (Pending []) w1 in
              Some (p,
                    set_iterators
                      (<[this := {| demanded :=
                                      demanded it ++ [(FResolve p, FReject p)];
                                    queued := tail (queued it);
                                    done := done it |}]> (iterators w2)) w2)
          end
    | None => None
    end.

End ObservableAsyncIterator.

(** ** Producers and consumers *)

(** A producer that keeps the three closures for later, as the test suite's
    [getObservable] does: the executor itself calls nothing. *)
Definition idle : Fn -> Fn -> Fn -> M unit := fun trigger done fail => ret tt.

Inductive Terminal : Type :=
| TDone
| TFail (err : Value).

Inductive ProducerCall : Type :=
| PTrigger (obj : Value)
| PTerminal (t : Terminal).

Definition producerCall (fuel : nat) (this : nat) (c : ProducerCall) : M unit :=
  match c with
  | PTrigger obj => invoke fuel (FTrigger this) obj
  | PTerminal TDone => invoke fuel (FDone this) VUndefined
  | PTerminal (TFail err) => invoke fuel (FFail this) err
  end.

Fixpoint producerCalls (fuel : nat) (this : nat) (cs : list ProducerCall)
  : M unit :=
  match cs with
  | [] => ret tt
  | c :: rest => producerCall fuel this c;; producerCalls fuel this rest
  end.

(** The outcome a terminal signal gives to a pending [forEach] result. *)
Definition outcome (t : Terminal) : PromiseState :=
  match t with
  | TDone => Fulfilled VUndefined
  | TFail err => Rejected err
  end.

(** A consumer registered by [forEach]: the number and the behaviour of its
    listener, and the promise [forEach] returned to it. *)
Record Consumer : Type :=
  { cid : nat; cthrows : Value -> option Value; cpromise : nat }.

(** The item [forEach] pushes for it. *)
Definition consumerItem (c : Consumer) : CallbackItem :=
  {| listener := FUser (cid c) (cthrows c);
     resolve := FResolve (cpromise c);
     reject := FReject (cpromise c) |}.

(** A registry of such consumers; [None] is a slot set to [undefined]. *)
Definition registry (cs : list (option Consumer))
  : list (option CallbackItem) :=
  List.map (option_map consumerItem) cs.

(** The listener numbers and the promises of the registered consumers. *)
Definition consumerIds (cs : list (option Consumer)) : list nat :=
  omap (option_map cid) cs.

Definition promiseIds (cs : list (option Consumer)) : list nat :=
  omap (option_map cpromise) cs.

(** The values consumer [c] has observed, in order. *)
Definition seen (c : nat) (l : list Event) : list Value :=
  omap (fun e => match e with
                 | Saw c' v => if Nat.eqb c c' then Some v else None
                 | _ => None
                 end) l.

(** The first value of [vs] on which a listener throws: its position and
    what is thrown. *)
Fixpoint firstThrow (throws : Value -> option Value) (vs : list Value)
  : option (nat * Value) :=
  match vs with
  | [] => None
  | v :: rest =>
      match throws v with
      | Some e => Some (O, e)
      | None => match firstThrow throws rest with
                | Some (k, e) => Some (S k, e)
                | None => None
                end
      end
  end.

(** The consumers still registered after the values [vs]: those whose
    listener threw on none of them. *)
Definition survivors (vs : list Value) (cs : list (option Consumer))
  : list (option Consumer) :=
  List.map (fun oc => match oc with
                      | Some c => match firstThrow (cthrows c) vs with
                                  | None => Some c
                                  | Some _ => None
                                  end
                      | None => None
                      end) cs.

(** The calls a terminal signal makes: one per registered consumer, in
    registration order. *)
Definition settleCalls (t : Terminal) (cs : list (option Consumer))
  : list Event :=
  omap (fun oc => match oc with
                  | Some c => Some (match t with
                                    | TDone =>
                                        CalledResolve (cpromise c) VUndefined
                                    | TFail err =>
                                        CalledReject (cpromise c) err
                                    end)
                  | None => None
                  end) cs.

(** What one turn of the loop of [trigger] does for a consumer. *)
Definition deliver (this : nat) (obj : Value) (idx : nat)
    (oc : option Consumer) (w : World) : World :=
  match oc with
  | None => w
  | Some c =>
      match cthrows c obj with
      | None => record (Saw (cid c) obj) w
      | Some e =>
          clearSlot this idx
            (settle (cpromise c) true e
                    (record (CalledReject (cpromise c) e) w))
      end
  end.

(** A loop over the slots from index [idx] on, one [step] per slot. *)
Fixpoint stepFrom (step : nat -> option Consumer -> World -> World)
    (idx : nat) (cs : list (option Consumer)) (w : World) : World :=
  match cs with
  | [] => w
  | oc :: rest => stepFrom step (S idx) rest (step idx oc w)
  end.

(** The slot a turn of the loop of [trigger] leaves behind. *)
Definition afterDelivery (obj : Value) (oc : option Consumer)
  : option Consumer :=
  match oc with
  | Some c => match cthrows c obj with
              | None => Some c
              | Some _ => None
              end
  | None => None
  end.

(** The events of one [trigger], in order. *)
Definition triggerEvents (obj : Value) (cs : list (option Consumer))
  : list Event :=
  omap (fun oc => match oc with
                  | Some c => Some (match cthrows c obj with
                                    | None => Saw (cid c) obj
                                    | Some e => CalledReject (cpromise c) e
                                    end)
                  | None => None
                  end) cs.

(** The events of a run of [trigger] calls. *)
Fixpoint triggersEvents (vs : list Value) (cs : list (option Consumer))
  : list Event :=
  match vs with
  | [] => []
  | v :: rest =>
      triggerEvents v cs ++ triggersEvents rest (List.map (afterDelivery v) cs)
  end.

(** The promise table after [settle]. *)
Definition settlePromise (p : nat) (s : PromiseState)
    (ps : list PromiseState) : list PromiseState :=
  match ps !! p with
  | Some (Pending _) => <[p := s]> ps
  | _ => ps
  end.

(** The promise table after one [trigger]. *)
Definition rejectThrowers (obj : Value) (cs : list (option Consumer))
    (ps : list PromiseState) : list PromiseState :=
  fold_left (fun ps oc =>
               match oc with
               | Some c =>
                   match cthrows c obj with
                   | Some e => settlePromise (cpromise c) (Rejected e) ps
                   | None => ps
                   end
               | None => ps
               end) cs ps.

(** The promise table after a run of [trigger] calls. *)
Fixpoint rejectAllThrowers (vs : list Value) (cs : list (option Consumer))
    (ps : list PromiseState) : list PromiseState :=
  match vs with
  | [] => ps
  | v :: rest =>
      rejectAllThrowers rest (List.map (afterDelivery v) cs)
                        (rejectThrowers v cs ps)
  end.

(** The promise table after a terminal signal. *)
Definition settleAll (t : Terminal) (cs : list (option Consumer))
    (ps : list PromiseState) : list PromiseState :=
  fold_left (fun ps oc =>
               match oc with
               | Some c => settlePromise (cpromise c) (outcome t) ps
               | None => ps
               end) cs ps.

(** What one turn of the loop of [done] or [fail] does for a consumer. *)
Definition conclude (t : Terminal) (oc : option Consumer) (w : World)
  : World :=
  match oc with
  | None => w
  | Some c =>
      match t with
      | TDone =>
          settle (cpromise c) false VUndefined
                 (record (CalledResolve (cpromise c) VUndefined) w)
      | TFail err =>
          settle (cpromise c) true err
                 (record (CalledReject (cpromise c) err) w)
      end
  end.


(** ** Scenarios *)

(** Each scenario is a script; [fuel] bounds the depth of nested calls and
    the number of microtasks of a turn. *)

Definition quiet : Value -> option Value := fun _ => None.

Definition throwsOn (n : Z) (e : Value) : Value -> option Value :=
  fun v => match v with
           | VNum k => if (k =? n)%Z then Some e else None
           | _ => None
           end.

(** [x => x * 2] *)
Definition double (v : Value) : Value :=
  match v with
  | VNum n => VNum (n * 2)
  | _ => v
  end.

(** [(a, b) => a + b] *)
Definition plus (a b : Value) : Value :=
  match a, b with
  | VNum x, VNum y => VNum (x + y)
  | _, _ => VUndefined
  end.

(** What a scenario reports: whether the derived stream is done, the state
    of the consumer's [forEach] result, and what the consumer observed. *)
Definition report (derived consumer p : nat)
  : M (bool * option PromiseState * list Value) :=
  let* isdone := Observable.isDone derived in
  fun w => Some ((isdone, promises w !! p, seen consumer (log w)), w).

(** A source that emits 1, 2, 3 and is done; [firstN(2)] of it, consumed. *)
Definition firstN_scenario (fuel : nat)
  : M (bool * bool * option PromiseState * list Value) :=
  let* src := Observable.new idle in
  let* d := Observable.firstN fuel src 2 in
  let* early := Observable.isDone d in
  let* p := Observable.forEach d (FUser 0 quiet) in
  producerCalls fuel src [PTrigger (VNum 1); PTrigger (VNum 2);
                          PTrigger (VNum 3); PTerminal TDone];;
  endOfTurn fuel;;
  let* r := report d 0 p in
  ret (early, fst (fst r), snd (fst r), snd r).

(** A source that fails with "global"; a [forEach] registered afterwards. *)
Definition late_forEach_scenario (fuel : nat)
  : M (option PromiseState * list Value) :=
  let* src := Observable.new idle in
  producerCalls fuel src [PTrigger (VNum 1);
                          PTerminal (TFail (VStr "global"))];;
  endOfTurn fuel;;
  let* p := Observable.forEach src (FUser 0 quiet) in
  endOfTurn fuel;;
  fun w => Some ((promises w !! p, seen 0 (log w)), w).

(** A source that emits 1, 2, 3 and terminates with [t];
    [map(x => x * 2)] of it, consumed. *)
Definition map_scenario (fuel : nat) (t : Terminal)
  : M (bool * option PromiseState * list Value) :=
  let* src := Observable.new idle in
  let* d := Observable.map src double in
  let* p := Observable.forEach d (FUser 0 quiet) in
  producerCalls fuel src [PTrigger (VNum 1); PTrigger (VNum 2);
                          PTrigger (VNum 3); PTerminal t];;
  endOfTurn fuel;;
  report d 0 p.

(** The same through [filter(x => x % 2 === 0)], for comparison. *)
Definition filter_scenario (fuel : nat) (t : Terminal)
  : M (bool * option PromiseState * list Value) :=
  let* src := Observable.new idle in
  let* d := Observable.filter src
              (fun v => match v with
                        | VNum n => Z.even n
                        | _ => false
                        end) in
  let* p := Observable.forEach d (FUser 0 quiet) in
  producerCalls fuel src [PTrigger (VNum 1); PTrigger (VNum 2);
                          PTrigger (VNum 3); PTrigger (VNum 4);
                          PTerminal t];;
  endOfTurn fuel;;
  report d 0 p.

(** A source that never terminates, under [withTimeout(50)]; 50 ms pass. *)
Definition withTimeout_scenario (fuel : nat)
  : M (bool * list (Z * Fn) * bool * option PromiseState) :=
  let* src := Observable.never in
  let* d := Observable.withTimeout fuel src 50 in
  let* early := Observable.isDone d in
  fun w =>
    let scheduled := timers w in
    (let* p := Observable.forEach d (FUser 0 quiet) in
     sleep fuel 50;;
     let* srcDone := Observable.isDone src in
     fun w' => Some ((early, scheduled, srcDone, promises w' !! p), w')) w.

(** A pull adapter over a source of numbers: 0 is triggered, then pulled;
    then 5 is triggered. *)
Definition iterator_scenario (fuel : nat)
  : M (option PromiseState * option PromiseState * list Value) :=
  let* src := Observable.new idle in
  let* it := ObservableAsyncIterator.new src in
  producerCalls fuel src [PTrigger (VNum 0)];;
  let* p := ObservableAsyncIterator.next it in
  fun w =>
    let atOnce := promises w !! p in
    (producerCalls fuel src [PTrigger (VNum 5)];;
     fun w' =>
       Some ((atOnce, promises w' !! p,
              match iterators w' !! it with
              | Some s => queued s
              | None => []
              end), w')) w.

(** A source that emits 1, 2 and is done; [reduce(0, (a, b) => a + b)] of
    it, consumed from the moment [reduce] returns. *)
Definition reduce_scenario (fuel : nat)
  : M (bool * option PromiseState * list Value) :=
  let* src := Observable.new idle in
  let* d := Observable.reduce fuel src (VNum 0) plus in
  let* p := Observable.forEach d (FUser 0 quiet) in
  producerCalls fuel src [PTrigger (VNum 1); PTrigger (VNum 2);
                          PTerminal TDone];;
  endOfTurn fuel;;
  report d 0 p.

(** A call of a closure by a caller that catches what it throws. *)
Definition attempt (fuel : nat) (f : Fn) (arg : Value) : M Completion :=
  fun w => call fuel f arg w.

(** The arguments of the calls made to the resolving function of promise
    [p], in order. *)
Definition resolved (p : nat) (l : list Event) : list Value :=
  omap (fun e => match e with
                 | CalledResolve p' v => if Nat.eqb p p' then Some v else None
                 | _ => None
                 end) l.

(** A [forEach], a [then] whose action throws "boom", a second [forEach];
    then [done()], [trigger(7)] and [done()] again.  Reported: how the two
    calls of [done()] ended, [isDone()] after the first, what the two
    consumers observed, the calls made to the resolving function of the
    first [forEach], and the results of the second [forEach] and of [then]
    at the end. *)
Definition throwing_action_scenario (fuel : nat)
  : M (Completion * bool * list Value * list Value * Completion
       * list Value * option PromiseState * option PromiseState) :=
  let* src := Observable.new idle in
  let* p := Observable.forEach src (FUser 0 quiet) in
  let* q := Observable.then_ fuel src (FUser 1 (fun _ => Some (VStr "boom"))) in
  let* r := Observable.forEach src (FUser 2 quiet) in
  let* first := attempt fuel (FDone src) VUndefined in
  let* isdone := Observable.isDone src in
  producerCalls fuel src [PTrigger (VNum 7)];;
  let* second := attempt fuel (FDone src) VUndefined in
  endOfTurn fuel;;
  fun w =>
    Some ((first, isdone, seen 0 (log w), seen 2 (log w), second,
           resolved p (log w), promises w !! r, promises w !! q), w).

(** The body of [subscribe] entered directly, with the executor of
    [firstN(2)], on a source that emits 1, 2, 3, 4 and is done. *)
Definition firstN_body_scenario (fuel : nat)
  : M (bool * option PromiseState * list Value) :=
  let* src := Observable.new idle in
  let* d := Observable.subscribeBody src (Observable.firstNExecutor 2) in
  let* p := Observable.forEach d (FUser 0 quiet) in
  producerCalls fuel src [PTrigger (VNum 1); PTrigger (VNum 2);
                          PTrigger (VNum 3); PTrigger (VNum 4);
                          PTerminal TDone];;
  endOfTurn fuel;;
  report d 0 p.

(** The body of [subscribe] entered directly, with the executor of
    [withTimeout(50)], on a source that never terminates; 50 ms pass. *)
Definition withTimeout_body_scenario (fuel : nat)
  : M (bool * option PromiseState * list Value) :=
  let* src := Observable.never in
  let* d := Observable.subscribeBody src (Observable.withTimeoutExecutor 50) in
  let* p := Observable.forEach d (FUser 0 quiet) in
  sleep fuel 50;;
  report d 0 p.

(** *** The test suite of the repository, replayed

    [test/observable.ts]: each script is the body of one test; what the test
    expects is what the script returns. *)

(** [numbers.length] *)
Definition numbersLength (consumer : nat) : M nat :=
  fun w => Some (length (seen consumer (log w)), w).

Definition promiseState (p : nat) : M (option PromiseState) :=
  fun w => Some (promises w !! p, w).

(** "foreach triggers when called" *)
Definition test_triggers_when_called (fuel : nat) : M (list nat * bool) :=
  let* o := Observable.new idle in
  let* p := Observable.forEach o (FUser 0 quiet) in
  let* n0 := numbersLength 0 in
  producerCalls fuel o [PTrigger (VNum 1)];;
  let* n1 := numbersLength 0 in
  producerCalls fuel o [PTrigger (VNum 2)];;
  let* n2 := numbersLength 0 in
  producerCalls fuel o [PTerminal TDone];;
  let* n3 := numbersLength 0 in
  producerCalls fuel o [PTrigger (VNum 3)];;
  let* n4 := numbersLength 0 in
  let* isdone := Observable.isDone o in
  ret ([n0; n1; n2; n3; n4], isdone).

(** "foreach resolves its promise" and "foreach globally fails its promise" *)
Definition test_settles_its_promise (fuel : nat) (t : Terminal)
  : M (list nat * option PromiseState) :=
  let* o := Observable.new idle in
  let* p := Observable.forEach o (FUser 0 quiet) in
  let* n0 := numbersLength 0 in
  producerCalls fuel o [PTrigger (VNum 1)];;
  let* n1 := numbersLength 0 in
  producerCalls fuel o [PTrigger (VNum 2)];;
  let* n2 := numbersLength 0 in
  producerCalls fuel o [PTerminal t];;
  endOfTurn fuel;;
  let* s := promiseState p in
  ret ([n0; n1; n2], s).

(** "foreach locally fails its promise" *)
Definition test_locally_fails (fuel : nat)
  : M (list nat * option PromiseState) :=
  let* o := Observable.new idle in
  let* p := Observable.forEach o (FUser 0 (throwsOn 3 (VStr "local"))) in
  let* n0 := numbersLength 0 in
  producerCalls fuel o [PTrigger (VNum 1)];;
  let* n1 := numbersLength 0 in
  producerCalls fuel o [PTrigger (VNum 2)];;
  let* n2 := numbersLength 0 in
  producerCalls fuel o [PTrigger (VNum 3)];;
  let* n3 := numbersLength 0 in
  endOfTurn fuel;;
  let* s := promiseState p in
  ret ([n0; n1; n2; n3], s).

(** "then works with success" and "then works with failure"; the action is
    consumer 9, which records that it ran. *)
Definition test_then (fuel : nat) (calls : list ProducerCall)
  : M (option PromiseState * nat) :=
  let* o := Observable.new idle in
  let* p := Observable.then_ fuel o (FUser 9 quiet) in
  producerCalls fuel o calls;;
  endOfTurn fuel;;
  let* s := promiseState p in
  let* ran := numbersLength 9 in
  ret (s, ran).

(** Two consumers of one source; the first throws "local" on the value 2. *)
Definition isolation_scenario : M (nat * nat * nat) :=
  let* src := Observable.new idle in
  let* p := Observable.forEach src (FUser 0 (throwsOn 2 (VStr "local"))) in
  let* q := Observable.forEach src (FUser 1 quiet) in
  ret (src, p, q).

(** Two consumers of one source; the first throws "local" on the value 2. *)
Definition twoConsumers : list (option Consumer) :=
  [Some {| cid := 0; cthrows := throwsOn 2 (VStr "local"); cpromise := 0 |};
   Some {| cid := 1; cthrows := quiet; cpromise := 1 |}].

(** The world in which both are registered. *)
Definition twoConsumersWorld : World :=
  match isolation_scenario initialWorld with
  | Some (_, w) => w
  | None => initialWorld
  end.

(** ** Notions used by the statements *)

Definition settled (s : PromiseState) : Prop :=
  match s with
  | Pending _ => False
  | _ => True
  end.

(** The values a consumer observes of a run: all of them, or those before
    the first one its listener throws on. *)
Definition observedOf (throws : Value -> option Value) (vs : list Value)
  : list Value :=
  match firstThrow throws vs with
  | None => vs
  | Some (k, _) => take k vs
  end.

(** The promise of a consumer after a run: as it was, or rejected with what
    its listener threw. *)
Definition promiseOf (throws : Value -> option Value) (vs : list Value)
    (s : PromiseState) : PromiseState :=
  match firstThrow throws vs with
  | Some (_, e) => Rejected e
  | None => s
  end.

(** The world in which one more Observable exists, with an empty array that
    its field no longer refers to. *)
Definition withTerminalObservable (w : World) : World :=
  set_observables (observables w ++ [None]) (set_arrays (arrays w ++ [[]]) w).

(** ** Predicate combinators *)

(** The combinators on [Predicate<T> = (object: T) => boolean]; a predicate
    is a total function to [bool], a rest parameter is a list. *)
Module Predicates.

Definition Predicate (T : Type) : Type := T -> bool.

(** [for (const predicate of predicates) if (!predicate(object)) return false;
     return true;] *)
Fixpoint every {T : Type} (predicates : list (Predicate T)) (object : T)
  : bool :=
  match predicates with
  | [] => true
  | predicate :: rest =>
      if negb (predicate object) then false else every rest object
  end.

(** [for (const predicate of predicates) if (predicate(object)) return true;
     return false;] *)
Fixpoint some {T : Type} (predicates : list (Predicate T)) (object : T)
  : bool :=
  match predicates with
  | [] => false
  | predicate :: rest =>
      if predicate object then true else some rest object
  end.

Definition map {T1 T2 : Type} (mapper : T1 -> T2) (predicate : Predicate T2)
  : Predicate T1 :=
  fun object => predicate (mapper object).

Definition not {T : Type} (predicate : Predicate T) : Predicate T :=
  fun object => negb (predicate object).

(** [predicates.filter(pred => pred(object)).length === 1] *)
Definition oneOf {T : Type} (predicates : list (Predicate T)) : Predicate T :=
  fun object =>
    Nat.eqb (length (List.filter (fun pred => pred object) predicates)) 1.

(** [every(... predicates.map(not))] *)
Definition noneOf {T : Type} (predicates : list (Predicate T)) : Predicate T :=
  every (List.map not predicates).

End Predicates.

(** ** Maybe *)

(** [Maybe<T> = T | void]: a value, or [undefined]. *)
Module Maybe.

(** [m !== undefined] *)
Definition hasValue (m : Value) : bool :=
  match m with
  | VUndefined => false
  | _ => true
  end.

Definition getOrElse (m els : Value) : Value :=
  if hasValue m then m else els.

Definition map (m : Value) (f : Value -> Value) : Value :=
  if hasValue m then f m else m.

Definition flatMap (m : Value) (f : Value -> Value) : Value :=
  if hasValue m then f m else m.

(** [hasValue(m) && f(m) ? m : undefined] *)
Definition filter (m : Value) (f : Value -> bool) : Value :=
  if hasValue m && f m then m else VUndefined.

End Maybe.

(** ** Streams and their consumers *)

(** The slot [forEach] pushes for the listener [l], and the one [then]
    pushes for [action]; [p] is the promise they return. *)
Definition slotOf (l : Fn) (p : nat) : CallbackItem :=
  {| listener := l; resolve := FResolve p; reject := FReject p |}.

Definition thenItem (action : Fn) (p : nat) : CallbackItem :=
  {| listener := FNoop;
     resolve := FThenResolve (FResolve p) action;
     reject := FReject p |}.

(** [this.forEach(l).then(done).catch(fail)], as the executors of [filter],
    [filterWhere], [withConditions] and [reduce] run it. *)
Definition chainBody (this : nat) (l done fail : Fn) : M unit :=
  let* p := Observable.forEach this l in
  let* p' := promiseThen p done in
  promiseCatch p' fail;;
  ret tt.

(** A stream whose executor is that chain; [mk trigger] is the listener. *)
Definition chained (mk : Fn -> Fn) (this : nat) : M nat :=
  Observable.new (fun trigger done fail =>
                    chainBody this (mk trigger) done fail).

(** A derived stream of [src] is built, consumer [c] registers on it with a
    listener that never throws, the producer of [src] makes its calls and the
    turn ends. *)
Definition consumeDerived (fuel : nat) (derive : nat -> M nat)
    (src c : nat) (calls : list ProducerCall) : M (nat * nat) :=
  let* d := derive src in
  let* p := Observable.forEach d (FUser c quiet) in
  producerCalls fuel src calls;;
  endOfTurn fuel;;
  ret (d, p).

(** [src] has a single slot, whose listener [l] feeds the stream [d], and
    [d] has a single consumer [c] that never throws. *)
Definition Wired (w : World) (src d : nat) (l : Fn) (p0 c pc : nat) : Prop :=
  exists a ad,
    observables w !! src = Some (Some a) /\
    arrays w !! a = Some [Some (slotOf l p0)] /\
    observables w !! d = Some (Some ad) /\
    arrays w !! ad = Some [Some (slotOf (FUser c quiet) pc)] /\
    src <> d.

(** The promises of the chain [forEach(...).then(done).catch(fail)] of [d],
    and the one of its consumer, before anything has happened. *)
Definition Chained (w : World) (d p0 p1 p2 pc : nat) : Prop :=
  promises w !! p0
  = Some (Pending [{| onFulfilled := Some (FDone d); onRejected := None;
                      derivedPromise := p1 |}]) /\
  promises w !! p1
  = Some (Pending [{| onFulfilled := None; onRejected := Some (FFail d);
                      derivedPromise := p2 |}]) /\
  promises w !! p2 = Some (Pending []) /\
  promises w !! pc = Some (Pending []) /\
  NoDup [p0; p1; p2; pc] /\
  microtasks w = [].

(** The world after the events [es] have been recorded. *)
Definition recordAll (es : list Event) (w : World) : World :=
  set_log (log w ++ es) w.

(** What a terminal signal does on a slot of [forEach] with promise [p]. *)
Definition settledBy (t : Terminal) (p : nat) (w : World) : World :=
  match t with
  | TDone => settle p false VUndefined (record (CalledResolve p VUndefined) w)
  | TFail err => settle p true err (record (CalledReject p err) w)
  end.

Definition terminalRejects (t : Terminal) : bool :=
  match t with TDone => false | TFail _ => true end.

Definition terminalValue (t : Terminal) : Value :=
  match t with TDone => VUndefined | TFail err => err end.

Definition terminalFn (t : Terminal) (this : nat) : Fn :=
  match t with TDone => FDone this | TFail _ => FFail this end.

Definition terminalEvent (t : Terminal) (p : nat) : Event :=
  match t with
  | TDone => CalledResolve p VUndefined
  | TFail err => CalledReject p err
  end.

(** The values [reduce] passes on: the running results of the reducer. *)
Fixpoint runningFold (reducer : Value -> Value -> Value) (acc : Value)
    (vs : list Value) : list Value :=
  match vs with
  | [] => []
  | v :: rest => reducer acc v :: runningFold reducer (reducer acc v) rest
  end.

(** The world in which one source exists and nobody has registered on it. *)
Definition sourceWorld : World :=
  match Observable.new idle initialWorld with
  | Some (_, w) => w
  | None => initialWorld
  end.

(** [x => x % 2 === 0] on numbers. *)
Definition isEven (v : Value) : bool :=
  match v with
  | VNum n => Z.even n
  | _ => false
  end.

(** ** The pull adapter, driven *)

(** [n] calls of [next()], one after the other. *)
Fixpoint pulls (this : nat) (n : nat) : M (list nat) :=
  match n with
  | O => ret []
  | S n' =>
      let* p := ObservableAsyncIterator.next this in
      let* ps := pulls this n' in
      ret (p :: ps)
  end.

(** The pair [{resolve, reject}] a waiting [next()] leaves in [demanded]. *)
Definition pullOf (p : nat) : Fn * Fn := (FResolve p, FReject p).

Definition iteratorState (dm : list (Fn * Fn)) (q : list Value)
    (dn : option nat) : IteratorState :=
  {| demanded := dm; queued := q; done := dn |}.

(** The promises after each pull of [pvs] has been resolved with its
    value, and the calls that did it. *)
Definition fulfil (pvs : list (nat * Value)) (l : list PromiseState)
  : list PromiseState :=
  fold_left (fun l pv => <[fst pv := Fulfilled (snd pv)]> l) pvs l.

Definition resolveCalls (pvs : list (nat * Value)) : list Event :=
  List.map (fun pv => CalledResolve (fst pv) (snd pv)) pvs.

(** What the adapter hands out once its source has ended with [t]. *)
Definition iterOutcome (t : Terminal) : PromiseState :=
  match t with
  | TDone => Fulfilled VIterDone
  | TFail err => Rejected err
  end.

(** The handler of the adapter that a source ended with [t] reaches. *)
Definition iterEnd (t : Terminal) (this : nat) : Fn :=
  match t with
  | TDone => FIterDone this
  | TFail _ => FIterFail this
  end.

(** The promises after every pull of [ps] has been settled as [st], and the
    calls that did it. *)
Definition settleEach (st : PromiseState) (ps : list nat)
    (l : list PromiseState) : list PromiseState :=
  fold_left (fun l p => <[p := st]> l) ps l.

Definition terminalCalls (t : Terminal) (ps : list nat) : list Event :=
  List.map (fun p => match t with
                     | TDone => CalledResolve p VIterDone
                     | TFail err => CalledReject p err
                     end) ps.

(** A source whose only slot feeds the adapter [it], with the chain
    [forEach(...).then(...).catch(...)] of its constructor and the pulls
    [ps] waiting. *)
Definition Adapted (w : World) (src it p0 p1 p2 : nat) (ps : list nat)
    (q : list Value) : Prop :=
  exists a,
    observables w !! src = Some (Some a) /\
    arrays w !! a = Some [Some (slotOf (FIterValue it) p0)] /\
    promises w !! p0
    = Some (Pending [{| onFulfilled := Some (FIterDone it);
                        onRejected := None; derivedPromise := p1 |}]) /\
    promises w !! p1
    = Some (Pending [{| onFulfilled := None;
                        onRejected := Some (FIterFail it);
                        derivedPromise := p2 |}]) /\
    promises w !! p2 = Some (Pending []) /\
    iterators w !! it = Some (iteratorState (List.map pullOf ps) q None) /\
    NoDup (p0 :: p1 :: p2 :: ps) /\
    Forall (fun p => promises w !! p = Some (Pending [])) ps /\
    microtasks w = [].

(** ** Tactics *)

(** Reading a field of a world that was built by updates. *)
Ltac world :=
  cbn [observables arrays promises microtasks now timers cells fnCells
       iterators elements log
       set_observables set_arrays set_promises set_microtasks set_now
       set_timers set_cells set_fnCells set_iterators set_elements set_log
       record discardCallbacks recordAll derivedPromise terminalRejects
       terminalValue].

(** Looking up a list after updates at other, or at the same, positions. *)
Ltac lookups :=
  repeat first
    [ rewrite list_lookup_insert_ne by congruence
    | rewrite list_lookup_insert_eq
        by (rewrite ?length_insert; eapply lookup_lt_Some; eassumption) ].

Ltac lookup_goal :=
  world; lookups; first [eassumption | reflexivity].

(** * Properties *)

(** ** Equations of [call] *)

Lemma call_trigger fuel this obj w :
  call (S fuel) (FTrigger this) obj w =
  match observables w !! this with
  | Some (Some a) => arrayForEach a (triggerEach (call fuel) this obj) w
  | Some None => returns w
  | None => None
  end.
Proof. reflexivity. Qed.

Lemma call_done fuel this arg w :
  call (S fuel) (FDone this) arg w =
  match observables w !! this with
  | Some (Some a) =>
      andThen (arrayForEach a (doneEach (call fuel)) w)
              (fun _ w' => returns (discardCallbacks this w'))
  | Some None => returns (discardCallbacks this w)
  | None => None
  end.
Proof. reflexivity. Qed.

Lemma call_fail fuel this err w :
  call (S fuel) (FFail this) err w =
  match observables w !! this with
  | Some (Some a) =>
      andThen (arrayForEach a (failEach (call fuel) err) w)
              (fun _ w' => returns (discardCallbacks this w'))
  | Some None => returns (discardCallbacks this w)
  | None => None
  end.
Proof. reflexivity. Qed.

(** ** Terminal observables *)

Lemma discardCallbacks_terminal this w :
  observables w !! this = Some None -> discardCallbacks this w = w.
Proof.
  intros H. destruct w. unfold discardCallbacks, set_observables. simpl in *.
  f_equal. by apply list_insert_id.
Qed.

Lemma producerCall_terminal fuel this c w :
  observables w !! this = Some None ->
  producerCall (S fuel) this c w = Some (tt, w).
Proof.
  intros H. destruct c as [obj|[|err]]; unfold producerCall, invoke.
  - by rewrite call_trigger, H.
  - by rewrite call_done, H, discardCallbacks_terminal.
  - by rewrite call_fail, H, discardCallbacks_terminal.
Qed.

Lemma producerCalls_terminal fuel this cs w :
  observables w !! this = Some None ->
  producerCalls (S fuel) this cs w = Some (tt, w).
Proof.
  intros H. induction cs as [|c cs IH]; [done|].
  simpl. unfold bind. by rewrite producerCall_terminal.
Qed.

(** ** Loops over a registry of consumers *)

Lemma registry_lookup cs i :
  registry cs !! i = option_map consumerItem <$> cs !! i.
Proof. unfold registry. apply list_lookup_fmap. Qed.

Lemma registry_length cs : length (registry cs) = length cs.
Proof. unfold registry. apply length_map. Qed.

Section Loop.
Variable a : nat.
Variable body : option CallbackItem -> nat -> World -> Result.
Variable step : nat -> option Consumer -> World -> World.
Variable next : option Consumer -> option Consumer.
Variable Inv : World -> Prop.

Hypothesis body_step : forall idx oc w,
  body (option_map consumerItem oc) idx w = returns (step idx oc w).
Hypothesis step_keeps : forall pre oc suf w,
  Inv w -> arrays w !! a = Some (registry (pre ++ oc :: suf)) ->
  Inv (step (length pre) oc w) /\
  arrays (step (length pre) oc w) !! a
    = Some (registry (pre ++ next oc :: suf)).

Lemma forEachFrom_registry suf : forall pre w,
  Inv w -> arrays w !! a = Some (registry (pre ++ suf)) ->
  forEachFrom a body (length pre) (length suf) w
    = returns (stepFrom step (length pre) suf w) /\
  Inv (stepFrom step (length pre) suf w) /\
  arrays (stepFrom step (length pre) suf w) !! a
    = Some (registry (pre ++ List.map next suf)).
Proof.
  induction suf as [|oc suf IH]; intros pre w HI Harr; simpl.
  - by rewrite app_nil_r in *.
  - rewrite Harr, registry_lookup, list_lookup_middle by done. simpl.
    rewrite body_step. simpl.
    destruct (step_keeps pre oc suf w HI Harr) as [HI' Harr'].
    specialize (IH (pre ++ [next oc]) (step (length pre) oc w)).
    rewrite length_app in IH. simpl in IH.
    replace (length pre + 1) with (S (length pre)) in IH by lia.
    rewrite <- !app_assoc in IH. simpl in IH. by apply IH.
Qed.

Lemma arrayForEach_registry cs w :
  Inv w -> arrays w !! a = Some (registry cs) ->
  arrayForEach a body w = returns (stepFrom step 0 cs w) /\
  Inv (stepFrom step 0 cs w) /\
  arrays (stepFrom step 0 cs w) !! a = Some (registry (List.map next cs)).
Proof.
  intros HI Harr. unfold arrayForEach. rewrite Harr, registry_length.
  by apply (forEachFrom_registry cs []).
Qed.
End Loop.

(** ** One [trigger] on a registry of consumers *)

Lemma triggerEach_consumer fuel this obj oc idx w :
  triggerEach (call (S fuel)) this obj (option_map consumerItem oc) idx w
  = returns (deliver this obj idx oc w).
Proof.
  destruct oc as [c|]; [|done]. simpl.
  by destruct (cthrows c obj).
Qed.

Lemma settle_observables p r v w :
  observables (settle p r v w) = observables w.
Proof. unfold settle. by repeat case_match. Qed.

Lemma settle_arrays p r v w : arrays (settle p r v w) = arrays w.
Proof. unfold settle. by repeat case_match. Qed.

Lemma settle_log p r v w : log (settle p r v w) = log w.
Proof. unfold settle. by repeat case_match. Qed.

Lemma settle_promises p r v w :
  promises (settle p r v w)
  = settlePromise p (if r then Rejected v else Fulfilled v) (promises w).
Proof. unfold settle, settlePromise. by repeat case_match. Qed.

Lemma clearSlot_observables this idx w :
  observables (clearSlot this idx w) = observables w.
Proof. unfold clearSlot. by repeat case_match. Qed.

Lemma clearSlot_log this idx w : log (clearSlot this idx w) = log w.
Proof. unfold clearSlot. by repeat case_match. Qed.

Lemma clearSlot_promises this idx w :
  promises (clearSlot this idx w) = promises w.
Proof. unfold clearSlot. by repeat case_match. Qed.

Lemma clearSlot_arrays this a arr idx w :
  observables w !! this = Some (Some a) -> arrays w !! a = Some arr ->
  arrays (clearSlot this idx w) !! a = Some (<[idx := None]> arr).
Proof.
  intros Ho Ha. unfold clearSlot. rewrite Ho, Ha. simpl.
  apply list_lookup_insert_eq. by eapply lookup_lt_Some.
Qed.

Lemma deliver_observables this obj idx oc w :
  observables (deliver this obj idx oc w) = observables w.
Proof.
  destruct oc as [c|]; [|done]. simpl. destruct (cthrows c obj); [|done].
  by rewrite clearSlot_observables, settle_observables.
Qed.

Lemma deliver_log this obj idx oc w :
  log (deliver this obj idx oc w) = log w ++ triggerEvents obj [oc].
Proof.
  destruct oc as [c|]; simpl; [|by rewrite app_nil_r].
  destruct (cthrows c obj); [|done].
  by rewrite clearSlot_log, settle_log.
Qed.

Lemma deliver_promises this obj idx oc w :
  promises (deliver this obj idx oc w) = rejectThrowers obj [oc] (promises w).
Proof.
  destruct oc as [c|]; [|done]. simpl. destruct (cthrows c obj); [|done].
  by rewrite clearSlot_promises, settle_promises.
Qed.

Lemma registry_insert_middle pre oc oc' suf :
  <[length pre := option_map consumerItem oc']> (registry (pre ++ oc :: suf))
  = registry (pre ++ oc' :: suf).
Proof.
  unfold registry. rewrite !map_app. simpl.
  rewrite insert_app_r_alt by (rewrite length_map; lia).
  rewrite length_map. by replace (length pre - length pre) with 0 by lia.
Qed.

Lemma deliver_arrays this a obj pre oc suf w :
  observables w !! this = Some (Some a) ->
  arrays w !! a = Some (registry (pre ++ oc :: suf)) ->
  arrays (deliver this obj (length pre) oc w) !! a
  = Some (registry (pre ++ afterDelivery obj oc :: suf)).
Proof.
  intros Ho Ha. destruct oc as [c|]; [|done]. simpl.
  destruct (cthrows c obj) as [e|]; [|done].
  erewrite clearSlot_arrays.
  - f_equal. apply (registry_insert_middle pre (Some c) None suf).
  - by rewrite settle_observables.
  - by rewrite settle_arrays.
Qed.

Lemma stepFrom_app step idx cs1 cs2 w :
  stepFrom step idx (cs1 ++ cs2) w
  = stepFrom step (idx + length cs1) cs2 (stepFrom step idx cs1 w).
Proof.
  revert idx w. induction cs1 as [|oc cs1 IH]; intros idx w; simpl.
  - by rewrite Nat.add_0_r.
  - rewrite IH.
    by replace (S idx + length cs1) with (idx + S (length cs1)) by lia.
Qed.

Lemma triggerEvents_cons obj oc cs :
  triggerEvents obj (oc :: cs) = triggerEvents obj [oc] ++ triggerEvents obj cs.
Proof. unfold triggerEvents. simpl. by destruct oc. Qed.

Lemma rejectThrowers_cons obj oc cs ps :
  rejectThrowers obj (oc :: cs) ps
  = rejectThrowers obj cs (rejectThrowers obj [oc] ps).
Proof. done. Qed.

Lemma deliverAll_log this obj cs : forall idx w,
  log (stepFrom (deliver this obj) idx cs w) = log w ++ triggerEvents obj cs.
Proof.
  induction cs as [|oc cs IH]; intros idx w; cbn [stepFrom].
  - by rewrite app_nil_r.
  - by rewrite IH, deliver_log, (triggerEvents_cons obj oc cs), app_assoc.
Qed.

Lemma deliverAll_promises this obj cs : forall idx w,
  promises (stepFrom (deliver this obj) idx cs w)
  = rejectThrowers obj cs (promises w).
Proof.
  induction cs as [|oc cs IH]; intros idx w; cbn [stepFrom]; [done|].
  by rewrite IH, deliver_promises.
Qed.

Lemma trigger_registry fuel this a obj cs w :
  observables w !! this = Some (Some a) ->
  arrays w !! a = Some (registry cs) ->
  exists w',
    call (S (S fuel)) (FTrigger this) obj w = returns w' /\
    observables w' = observables w /\
    arrays w' !! a = Some (registry (List.map (afterDelivery obj) cs)) /\
    log w' = log w ++ triggerEvents obj cs /\
    promises w' = rejectThrowers obj cs (promises w).
Proof.
  intros Ho Ha. exists (stepFrom (deliver this obj) 0 cs w).
  rewrite call_trigger, Ho.
  destruct (arrayForEach_registry a
              (triggerEach (call (S fuel)) this obj) (deliver this obj)
              (afterDelivery obj) (fun w' => observables w' = observables w))
    with (cs := cs) (w := w) as (Hrun & Hobs & Harr); try done.
  - intros. apply triggerEach_consumer.
  - intros pre oc suf w0 HI Harr. split.
    + by rewrite deliver_observables.
    + apply deliver_arrays; [by rewrite HI | done].
  - by rewrite deliverAll_log, deliverAll_promises.
Qed.

(** ** A terminal signal on a registry of consumers *)

Lemma doneEach_consumer fuel oc idx w :
  doneEach (call (S fuel)) (option_map consumerItem oc) idx w
  = returns (conclude TDone oc w).
Proof. by destruct oc. Qed.

Lemma failEach_consumer fuel err oc idx w :
  failEach (call (S fuel)) err (option_map consumerItem oc) idx w
  = returns (conclude (TFail err) oc w).
Proof. by destruct oc. Qed.

Lemma conclude_observables t oc w :
  observables (conclude t oc w) = observables w.
Proof. destruct oc, t; simpl; by rewrite ?settle_observables. Qed.

Lemma conclude_arrays t oc w : arrays (conclude t oc w) = arrays w.
Proof. destruct oc, t; simpl; by rewrite ?settle_arrays. Qed.

Lemma conclude_log t oc w :
  log (conclude t oc w) = log w ++ settleCalls t [oc].
Proof.
  destruct oc, t; simpl; rewrite ?settle_log; simpl; by rewrite ?app_nil_r.
Qed.

Lemma conclude_promises t oc w :
  promises (conclude t oc w) = settleAll t [oc] (promises w).
Proof. destruct oc, t; simpl; by rewrite ?settle_promises. Qed.

Lemma settleCalls_cons t oc cs :
  settleCalls t (oc :: cs) = settleCalls t [oc] ++ settleCalls t cs.
Proof. unfold settleCalls. simpl. by destruct oc. Qed.

Lemma concludeAll_log t cs : forall idx w,
  log (stepFrom (fun _ => conclude t) idx cs w) = log w ++ settleCalls t cs.
Proof.
  induction cs as [|oc cs IH]; intros idx w; cbn [stepFrom].
  - by rewrite app_nil_r.
  - by rewrite IH, conclude_log, (settleCalls_cons t oc cs), app_assoc.
Qed.

Lemma concludeAll_promises t cs : forall idx w,
  promises (stepFrom (fun _ => conclude t) idx cs w)
  = settleAll t cs (promises w).
Proof.
  induction cs as [|oc cs IH]; intros idx w; cbn [stepFrom]; [done|].
  by rewrite IH, conclude_promises.
Qed.

Lemma concludeAll_observables t cs : forall idx w,
  observables (stepFrom (fun _ => conclude t) idx cs w) = observables w.
Proof.
  induction cs as [|oc cs IH]; intros idx w; cbn [stepFrom]; [done|].
  by rewrite IH, conclude_observables.
Qed.

Lemma concludeAll_run a t cs w body :
  (forall idx oc w0, body (option_map consumerItem oc) idx w0
                     = returns (conclude t oc w0)) ->
  arrays w !! a = Some (registry cs) ->
  arrayForEach a body w = returns (stepFrom (fun _ => conclude t) 0 cs w).
Proof.
  intros Hbody Ha.
  destruct (arrayForEach_registry a body (fun _ => conclude t) id
              (fun _ => True)) with (cs := cs) (w := w) as (Hrun & _); try done.
  intros pre oc suf w0 _ Harr. split; [done|]. by rewrite conclude_arrays.
Qed.

Lemma terminal_registry fuel this a t cs w :
  observables w !! this = Some (Some a) ->
  arrays w !! a = Some (registry cs) ->
  exists w',
    producerCall (S (S fuel)) this (PTerminal t) w = Some (tt, w') /\
    observables w' !! this = Some None /\
    log w' = log w ++ settleCalls t cs /\
    promises w' = settleAll t cs (promises w).
Proof.
  intros Ho Ha.
  exists (discardCallbacks this (stepFrom (fun _ => conclude t) 0 cs w)).
  split; [|split].
  - destruct t as [|err]; unfold producerCall, invoke.
    + rewrite call_done, Ho.
      rewrite (concludeAll_run a TDone cs w); [done| |done].
      intros. apply doneEach_consumer.
    + rewrite call_fail, Ho.
      rewrite (concludeAll_run a (TFail err) cs w); [done| |done].
      intros. apply failEach_consumer.
  - simpl. apply list_lookup_insert_eq. eapply lookup_lt_Some.
    by rewrite concludeAll_observables.
  - simpl. by rewrite concludeAll_log, concludeAll_promises.
Qed.

(** ** A run of [trigger] calls *)

Lemma survivors_nil cs : survivors [] cs = cs.
Proof.
  unfold survivors. simpl. induction cs as [|[c|] cs IH]; simpl; congruence.
Qed.

Lemma survivors_cons v vs cs :
  survivors (v :: vs) cs = survivors vs (List.map (afterDelivery v) cs).
Proof.
  unfold survivors. rewrite map_map. apply map_ext. intros [c|]; [|done].
  simpl. destruct (cthrows c v); [done|].
  simpl. by destruct (firstThrow (cthrows c) vs) as [[k e]|].
Qed.

Lemma triggers_registry fuel this a vs : forall cs w,
  observables w !! this = Some (Some a) ->
  arrays w !! a = Some (registry cs) ->
  exists w',
    producerCalls (S (S fuel)) this (List.map PTrigger vs) w = Some (tt, w') /\
    observables w' = observables w /\
    arrays w' !! a = Some (registry (survivors vs cs)) /\
    log w' = log w ++ triggersEvents vs cs /\
    promises w' = rejectAllThrowers vs cs (promises w).
Proof.
  induction vs as [|v vs IH]; intros cs w Ho Ha.
  - exists w. rewrite survivors_nil. simpl. by rewrite app_nil_r.
  - destruct (trigger_registry fuel this a v cs w Ho Ha)
      as (w1 & Hrun & Ho1 & Ha1 & Hl1 & Hp1).
    destruct (IH (List.map (afterDelivery v) cs) w1) as
      (w2 & Hrun2 & Ho2 & Ha2 & Hl2 & Hp2); [by rewrite Ho1 | done |].
    exists w2. cbn [List.map producerCalls producerCall].
    unfold bind, invoke. rewrite Hrun. simpl. rewrite Hrun2.
    rewrite survivors_cons, Ho2, Ho1, Hl2, Hl1, Hp2, Hp1.
    cbn [triggersEvents rejectAllThrowers]. by rewrite app_assoc.
Qed.

Lemma producerCalls_app fuel this l1 l2 w :
  producerCalls fuel this (l1 ++ l2) w
  = match producerCalls fuel this l1 w with
    | Some (_, w1) => producerCalls fuel this l2 w1
    | None => None
    end.
Proof.
  revert w. induction l1 as [|c l1 IH]; intros w; [done|].
  simpl. unfold bind.
  destruct (producerCall fuel this c w) as [[[] w1]|]; eauto.
Qed.

(** ** What a single consumer sees of a run *)

Lemma seen_app c l1 l2 : seen c (l1 ++ l2) = seen c l1 ++ seen c l2.
Proof. unfold seen. apply omap_app. Qed.

Lemma split_at (cs : list (option Consumer)) i c :
  cs !! i = Some (Some c) ->
  cs = take i cs ++ Some c :: drop (S i) cs.
Proof. intros H. symmetry. by apply take_drop_middle. Qed.

Lemma afterDelivery_sublist (f : Consumer -> nat) v cs :
  omap (option_map f) (List.map (afterDelivery v) cs)
    `sublist_of` omap (option_map f) cs.
Proof.
  induction cs as [|[c|] cs IH]; simpl; [done| |done].
  destruct (cthrows c v); simpl;
    [by apply sublist_cons | by apply sublist_skip].
Qed.

Lemma survivors_sublist (f : Consumer -> nat) vs cs :
  omap (option_map f) (survivors vs cs) `sublist_of` omap (option_map f) cs.
Proof.
  induction cs as [|[c|] cs IH]; simpl; [done| |done].
  destruct (firstThrow (cthrows c) vs); simpl;
    [by apply sublist_cons | by apply sublist_skip].
Qed.

Lemma afterDelivery_lookup v cs i c :
  cs !! i = Some (Some c) ->
  List.map (afterDelivery v) cs !! i
  = Some (match cthrows c v with None => Some c | Some _ => None end).
Proof.
  intros H.
  change (List.map (afterDelivery v) cs) with (afterDelivery v <$> cs).
  by rewrite list_lookup_fmap, H.
Qed.

Lemma survivors_lookup vs cs i c :
  cs !! i = Some (Some c) ->
  survivors vs cs !! i
  = Some (match firstThrow (cthrows c) vs with
          | None => Some c
          | Some _ => None
          end).
Proof.
  intros H. unfold survivors.
  match goal with |- List.map ?f cs !! i = _ =>
    change (List.map f cs) with (f <$> cs) end.
  by rewrite list_lookup_fmap, H.
Qed.

Lemma triggerEvents_app obj cs1 cs2 :
  triggerEvents obj (cs1 ++ cs2)
  = triggerEvents obj cs1 ++ triggerEvents obj cs2.
Proof. unfold triggerEvents. apply omap_app. Qed.

Lemma seen_triggerEvents_absent c v cs :
  c ∉ consumerIds cs -> seen c (triggerEvents v cs) = [].
Proof.
  induction cs as [|[c'|] cs IH]; intros Hc; [done| |by apply IH].
  rewrite triggerEvents_cons, seen_app.
  unfold consumerIds in Hc. simpl in Hc.
  apply not_elem_of_cons in Hc as [Hne Hc].
  rewrite IH by done. rewrite app_nil_r. simpl.
  destruct (cthrows c' v); simpl; [done|].
  by rewrite (proj2 (Nat.eqb_neq c (cid c'))).
Qed.

Lemma seen_triggersEvents_absent c vs : forall cs,
  c ∉ consumerIds cs -> seen c (triggersEvents vs cs) = [].
Proof.
  induction vs as [|v vs IH]; intros cs Hc; [done|].
  cbn [triggersEvents]. rewrite seen_app, seen_triggerEvents_absent by done.
  apply IH. intros Hin. apply Hc.
  eapply elem_of_sublist; [exact Hin|]. apply afterDelivery_sublist.
Qed.

Lemma seen_settleCalls c t cs : seen c (settleCalls t cs) = [].
Proof.
  induction cs as [|[c'|] cs IH]; [done| |done].
  rewrite settleCalls_cons, seen_app, IH. by destruct t.
Qed.

Lemma ids_split (f : Consumer -> nat) cs i c :
  cs !! i = Some (Some c) ->
  omap (option_map f) cs
  = omap (option_map f) (take i cs)
    ++ (f c :: omap (option_map f) (drop (S i) cs)).
Proof.
  intros H. rewrite (split_at cs i c H) at 1. by rewrite omap_app.
Qed.

Lemma sole_id (f : Consumer -> nat) cs i c :
  NoDup (omap (option_map f) cs) -> cs !! i = Some (Some c) ->
  (f c ∉ omap (option_map f) (take i cs)) /\
  (f c ∉ omap (option_map f) (drop (S i) cs)).
Proof.
  intros Hnd H. rewrite (ids_split f cs i c H) in Hnd.
  apply NoDup_app in Hnd as (_ & Hl & Hr). apply NoDup_cons in Hr as [Hr _].
  split; [|done]. intros Hin. apply (Hl _ Hin). by left.
Qed.

Lemma seen_triggerEvents_sole v cs i c :
  NoDup (consumerIds cs) -> cs !! i = Some (Some c) ->
  seen (cid c) (triggerEvents v cs)
  = match cthrows c v with None => [v] | Some _ => [] end.
Proof.
  intros Hnd H. destruct (sole_id cid cs i c Hnd H) as [Hl Hr].
  pose proof (split_at cs i c H) as Hs.
  remember (take i cs) as pre. remember (drop (S i) cs) as suf.
  rewrite Hs. rewrite triggerEvents_app, triggerEvents_cons, !seen_app.
  rewrite (seen_triggerEvents_absent _ v pre),
    (seen_triggerEvents_absent _ v suf) by done.
  rewrite app_nil_r. simpl.
  destruct (cthrows c v); simpl; [done|]. by rewrite Nat.eqb_refl.
Qed.

Lemma absent_after_throw (f : Consumer -> nat) v cs i c e :
  NoDup (omap (option_map f) cs) -> cs !! i = Some (Some c) ->
  cthrows c v = Some e ->
  f c ∉ omap (option_map f) (List.map (afterDelivery v) cs).
Proof.
  intros Hnd H He. destruct (sole_id f cs i c Hnd H) as [Hl Hr].
  pose proof (split_at cs i c H) as Hs.
  remember (take i cs) as pre. remember (drop (S i) cs) as suf.
  rewrite Hs, map_app, omap_app. simpl. rewrite He. simpl.
  intros Hin. apply elem_of_app in Hin as [Hin|Hin].
  - apply Hl. eapply elem_of_sublist; [exact Hin|]. apply afterDelivery_sublist.
  - apply Hr. eapply elem_of_sublist; [exact Hin|]. apply afterDelivery_sublist.
Qed.

Lemma seen_triggersEvents vs : forall cs i c,
  NoDup (consumerIds cs) -> cs !! i = Some (Some c) ->
  seen (cid c) (triggersEvents vs cs) = observedOf (cthrows c) vs.
Proof.
  unfold observedOf.
  induction vs as [|v vs IH]; intros cs i c Hnd H; [done|].
  cbn [triggersEvents firstThrow].
  rewrite seen_app, (seen_triggerEvents_sole v cs i c) by done.
  destruct (cthrows c v) as [e|] eqn:He.
  - simpl. apply seen_triggersEvents_absent.
    by eapply (absent_after_throw cid).
  - rewrite (IH (List.map (afterDelivery v) cs) i c).
    + by destruct (firstThrow (cthrows c) vs) as [[k e]|].
    + eapply sublist_NoDup; [done | apply afterDelivery_sublist].
    + by rewrite (afterDelivery_lookup v cs i c), He.
Qed.

(** ** What happens to the promise of a single consumer *)

Lemma settlePromise_ne p q s (ps : list PromiseState) :
  p <> q -> settlePromise q s ps !! p = ps !! p.
Proof.
  intros Hne. unfold settlePromise. repeat case_match; try done.
  by apply list_lookup_insert_ne.
Qed.

Lemma settlePromise_pending p s (ps : list PromiseState) rs :
  ps !! p = Some (Pending rs) -> settlePromise p s ps !! p = Some s.
Proof.
  intros H. unfold settlePromise. rewrite H.
  apply list_lookup_insert_eq. by eapply lookup_lt_Some.
Qed.

Lemma settlePromise_settled p q s st (ps : list PromiseState) :
  ps !! p = Some st -> settled st -> settlePromise q s ps !! p = Some st.
Proof.
  intros H Hst. destruct (decide (p = q)) as [->|Hne].
  - unfold settlePromise. rewrite H. by destruct st.
  - by rewrite settlePromise_ne.
Qed.

Lemma rejectThrowers_app v cs1 cs2 ps :
  rejectThrowers v (cs1 ++ cs2) ps
  = rejectThrowers v cs2 (rejectThrowers v cs1 ps).
Proof. unfold rejectThrowers. apply fold_left_app. Qed.

Lemma rejectThrowers_absent v cs : forall ps p,
  p ∉ promiseIds cs -> rejectThrowers v cs ps !! p = ps !! p.
Proof.
  induction cs as [|[c|] cs IH]; intros ps p Hp; [done| |by apply IH].
  unfold promiseIds in Hp. simpl in Hp.
  apply not_elem_of_cons in Hp as [Hne Hp].
  rewrite rejectThrowers_cons, IH by done. simpl.
  destruct (cthrows c v); [|done]. by apply settlePromise_ne.
Qed.

Lemma rejectThrowers_settled v cs : forall ps p st,
  ps !! p = Some st -> settled st -> rejectThrowers v cs ps !! p = Some st.
Proof.
  induction cs as [|[c|] cs IH]; intros ps p st H Hst; [done| |by eapply IH].
  rewrite rejectThrowers_cons. eapply IH; [|done]. simpl.
  destruct (cthrows c v); [|done]. by apply settlePromise_settled.
Qed.

Lemma rejectThrowers_sole v cs i c ps rs :
  NoDup (promiseIds cs) -> cs !! i = Some (Some c) ->
  ps !! cpromise c = Some (Pending rs) ->
  rejectThrowers v cs ps !! cpromise c
  = Some (match cthrows c v with
          | Some e => Rejected e
          | None => Pending rs
          end).
Proof.
  intros Hnd H Hp. destruct (sole_id cpromise cs i c Hnd H) as [Hl Hr].
  pose proof (split_at cs i c H) as Hs.
  remember (take i cs) as pre. remember (drop (S i) cs) as suf.
  rewrite Hs, rejectThrowers_app, rejectThrowers_cons.
  rewrite (rejectThrowers_absent v suf) by done. simpl.
  destruct (cthrows c v) as [e|].
  - eapply settlePromise_pending. by rewrite rejectThrowers_absent.
  - by rewrite rejectThrowers_absent.
Qed.

Lemma rejectAllThrowers_settled vs : forall cs ps p st,
  ps !! p = Some st -> settled st ->
  rejectAllThrowers vs cs ps !! p = Some st.
Proof.
  induction vs as [|v vs IH]; intros cs ps p st H Hst; [done|].
  cbn [rejectAllThrowers]. eapply IH; [|done]. by apply rejectThrowers_settled.
Qed.

Lemma rejectAllThrowers_sole vs : forall cs i c ps rs,
  NoDup (promiseIds cs) -> cs !! i = Some (Some c) ->
  ps !! cpromise c = Some (Pending rs) ->
  rejectAllThrowers vs cs ps !! cpromise c
  = Some (promiseOf (cthrows c) vs (Pending rs)).
Proof.
  unfold promiseOf.
  induction vs as [|v vs IH]; intros cs i c ps rs Hnd H Hp; [done|].
  cbn [rejectAllThrowers firstThrow].
  pose proof (rejectThrowers_sole v cs i c ps rs Hnd H Hp) as H1.
  destruct (cthrows c v) as [e|] eqn:He.
  - by eapply rejectAllThrowers_settled.
  - rewrite (IH (List.map (afterDelivery v) cs) i c _ rs).
    + by destruct (firstThrow (cthrows c) vs) as [[k e]|].
    + eapply sublist_NoDup; [done | apply afterDelivery_sublist].
    + by rewrite (afterDelivery_lookup v cs i c), He.
    + done.
Qed.

Lemma settleAll_cons t oc cs ps :
  settleAll t (oc :: cs) ps = settleAll t cs (settleAll t [oc] ps).
Proof. done. Qed.

Lemma settleAll_app t cs1 cs2 ps :
  settleAll t (cs1 ++ cs2) ps = settleAll t cs2 (settleAll t cs1 ps).
Proof. unfold settleAll. apply fold_left_app. Qed.

Lemma settleAll_absent t cs : forall ps p,
  p ∉ promiseIds cs -> settleAll t cs ps !! p = ps !! p.
Proof.
  induction cs as [|[c|] cs IH]; intros ps p Hp; [done| |by apply IH].
  unfold promiseIds in Hp. simpl in Hp.
  apply not_elem_of_cons in Hp as [Hne Hp].
  rewrite settleAll_cons, IH by done. simpl. by apply settlePromise_ne.
Qed.

Lemma settleAll_settled t cs : forall ps p st,
  ps !! p = Some st -> settled st -> settleAll t cs ps !! p = Some st.
Proof.
  induction cs as [|[c|] cs IH]; intros ps p st H Hst; [done| |by eapply IH].
  rewrite settleAll_cons. eapply IH; [|done]. simpl.
  by apply settlePromise_settled.
Qed.

Lemma outcome_settled t : settled (outcome t).
Proof. by destruct t. Qed.

Lemma settleAll_sole t cs i c ps rs :
  NoDup (promiseIds cs) -> cs !! i = Some (Some c) ->
  ps !! cpromise c = Some (Pending rs) ->
  settleAll t cs ps !! cpromise c = Some (outcome t).
Proof.
  intros Hnd H Hp. destruct (sole_id cpromise cs i c Hnd H) as [Hl Hr].
  pose proof (split_at cs i c H) as Hs.
  remember (take i cs) as pre. remember (drop (S i) cs) as suf.
  rewrite Hs, settleAll_app, settleAll_cons.
  rewrite (settleAll_absent t suf) by done. simpl.
  eapply settlePromise_pending. by rewrite settleAll_absent.
Qed.

Lemma settleAll_member t cs : forall ps p rs,
  p ∈ promiseIds cs -> ps !! p = Some (Pending rs) ->
  settleAll t cs ps !! p = Some (outcome t).
Proof.
  induction cs as [|[c|] cs IH]; intros ps p rs Hin Hp.
  - by apply elem_of_nil in Hin.
  - rewrite settleAll_cons. unfold promiseIds in Hin. simpl in Hin.
    destruct (decide (p = cpromise c)) as [->|Hne].
    + eapply settleAll_settled; [|apply outcome_settled].
      simpl. by eapply settlePromise_pending.
    + apply elem_of_cons in Hin as [?|Hin]; [done|].
      eapply IH; [done|]. simpl. by rewrite settlePromise_ne.
  - by eapply IH.
Qed.

Lemma promiseIds_lookup cs i c :
  cs !! i = Some (Some c) -> cpromise c ∈ promiseIds cs.
Proof.
  intros H. unfold promiseIds. apply list_elem_of_omap.
  exists (Some c). split; [|done]. by eapply list_elem_of_lookup_2.
Qed.

(** ** Observables nobody has registered on *)

Lemma trigger_no_consumer fuel this a obj w :
  observables w !! this = Some (Some a) -> arrays w !! a = Some [] ->
  call (S fuel) (FTrigger this) obj w = returns w.
Proof.
  intros Ho Ha. rewrite call_trigger, Ho. unfold arrayForEach. by rewrite Ha.
Qed.

Lemma invoke_trigger_no_consumer fuel this a obj w :
  observables w !! this = Some (Some a) -> arrays w !! a = Some [] ->
  invoke (S fuel) (FTrigger this) obj w = Some (tt, w).
Proof.
  intros Ho Ha. unfold invoke. by rewrite (trigger_no_consumer fuel this a).
Qed.

Lemma invoke_done_no_consumer fuel this a w :
  observables w !! this = Some (Some a) -> arrays w !! a = Some [] ->
  invoke (S fuel) (FDone this) VUndefined w
  = Some (tt, discardCallbacks this w).
Proof.
  intros Ho Ha. unfold invoke. rewrite call_done, Ho.
  unfold arrayForEach. by rewrite Ha.
Qed.

Lemma forEachValue_no_consumer fuel this a array w :
  observables w !! this = Some (Some a) -> arrays w !! a = Some [] ->
  Observable.forEachValue (S fuel) (FTrigger this) array w = Some (tt, w).
Proof.
  intros Ho Ha. induction array as [|v array IH]; [done|].
  cbn [Observable.forEachValue]. unfold bind.
  by rewrite (invoke_trigger_no_consumer fuel this a).
Qed.

Lemma fresh_then_done (w : World) :
  let this := length (observables w) in
  let w0 := set_observables (observables w ++ [Some (length (arrays w))])
              (set_arrays (arrays w ++ [[]]) w) in
  observables w0 !! this = Some (Some (length (arrays w))) /\
  arrays w0 !! length (arrays w) = Some [] /\
  discardCallbacks this w0 = withTerminalObservable w.
Proof.
  simpl. repeat split.
  - by apply list_lookup_middle.
  - by apply list_lookup_middle.
  - unfold discardCallbacks, withTerminalObservable, set_observables. simpl.
    f_equal. rewrite insert_app_r_alt by lia.
    by replace (length (observables w) - length (observables w)) with 0 by lia.
Qed.

(** ** [subscribe] and what is built on it *)

Lemma subscribe_is_empty fuel this executor :
  Observable.subscribe fuel this executor = Observable.empty fuel.
Proof. reflexivity. Qed.

Lemma firstN_is_empty fuel this n :
  Observable.firstN fuel this n = Observable.empty fuel.
Proof. unfold Observable.firstN. by destruct (n <=? 0)%Z. Qed.

Lemma withTimeout_is_empty fuel this ms :
  Observable.withTimeout fuel this ms = Observable.empty fuel.
Proof. reflexivity. Qed.

(** Past the guard, the listener of [firstN(2)] lets the third value through
    before it unsubscribes: [preTrigger] forwards a value and only then runs
    the listener, whose test [n-- === 0] holds on the third call. *)
Lemma firstN_listener_is_late :
  forall fuel,
    option_map fst (firstN_body_scenario (6 + fuel) initialWorld)
    = Some (true, Some (Fulfilled VUndefined), [VNum 1; VNum 2; VNum 3]).
Proof. intros fuel. reflexivity. Qed.

(** Past the guard, the timer of [withTimeout(50)] fails the derived stream
    with [ERROR_TIMEOUT]. *)
Lemma withTimeout_body_times_out :
  forall fuel,
    option_map fst (withTimeout_body_scenario (6 + fuel) initialWorld)
    = Some (true, Some (Rejected ERROR_TIMEOUT), []).
Proof. intros fuel. reflexivity. Qed.

Lemma empty_is_terminal fuel w :
  Observable.empty (S fuel) w
  = Some (length (observables w), withTerminalObservable w).
Proof.
  destruct (fresh_then_done w) as (Ho & Ha & Hd).
  cbv beta zeta delta [Observable.empty Observable.new].
  by rewrite (invoke_done_no_consumer fuel _ _ _ Ho Ha), Hd.
Qed.

(** ** The constructor of [reduce] *)

Lemma addReaction_log p onF onR w c w' :
  addReaction p onF onR w = Some (c, w') -> log w' = log w.
Proof.
  unfold addReaction. simpl. intros H.
  repeat case_match; simplify_eq; done.
Qed.

Lemma forEach_log this each w p w' :
  Observable.forEach this each w = Some (p, w') -> log w' = log w.
Proof.
  unfold Observable.forEach, bind, Observable.isDone, newPromise,
    Observable.push, ret, allocPromise.
  destruct (observables w !! this) as [[a|]|] eqn:Ho; simpl; rewrite ?Ho.
  - destruct (arrays w !! a); simpl; [|done]. by intros [= <- <-].
  - by intros [= <- <-].
  - done.
Qed.

(** Whatever the source and the world, nobody observes anything while
    [reduce] builds the derived stream: its [trigger(initialValue)] runs on
    the empty registry of the stream under construction. *)
Lemma reduce_seed_reaches_nobody fuel this seed reducer w d w' :
  Observable.reduce (S fuel) this seed reducer w = Some (d, w') ->
  log w' = log w.
Proof.
  cbv beta zeta delta [Observable.reduce Observable.new bind].
  erewrite (invoke_trigger_no_consumer fuel _ (length (arrays w))).
  - intros H.
    destruct (Observable.forEach _ _ _) as [[p w1]|] eqn:H1; [|done].
    apply forEach_log in H1.
    unfold promiseThen, promiseCatch in H.
    destruct (addReaction p _ _ w1) as [[p' w2]|] eqn:H2; [|done].
    apply addReaction_log in H2.
    destruct (addReaction p' _ _ w2) as [[p'' w3]|] eqn:H3; [|done].
    apply addReaction_log in H3. unfold ret in H. simplify_eq.
    by rewrite H3, H2, H1.
  - simpl. by apply list_lookup_middle.
  - simpl. by apply list_lookup_middle.
Qed.

(** ** The pull adapter *)

(** [next()] on a queue whose head is falsy, before the source has
    terminated: the head is taken off the queue and the call registers a
    pending pull instead of returning it. *)
Lemma next_falsy_head this d q rest w :
  iterators w !! this = Some {| demanded := d; queued := q :: rest;
                                done := None |} ->
  truthy q = false ->
  exists w',
    ObservableAsyncIterator.next this w = Some (length (promises w), w') /\
    promises w' = promises w ++ [Pending []] /\
    iterators w' !! this
    = Some {| demanded := d ++ [(FResolve (length (promises w)),
                                 FReject (length (promises w)))];
              queued := rest; done := None |}.
Proof.
  intros Hit Hq. unfold ObservableAsyncIterator.next. rewrite Hit. simpl.
  rewrite Hq. eexists. split; [reflexivity|]. split; [done|]. simpl.
  rewrite list_insert_insert_eq. apply list_lookup_insert_eq.
  by eapply lookup_lt_Some.
Qed.

(** [next()] on a queue whose head is truthy returns it at once. *)
Lemma next_truthy_head this d q rest dn w :
  iterators w !! this = Some {| demanded := d; queued := q :: rest;
                                done := dn |} ->
  truthy q = true ->
  exists w',
    ObservableAsyncIterator.next this w = Some (length (promises w), w') /\
    promises w' = promises w ++ [Fulfilled q] /\
    iterators w' !! this
    = Some {| demanded := d; queued := rest; done := dn |}.
Proof.
  intros Hit Hq. unfold ObservableAsyncIterator.next. rewrite Hit. simpl.
  rewrite Hq. eexists. split; [reflexivity|]. split; [done|]. simpl.
  apply list_lookup_insert_eq. by eapply lookup_lt_Some.
Qed.

(** A triggered value goes to the oldest pending pull, whatever the value
    is. *)
Lemma value_feeds_oldest_pull fuel this p rj rest q dn v w :
  iterators w !! this = Some {| demanded := (FResolve p, rj) :: rest;
                                queued := q; done := dn |} ->
  call (S (S fuel)) (FIterValue this) v w
  = returns
      (settle p false v
         (record (CalledResolve p v)
            (set_iterators
               (<[this := {| demanded := rest; queued := q; done := dn |}]>
                  (iterators w)) w))).
Proof. intros Hit. simpl. by rewrite Hit. Qed.

(** With nothing queued and nobody waiting, it is queued. *)
Lemma value_is_queued fuel this q dn v w :
  iterators w !! this = Some {| demanded := []; queued := q; done := dn |} ->
  call (S fuel) (FIterValue this) v w
  = returns
      (set_iterators
         (<[this := {| demanded := []; queued := q ++ [v]; done := dn |}]>
            (iterators w)) w).
Proof. intros Hit. simpl. by rewrite Hit. Qed.

(** Once the adapter has recorded the end of its source, [next()] on an
    empty queue returns the recorded promise and changes nothing. *)
Lemma next_after_terminal this d p w :
  iterators w !! this = Some {| demanded := d; queued := []; done := Some p |} ->
  ObservableAsyncIterator.next this w = Some (p, w).
Proof.
  intros Hit. unfold ObservableAsyncIterator.next. rewrite Hit. simpl.
  rewrite list_insert_id by done. by destruct w.
Qed.

(** ** The sibling of [map] *)

(** [filter] does forward the terminal signal of its source, [done] as well
    as [fail]. *)
Lemma filter_forwards_terminal :
  forall fuel,
    option_map fst (filter_scenario (4 + fuel) TDone initialWorld)
    = Some (true, Some (Fulfilled VUndefined), [VNum 2; VNum 4]) /\
    option_map fst
      (filter_scenario (4 + fuel) (TFail (VStr "global")) initialWorld)
    = Some (true, Some (Rejected (VStr "global")), [VNum 2; VNum 4]).
Proof. intros fuel. split; reflexivity. Qed.

(** ** The test suite of the repository *)

(** The embedding passes the tests of [test/observable.ts]. *)
Lemma test_suite_replayed fuel :
  option_map fst (test_triggers_when_called (3 + fuel) initialWorld)
  = Some ([0; 1; 2; 2; 2], true) /\
  option_map fst (test_settles_its_promise (3 + fuel) TDone initialWorld)
  = Some ([0; 1; 2], Some (Fulfilled VUndefined)) /\
  option_map fst
    (test_settles_its_promise (3 + fuel) (TFail (VStr "global")) initialWorld)
  = Some ([0; 1; 2], Some (Rejected (VStr "global"))) /\
  option_map fst (test_locally_fails (3 + fuel) initialWorld)
  = Some ([0; 1; 2; 2], Some (Rejected (VStr "local"))) /\
  option_map fst
    (test_then (3 + fuel)
       [PTrigger (VNum 1); PTrigger (VNum 2); PTrigger (VNum 3);
        PTerminal TDone] initialWorld)
  = Some (Some (Fulfilled VUndefined), 1) /\
  option_map fst
    (test_then (3 + fuel)
       [PTrigger (VNum 1); PTrigger (VNum 2); PTrigger (VNum 3);
        PTerminal (TFail (VStr "failed")); PTerminal TDone] initialWorld)
  = Some (Some (Rejected (VStr "failed")), 0).
Proof. do 5 (split; [reflexivity|]). reflexivity. Qed.

(** The example of the specification for a throwing listener, by running
    it: the first consumer throws "local" on 2, the second one observes 1,
    2, 3 and is resolved. *)
Lemma isolation_example fuel :
  match producerCalls (2 + fuel) 0
          [PTrigger (VNum 1); PTrigger (VNum 2); PTrigger (VNum 3);
           PTerminal TDone] twoConsumersWorld with
  | Some (_, w) =>
      seen 0 (log w) = [VNum 1] /\
      promises w !! 0 = Some (Rejected (VStr "local")) /\
      seen 1 (log w) = [VNum 1; VNum 2; VNum 3] /\
      promises w !! 1 = Some (Fulfilled VUndefined) /\
      observables w !! 0 = Some None
  | None => False
  end.
Proof. vm_compute. repeat split; reflexivity. Qed.

(** * The claims *)

(** C1.  [firstN(n)] is claimed to emit the first [n] values of its source
    and then to complete.  The code returns [Observable.empty()] for every
    [n]: beyond [n <= 0], [subscribe] tests the method [this.isDone] instead
    of calling it.  For a source that emits 1, 2, 3 and is done, the stream
    [firstN(2)] is done when it is returned and its consumer observes no
    value at all. *)
Theorem firstN_forwards_nothing :
  (forall fuel this n,
      Observable.firstN fuel this n = Observable.empty fuel) /\
  (forall fuel,
      option_map fst (firstN_scenario (4 + fuel) initialWorld)
      = Some (true, true, Some (Fulfilled VUndefined), [])).
Proof. split; [apply firstN_is_empty | intros fuel; reflexivity]. Qed.

(** C2, as the claim states it, fails: after [fail("global")] a [forEach]
    registered on the source is resolved, not rejected with "global". *)
Lemma late_forEach_is_not_rejected :
  exists r w,
    late_forEach_scenario 4 initialWorld = Some (r, w) /\
    fst r = Some (Fulfilled VUndefined) /\
    fst r <> Some (Rejected (VStr "global")) /\
    snd r = [].
Proof. eexists _, _. split; [reflexivity|]. by repeat split. Qed.

(** C2, amended.  On an Observable that has reached a terminal state, by
    [done()] or by [fail(err)] alike, [forEach] returns a promise that is
    already resolved; it changes nothing else, so no value is delivered to
    the listener, and no later call of the producer delivers one either. *)
Theorem late_forEach_resolves fuel this each rest w :
  observables w !! this = Some None ->
  let w' := set_promises (promises w ++ [Fulfilled VUndefined]) w in
  Observable.forEach this each w = Some (length (promises w), w') /\
  producerCalls (S fuel) this rest w' = Some (tt, w').
Proof.
  intros H w'. split.
  - unfold Observable.forEach, bind, Observable.isDone. by rewrite H.
  - by apply producerCalls_terminal.
Qed.

(** An instance: the Observable of a world in which nothing else exists. *)
Lemma late_forEach_resolves_witness :
  let w := withTerminalObservable initialWorld in
  let w' := set_promises [Fulfilled VUndefined] w in
  observables w !! 0 = Some None /\
  Observable.forEach 0 (FUser 0 quiet) w = Some (0, w') /\
  producerCalls 1 0 [PTrigger (VNum 1)] w' = Some (tt, w').
Proof.
  split; [reflexivity|].
  apply (late_forEach_resolves 0 0 (FUser 0 quiet) [PTrigger (VNum 1)]
           (withTerminalObservable initialWorld)).
  reflexivity.
Defined.

(** C3.  [map(f)] is claimed to forward the terminal signal of its source.
    For a source that emits 1, 2, 3 and is done, the consumer of
    [map(x => x * 2)] observes 2, 4, 6, but the derived stream never reaches
    Done and the consumer's result stays pending; when the source fails
    instead, the derived stream does not fail either.  [map] registers its
    listener and drops the promise, where [filter] chains [done] and [fail]
    on it. *)
Theorem map_never_reaches_done :
  forall fuel,
    option_map fst (map_scenario (4 + fuel) TDone initialWorld)
    = Some (false, Some (Pending []), [VNum 2; VNum 4; VNum 6]) /\
    option_map fst (map_scenario (4 + fuel) (TFail (VStr "global"))
                                 initialWorld)
    = Some (false, Some (Pending []), [VNum 2; VNum 4; VNum 6]).
Proof. intros fuel. split; reflexivity. Qed.

(** C4.  The first terminal signal is claimed to settle every registered
    slot exactly once and to discard the registry, whatever is registered,
    and the terminal state to be absorbing.  With a [forEach], a [then]
    whose action throws "boom" and a second [forEach] registered in that
    order, [done()] calls the first slot, runs the action and ends with its
    exception, before the third slot is reached and before
    [this._callbacks = undefined]: the stream is not done, the following
    [trigger(7)] is delivered to both consumers, and a second [done()] calls
    the resolving function of the first slot again and ends the same way.
    The second [forEach] and the [then] are never settled.  [trigger] guards
    the call of a listener with [try]/[catch]; [done] runs [d.resolve()]
    unguarded. *)
Theorem done_is_cut_short_by_a_throwing_action :
  forall fuel,
    option_map fst (throwing_action_scenario (4 + fuel) initialWorld)
    = Some (Throw (VStr "boom"), false, [VNum 7], [VNum 7],
            Throw (VStr "boom"), [VUndefined; VUndefined],
            Some (Pending []), Some (Pending [])).
Proof. intros fuel. reflexivity. Qed.

(** C5.  On an Observable with consumers registered by [forEach], under any
    run of [trigger] calls followed by a terminal signal every call of the
    producer returns, and for each consumer:
    - if its listener throws on none of the values, it stays registered, it
      observes every value in order, and its result takes the outcome of the
      terminal signal, whatever the other listeners do;
    - if its listener throws first on the value at position [k] (from 0), it
      has observed the [k] values before that one, its slot (and no other
      for that reason) is set to undefined, and its own result is rejected
      with what was thrown. *)
Theorem listener_failure_is_isolated fuel this a cs vs t w :
  observables w !! this = Some (Some a) ->
  arrays w !! a = Some (registry cs) ->
  NoDup (consumerIds cs) ->
  NoDup (promiseIds cs) ->
  exists w1 w2,
    producerCalls (S (S fuel)) this (List.map PTrigger vs) w = Some (tt, w1) /\
    producerCall (S (S fuel)) this (PTerminal t) w1 = Some (tt, w2) /\
    arrays w1 !! a = Some (registry (survivors vs cs)) /\
    forall i c rs,
      cs !! i = Some (Some c) ->
      promises w !! cpromise c = Some (Pending rs) ->
      (firstThrow (cthrows c) vs = None ->
       survivors vs cs !! i = Some (Some c) /\
       seen (cid c) (log w2) = seen (cid c) (log w) ++ vs /\
       promises w1 !! cpromise c = Some (Pending rs) /\
       promises w2 !! cpromise c = Some (outcome t)) /\
      (forall k e,
          firstThrow (cthrows c) vs = Some (k, e) ->
          survivors vs cs !! i = Some None /\
          seen (cid c) (log w2) = seen (cid c) (log w) ++ take k vs /\
          promises w1 !! cpromise c = Some (Rejected e) /\
          promises w2 !! cpromise c = Some (Rejected e)).
Proof.
  intros Ho Ha Hc Hp.
  destruct (triggers_registry fuel this a vs cs w Ho Ha)
    as (w1 & Hrun1 & Ho1 & Ha1 & Hl1 & Hp1).
  destruct (terminal_registry fuel this a t (survivors vs cs) w1)
    as (w2 & Hrun2 & Ho2 & Hl2 & Hp2); [by rewrite Ho1 | done |].
  exists w1, w2. do 3 (split; [done|]).
  intros i c rs Hi Hpend.
  assert (Hsurv : survivors vs cs !! i
                  = Some (match firstThrow (cthrows c) vs with
                          | None => Some c
                          | Some _ => None
                          end)) by by apply survivors_lookup.
  assert (Hseen : seen (cid c) (log w2)
                  = seen (cid c) (log w) ++ observedOf (cthrows c) vs).
  { rewrite Hl2, Hl1, !seen_app, seen_settleCalls, app_nil_r.
    by rewrite (seen_triggersEvents vs cs i c). }
  assert (Hp1c : promises w1 !! cpromise c
                 = Some (promiseOf (cthrows c) vs (Pending rs))).
  { rewrite Hp1. by apply (rejectAllThrowers_sole vs cs i c). }
  unfold observedOf in Hseen. unfold promiseOf in Hp1c. split.
  - intros Hnone. rewrite Hnone in Hsurv, Hseen, Hp1c.
    do 3 (split; [done|]). rewrite Hp2.
    eapply (settleAll_sole t _ i c _ rs); [|done|done].
    eapply sublist_NoDup; [exact Hp | apply survivors_sublist].
  - intros k e Hthrow. rewrite Hthrow in Hsurv, Hseen, Hp1c.
    do 3 (split; [done|]). rewrite Hp2.
    by eapply settleAll_settled.
Qed.

(** An instance: two consumers, the first of which throws on 2; the values
    1, 2, 3, then [done()]. *)
Lemma listener_failure_is_isolated_witness :
  exists w1 w2,
    producerCalls 2 0 (List.map PTrigger [VNum 1; VNum 2; VNum 3])
                  twoConsumersWorld = Some (tt, w1) /\
    producerCall 2 0 (PTerminal TDone) w1 = Some (tt, w2) /\
    arrays w1 !! 0
    = Some (registry (survivors [VNum 1; VNum 2; VNum 3] twoConsumers)) /\
    forall i c rs,
      twoConsumers !! i = Some (Some c) ->
      promises twoConsumersWorld !! cpromise c = Some (Pending rs) ->
      (firstThrow (cthrows c) [VNum 1; VNum 2; VNum 3] = None ->
       survivors [VNum 1; VNum 2; VNum 3] twoConsumers !! i = Some (Some c) /\
       seen (cid c) (log w2)
       = seen (cid c) (log twoConsumersWorld) ++ [VNum 1; VNum 2; VNum 3] /\
       promises w1 !! cpromise c = Some (Pending rs) /\
       promises w2 !! cpromise c = Some (outcome TDone)) /\
      (forall k e,
          firstThrow (cthrows c) [VNum 1; VNum 2; VNum 3] = Some (k, e) ->
          survivors [VNum 1; VNum 2; VNum 3] twoConsumers !! i = Some None /\
          seen (cid c) (log w2)
          = seen (cid c) (log twoConsumersWorld)
              ++ take k [VNum 1; VNum 2; VNum 3] /\
          promises w1 !! cpromise c = Some (Rejected e) /\
          promises w2 !! cpromise c = Some (Rejected e)).
Proof.
  apply (listener_failure_is_isolated 0 0 0 twoConsumers
           [VNum 1; VNum 2; VNum 3] TDone twoConsumersWorld).
  - reflexivity.
  - reflexivity.
  - apply (bool_decide_unpack _). vm_compute. exact I.
  - apply (bool_decide_unpack _). vm_compute. exact I.
Defined.

(** C6.  [withTimeout(ms)] is claimed to fail with the Timeout error when
    its source has not terminated within [ms].  For a source that never
    terminates, the stream [withTimeout(50)] is done when it is returned, no
    timer has been scheduled, and after 50 ms the source is still active
    while the consumer's result is resolved: [withTimeout] goes through
    [subscribe], which returns [Observable.empty()] whatever its source. *)
Theorem withTimeout_never_times_out :
  (forall fuel this timeoutMs,
      Observable.withTimeout fuel this timeoutMs = Observable.empty fuel) /\
  (forall fuel,
      option_map fst (withTimeout_scenario (4 + fuel) initialWorld)
      = Some (true, [], false, Some (Fulfilled VUndefined))).
Proof. split; [apply withTimeout_is_empty | intros fuel; reflexivity]. Qed.

(** C7.  [next()] is claimed to return a queued value at once.  With the
    number 0 queued and the source still active, [next()] takes 0 off the
    queue and returns a pending promise, which is later resolved with the
    next value triggered, 5: the value 0 is lost. *)
Theorem next_drops_falsy_value :
  forall fuel,
    option_map fst (iterator_scenario (4 + fuel) initialWorld)
    = Some (Some (Pending []), Some (Fulfilled (VNum 5)), []).
Proof. intros fuel. reflexivity. Qed.

(** C8.  [reduce(seed, combine)] is claimed to deliver the seed to its
    consumers.  For a source that emits 1, 2 and is done, the consumer that
    registers as soon as [reduce(0, (a, b) => a + b)] returns observes 1, 3
    and then the end: the seed is triggered inside the constructor, when no
    consumer can be registered yet. *)
Theorem reduce_seed_is_not_observed :
  forall fuel,
    option_map fst (reduce_scenario (4 + fuel) initialWorld)
    = Some (true, Some (Fulfilled VUndefined), [VNum 1; VNum 3]).
Proof. intros fuel. reflexivity. Qed.

(** C9.  [Subscription.fromListener] is claimed to add one listener when
    it is called and to remove it at the first [dispose()].  In every world
    and for every element and event, the call ends with a ReferenceError
    and returns no Subscription, so that there is nothing to dispose of: the
    constructor of [Subscription] reads [this] in the closure it hands to
    [super], which the constructor of [Observable] runs before [super(...)]
    has returned.  The executor of [fromListener] is not run: the listeners
    of every element are as before, and nothing else that can be observed
    has changed.  The same holds of [new Subscription(executor)] for every
    executor. *)
Theorem fromListener_throws_before_attaching element event executor w :
  exists w' w'',
    Subscription.fromListener element event w
    = Some (Subscription.Threw ReferenceError, w') /\
    Subscription.new executor w
    = Some (Subscription.Threw ReferenceError, w'') /\
    elements w' = elements w /\
    log w' = log w /\
    promises w' = promises w /\
    microtasks w' = microtasks w /\
    timers w' = timers w /\
    (forall this, this < length (observables w) ->
                  observables w' !! this = observables w !! this).
Proof.
  eexists _, _. split; [reflexivity|]. split; [reflexivity|].
  simpl. do 5 (split; [reflexivity|]).
  intros this Hlt. by apply lookup_app_l.
Qed.

(** C10.  In any world, [Observable.fromArray(array)] and
    [Observable.just(val)] return a new Observable that is already terminal:
    the values were triggered and [done()] was called inside the constructor,
    on an empty registry, so nothing was observed.  [isDone()] is true, and a
    [forEach] registered afterwards gets a resolved promise and no value. *)
Theorem fromArray_and_just_are_terminal fuel array val each w :
  let this := length (observables w) in
  let w' := withTerminalObservable w in
  Observable.fromArray (S fuel) array w = Some (this, w') /\
  Observable.just (S fuel) val w = Some (this, w') /\
  Observable.isDone this w' = Some (true, w') /\
  log w' = log w /\
  Observable.forEach this each w'
  = Some (length (promises w'),
          set_promises (promises w' ++ [Fulfilled VUndefined]) w').
Proof.
  intros this w'. destruct (fresh_then_done w) as (Ho & Ha & Hd).
  assert (Hterm : observables w' !! this = Some None).
  { unfold w', withTerminalObservable. simpl. by apply list_lookup_middle. }
  repeat split.
  - cbv beta zeta delta [Observable.fromArray Observable.new bind].
    rewrite (forEachValue_no_consumer fuel _ _ array _ Ho Ha).
    by rewrite (invoke_done_no_consumer fuel _ _ _ Ho Ha), Hd.
  - cbv beta zeta delta [Observable.just Observable.new bind].
    rewrite (invoke_trigger_no_consumer fuel _ _ val _ Ho Ha).
    by rewrite (invoke_done_no_consumer fuel _ _ _ Ho Ha), Hd.
  - unfold Observable.isDone. by rewrite Hterm.
  - unfold Observable.forEach, bind, Observable.isDone. by rewrite Hterm.
Qed.

(** * Further properties *)

(** ** Lists that grow at the end *)

Lemma insert_app_end {A : Type} (l k : list A) x p :
  p = length l -> <[p := x]> (l ++ k) = l ++ <[0 := x]> k.
Proof.
  intros ->. rewrite <- (Nat.add_0_r (length l)) at 1. apply insert_app_r.
Qed.

Lemma insert_app_plus {A : Type} (l k : list A) x p i :
  p = length l -> <[p + i := x]> (l ++ k) = l ++ <[i := x]> k.
Proof. intros ->. apply insert_app_r. Qed.

Lemma lookup_app_plus {A : Type} (l k : list A) p i :
  p = length l -> (l ++ k) !! (p + i) = k !! i.
Proof. intros ->. rewrite lookup_app_r by lia. f_equal. lia. Qed.

Lemma lookup_app_end {A : Type} (l k : list A) p :
  p = length l -> (l ++ k) !! p = k !! 0.
Proof.
  intros ->. rewrite <- (Nat.add_0_r (length l)) at 1.
  by apply lookup_app_plus.
Qed.

(** ** Steps of the interface *)

Lemma new_unfold executor w :
  Observable.new executor w
  = match executor (FTrigger (length (observables w)))
            (FDone (length (observables w)))
            (FFail (length (observables w)))
            (set_observables (observables w ++ [Some (length (arrays w))])
               (set_arrays (arrays w ++ [[]]) w)) with
    | Some (_, w1) => Some (length (observables w), w1)
    | None => None
    end.
Proof. reflexivity. Qed.

(** [forEach] on an active stream appends a slot; on a terminal one it
    returns a resolved promise. *)
Lemma forEach_active this a arr each w :
  observables w !! this = Some (Some a) ->
  arrays w !! a = Some arr ->
  Observable.forEach this each w
  = Some (length (promises w),
          set_arrays (<[a := arr ++ [Some (slotOf each (length (promises w)))]]>
                        (arrays w))
                     (set_promises (promises w ++ [Pending []]) w)).
Proof.
  intros Ho Ha.
  unfold Observable.forEach, bind, Observable.isDone, newPromise,
    Observable.push, ret, allocPromise.
  rewrite Ho. simpl. by rewrite Ho, Ha.
Qed.

Lemma forEach_terminal this each w :
  observables w !! this = Some None ->
  Observable.forEach this each w
  = Some (length (promises w),
          set_promises (promises w ++ [Fulfilled VUndefined]) w).
Proof.
  intros Ho. unfold Observable.forEach, bind, Observable.isDone. by rewrite Ho.
Qed.

Lemma then_active this a arr action fuel w :
  observables w !! this = Some (Some a) ->
  arrays w !! a = Some arr ->
  Observable.then_ fuel this action w
  = Some (length (promises w),
          set_arrays (<[a := arr ++ [Some (thenItem action
                                             (length (promises w)))]]>
                        (arrays w))
                     (set_promises (promises w ++ [Pending []]) w)).
Proof.
  intros Ho Ha.
  unfold Observable.then_, bind, Observable.isDone, newPromise,
    Observable.push, ret, allocPromise.
  rewrite Ho. simpl. by rewrite Ho, Ha.
Qed.

Lemma addReaction_pending p rs onF onR w :
  promises w !! p = Some (Pending rs) ->
  addReaction p onF onR w
  = Some (length (promises w),
          set_promises
            (<[p := Pending (rs ++ [{| onFulfilled := onF; onRejected := onR;
                                      derivedPromise := length (promises w) |}])]>
               (promises w ++ [Pending []])) w).
Proof.
  intros Hp. unfold addReaction, allocPromise. simpl.
  rewrite lookup_app_l by (by eapply lookup_lt_Some). by rewrite Hp.
Qed.

Lemma addReaction_fulfilled p v onF onR w :
  promises w !! p = Some (Fulfilled v) ->
  addReaction p onF onR w
  = Some (length (promises w),
          set_microtasks
            (microtasks w ++
               [{| jobReaction := {| onFulfilled := onF; onRejected := onR;
                                     derivedPromise := length (promises w) |};
                   jobRejected := false; jobValue := v |}])
            (set_promises (promises w ++ [Pending []]) w)).
Proof.
  intros Hp. unfold addReaction, allocPromise. simpl.
  rewrite lookup_app_l by (by eapply lookup_lt_Some). by rewrite Hp.
Qed.

Lemma settle_pending p rs rej v w :
  promises w !! p = Some (Pending rs) ->
  settle p rej v w
  = set_microtasks
      (microtasks w ++
         List.map (fun r => {| jobReaction := r; jobRejected := rej;
                               jobValue := v |}) rs)
      (set_promises (<[p := if rej then Rejected v else Fulfilled v]>
                       (promises w)) w).
Proof. intros H. unfold settle. by rewrite H. Qed.

Lemma settledBy_pending t p rs w :
  promises w !! p = Some (Pending rs) ->
  settledBy t p w
  = set_microtasks
      (microtasks w ++
         List.map (fun r => {| jobReaction := r;
                               jobRejected := terminalRejects t;
                               jobValue := terminalValue t |}) rs)
      (set_promises (<[p := outcome t]> (promises w))
                    (record (terminalEvent t p) w)).
Proof.
  intros H. destruct t; cbn [settledBy]; by erewrite settle_pending.
Qed.

Lemma runMicrotasks_nil fuel w :
  microtasks w = [] -> runMicrotasks fuel w = Some w.
Proof. intros H. destruct fuel; simpl; by rewrite H. Qed.

Lemma runMicrotasks_cons fuel j rest w :
  microtasks w = j :: rest ->
  runMicrotasks (S fuel) w
  = match runJob fuel j (set_microtasks rest w) with
    | Some w' => runMicrotasks fuel w'
    | None => None
    end.
Proof. intros H. simpl. by rewrite H. Qed.

Lemma runJob_handler fuel (r : Reaction) (rej : bool) v h w :
  (if rej then onRejected r else onFulfilled r) = Some h ->
  runJob fuel {| jobReaction := r; jobRejected := rej; jobValue := v |} w
  = match call fuel h v w with
    | Some (Return v', w') => Some (settle (derivedPromise r) false v' w')
    | Some (Throw e, w') => Some (settle (derivedPromise r) true e w')
    | None => None
    end.
Proof. intros H. unfold runJob. simpl. by rewrite H. Qed.

Lemma runJob_passes fuel (r : Reaction) (rej : bool) v w :
  (if rej then onRejected r else onFulfilled r) = None ->
  runJob fuel {| jobReaction := r; jobRejected := rej; jobValue := v |} w
  = Some (settle (derivedPromise r) rej v w).
Proof. intros H. unfold runJob. simpl. by rewrite H. Qed.

Lemma invoke_fail_no_consumer fuel this a err w :
  observables w !! this = Some (Some a) -> arrays w !! a = Some [] ->
  invoke (S fuel) (FFail this) err w
  = Some (tt, discardCallbacks this w).
Proof.
  intros Ho Ha. unfold invoke. rewrite call_fail, Ho.
  unfold arrayForEach. by rewrite Ha.
Qed.

(** ** Recorded events *)

Lemma recordAll_nil w : recordAll [] w = w.
Proof. unfold recordAll. rewrite app_nil_r. by destruct w. Qed.

Lemma recordAll_app es es' w :
  recordAll es' (recordAll es w) = recordAll (es ++ es') w.
Proof. unfold recordAll, set_log. simpl. by rewrite app_assoc. Qed.

Lemma seen_saws c vs : seen c (List.map (Saw c) vs) = vs.
Proof.
  induction vs as [|v vs IH]; [done|]. simpl. rewrite Nat.eqb_refl.
  simpl. by f_equal.
Qed.

Lemma set_cells_id w : set_cells (cells w) w = w.
Proof. by destruct w. Qed.

(** ** A stream with a single slot *)

Lemma trigger_one_slot fuel this a item v r w w1 :
  observables w !! this = Some (Some a) ->
  arrays w !! a = Some [Some item] ->
  call fuel (listener item) v w = Some (Return r, w1) ->
  call (S fuel) (FTrigger this) v w = returns w1.
Proof.
  intros Ho Ha Hl. rewrite call_trigger, Ho. unfold arrayForEach.
  rewrite Ha. cbn [length forEachFrom]. rewrite Ha.
  cbn [lookup list_lookup triggerEach]. by rewrite Hl.
Qed.

Lemma trigger_quiet_consumer fuel d ad c pc v w :
  observables w !! d = Some (Some ad) ->
  arrays w !! ad = Some [Some (slotOf (FUser c quiet) pc)] ->
  call (S (S fuel)) (FTrigger d) v w = returns (recordAll [Saw c v] w).
Proof. intros Ho Ha. by eapply trigger_one_slot. Qed.

Lemma call_terminal_single_slot fuel this a l p t arg w :
  observables w !! this = Some (Some a) ->
  arrays w !! a = Some [Some (slotOf l p)] ->
  call (S (S fuel)) (terminalFn t this)
       (match t with TDone => arg | TFail err => err end) w
  = returns (discardCallbacks this (settledBy t p w)).
Proof.
  intros Ho Ha. destruct t as [|err]; cbn [terminalFn].
  - rewrite call_done, Ho. unfold arrayForEach. rewrite Ha.
    cbn [length forEachFrom]. by rewrite Ha.
  - rewrite call_fail, Ho. unfold arrayForEach. rewrite Ha.
    cbn [length forEachFrom]. by rewrite Ha.
Qed.

Lemma producerCall_terminal_single_slot fuel this a l p t w :
  observables w !! this = Some (Some a) ->
  arrays w !! a = Some [Some (slotOf l p)] ->
  producerCall (S (S fuel)) this (PTerminal t) w
  = Some (tt, discardCallbacks this (settledBy t p w)).
Proof.
  intros Ho Ha.
  pose proof (call_terminal_single_slot fuel this a l p t VUndefined w Ho Ha)
    as H.
  unfold producerCall, invoke. destruct t; cbn [terminalFn] in H; by rewrite H.
Qed.

(** A slot whose listener does nothing lets every value pass. *)
Lemma triggers_noop_slot fuel this a item vs w :
  observables w !! this = Some (Some a) ->
  arrays w !! a = Some [Some item] ->
  listener item = FNoop ->
  producerCalls (S (S fuel)) this (List.map PTrigger vs) w = Some (tt, w).
Proof.
  intros Ho Ha Hl. induction vs as [|v vs IH]; [done|].
  cbn [List.map producerCalls producerCall]. unfold bind, invoke.
  erewrite (trigger_one_slot _ this a item v VUndefined w w); [|done..|].
  - exact IH.
  - by rewrite Hl.
Qed.

(** ** Streams that feed a stream *)

(** A listener that passes on [emit v] for the value [v], whatever came
    before: a run of values reaches the consumer of the derived stream as
    the concatenation of what each one emits. *)
Section Stateless.
Variable l : Fn.
Variable emit : Value -> list Value.
Variables src d p0 c pc : nat.
Hypothesis l_emits : forall fuel v w,
  Wired w src d l p0 c pc ->
  call (S (S (S fuel))) l v w
  = returns (recordAll (List.map (Saw c) (emit v)) w).

Lemma stateless_triggers fuel vs : forall w,
  Wired w src d l p0 c pc ->
  producerCalls (4 + fuel) src (List.map PTrigger vs) w
  = Some (tt, recordAll (List.map (Saw c) (flat_map emit vs)) w).
Proof.
  induction vs as [|v vs IH]; intros w Hw.
  - simpl. by rewrite recordAll_nil.
  - change (4 + fuel) with (S (S (S (S fuel)))) in *.
    cbn [List.map producerCalls producerCall flat_map]. unfold bind, invoke.
    destruct Hw as (a & ad & Hs & Has & Hrest).
    erewrite (trigger_one_slot _ src a (slotOf l p0) v); [|done|done|].
    2:{ cbn [slotOf listener]. apply l_emits. by exists a, ad. }
    simpl. rewrite IH by (by exists a, ad).
    by rewrite recordAll_app, map_app.
Qed.
End Stateless.

Lemma map_listener_emits mapper src d p0 c pc fuel v w :
  Wired w src d (FMapListener mapper (FTrigger d)) p0 c pc ->
  call (S (S (S fuel))) (FMapListener mapper (FTrigger d)) v w
  = returns (recordAll (List.map (Saw c) [mapper v]) w).
Proof.
  intros (a & ad & _ & _ & Hd & Had & _).
  change (call (S (S (S fuel))) (FMapListener mapper (FTrigger d)) v w)
    with (call (S (S fuel)) (FTrigger d) (mapper v) w).
  by eapply trigger_quiet_consumer.
Qed.

Lemma filter_listener_emits predicate src d p0 c pc fuel v w :
  Wired w src d (FFilterListener predicate (FTrigger d)) p0 c pc ->
  call (S (S (S fuel))) (FFilterListener predicate (FTrigger d)) v w
  = returns (recordAll
               (List.map (Saw c) (if predicate v then [v] else [])) w).
Proof.
  intros (a & ad & _ & _ & Hd & Had & _).
  change (call (S (S (S fuel))) (FFilterListener predicate (FTrigger d)) v w)
    with (if predicate v then call (S (S fuel)) (FTrigger d) v w
          else returns w).
  destruct (predicate v).
  - by eapply trigger_quiet_consumer.
  - simpl. by rewrite recordAll_nil.
Qed.

Lemma flat_map_filter (predicate : Value -> bool) vs :
  flat_map (fun v => if predicate v then [v] else []) vs
  = List.filter predicate vs.
Proof.
  induction vs as [|v vs IH]; [done|]. simpl. rewrite IH.
  by destruct (predicate v).
Qed.

Lemma flat_map_map (f : Value -> Value) vs :
  flat_map (fun v => [f v]) vs = List.map f vs.
Proof. induction vs as [|v vs IH]; [done|]. simpl. by rewrite IH. Qed.

(** The terminal signal of the source, and the turn in which the chain
    [forEach(...).then(done).catch(fail)] passes it on to the derived stream
    and its consumer. *)
Lemma chained_turn fuel src d l p0 p1 p2 c pc t w :
  Wired w src d l p0 c pc ->
  Chained w d p0 p1 p2 pc ->
  exists w1 w2,
    producerCall (4 + fuel) src (PTerminal t) w = Some (tt, w1) /\
    observables w1 !! src = Some None /\
    endOfTurn (4 + fuel) w1 = Some (tt, w2) /\
    observables w2 !! d = Some None /\
    observables w2 !! src = Some None /\
    promises w2 !! pc = Some (outcome t) /\
    seen c (log w2) = seen c (log w) /\
    microtasks w2 = [].
Proof.
  intros (a & ad & Hs & Has & Hd & Had & Hne)
         (Hp0 & Hp1 & Hp2 & Hpc & Hnd & Hm).
  assert (p0 <> p1 /\ p0 <> p2 /\ p0 <> pc /\ p1 <> p2 /\ p1 <> pc /\ p2 <> pc)
    as (N01 & N02 & N0c & N12 & N1c & N2c).
  { apply NoDup_cons in Hnd as [H0 Hnd]. apply NoDup_cons in Hnd as [H1 Hnd].
    apply NoDup_cons in Hnd as [H2 _].
    apply not_elem_of_cons in H0 as [? H0].
    apply not_elem_of_cons in H0 as [? H0].
    apply not_elem_of_cons in H0 as [? _].
    apply not_elem_of_cons in H1 as [? H1].
    apply not_elem_of_cons in H1 as [? _].
    apply not_elem_of_cons in H2 as [? _]. done. }
  change (4 + fuel) with (S (S (S (S fuel)))).
  destruct t as [|err]; eexists _, _;
    (split; [by eapply producerCall_terminal_single_slot|]);
    rewrite (settledBy_pending _ p0 _ w Hp0), Hm;
    (split; [by lookup_goal|]);
    unfold endOfTurn; cbn [app List.map];
    (erewrite runMicrotasks_cons by (world; reflexivity));
    cbn [terminalRejects terminalValue].
  - erewrite runJob_handler by reflexivity.
    erewrite (call_terminal_single_slot _ d ad _ pc TDone VUndefined)
      by lookup_goal.
    erewrite (settledBy_pending TDone pc) by lookup_goal.
    cbn [returns derivedPromise].
    erewrite settle_pending; [| lookup_goal ].
    erewrite runMicrotasks_cons by (world; reflexivity).
    erewrite runJob_passes by reflexivity.
    erewrite settle_pending by lookup_goal.
    erewrite runMicrotasks_nil by (world; reflexivity).
    split; [reflexivity|]. world.
    split; [by lookups|]. split; [by lookups|]. split; [by lookups|].
    split; [|done]. by rewrite !seen_app, !app_nil_r.
  - erewrite runJob_passes by reflexivity.
    erewrite settle_pending by lookup_goal.
    erewrite runMicrotasks_cons by (world; reflexivity).
    erewrite runJob_handler by reflexivity.
    erewrite (call_terminal_single_slot _ d ad _ pc (TFail err) VUndefined)
      by lookup_goal.
    erewrite (settledBy_pending (TFail err) pc) by lookup_goal.
    cbn [returns derivedPromise].
    erewrite settle_pending by lookup_goal.
    erewrite runMicrotasks_nil by (world; reflexivity).
    split; [reflexivity|]. world.
    split; [by lookups|]. split; [by lookups|]. split; [by lookups|].
    split; [|done]. by rewrite !seen_app, !app_nil_r.
Qed.

(** The chain, run on a stream nobody has registered on. *)
Lemma chainBody_runs src a l done fail w :
  observables w !! src = Some (Some a) ->
  arrays w !! a = Some [] ->
  let p0 := length (promises w) in
  chainBody src l done fail w
  = Some (tt,
          set_promises
            (promises w ++
               [Pending [{| onFulfilled := Some done; onRejected := None;
                            derivedPromise := p0 + 1 |}];
                Pending [{| onFulfilled := None; onRejected := Some fail;
                            derivedPromise := p0 + 2 |}];
                Pending []])
            (set_arrays (<[a := [Some (slotOf l p0)]]> (arrays w)) w)).
Proof.
  intros Ho Ha p0. unfold chainBody, bind.
  erewrite forEach_active by done.
  world. fold p0. unfold promiseThen, promiseCatch.
  erewrite addReaction_pending.
  2:{ world. by erewrite lookup_app_end. }
  world. rewrite length_app. cbn [length]. fold p0.
  rewrite <- app_assoc. cbn [app].
  rewrite (insert_app_end (promises w)) by done. cbn [insert list_insert app].
  erewrite addReaction_pending.
  2:{ world. by erewrite lookup_app_plus. }
  world. rewrite length_app. cbn [length]. fold p0.
  rewrite <- app_assoc. cbn [app].
  rewrite (insert_app_plus (promises w)) by done.
  reflexivity.
Qed.

(** A stream [d] whose executor has run the chain, and a consumer of it. *)
Lemma chain_consumed src a l d ad c w :
  observables w !! src = Some (Some a) ->
  arrays w !! a = Some [] ->
  observables w !! d = Some (Some ad) ->
  arrays w !! ad = Some [] ->
  src <> d -> a <> ad ->
  microtasks w = [] ->
  let p0 := length (promises w) in
  exists W,
    (chainBody src l (FDone d) (FFail d);;
     Observable.forEach d (FUser c quiet)) w
    = Some (p0 + 3, W) /\
    Wired W src d l p0 c (p0 + 3) /\
    Chained W d p0 (p0 + 1) (p0 + 2) (p0 + 3) /\
    log W = log w /\ cells W = cells w.
Proof.
  intros Ho Ha Hd Had Hne Hnea Hm p0.
  assert (a < length (arrays w)) as Hlta by by eapply lookup_lt_Some.
  assert (ad < length (arrays w)) as Hltad by by eapply lookup_lt_Some.
  unfold bind at 1. rewrite (chainBody_runs src a l _ _ w Ho Ha). fold p0.
  erewrite forEach_active.
  2:{ world. done. }
  2:{ world. by rewrite list_lookup_insert_ne. }
  world. rewrite length_app. cbn [length app]. fold p0.
  rewrite <- app_assoc. cbn [app].
  eexists. split; [reflexivity|].
  split.
  { exists a, ad. world.
    split; [done|].
    split.
    { rewrite list_lookup_insert_ne by done.
      by rewrite list_lookup_insert_eq. }
    split; [done|]. split; [|done].
    rewrite list_lookup_insert_eq; [done|]. by rewrite length_insert. }
  split; [|done].
  unfold Chained. world.
  split; [by erewrite lookup_app_end|].
  split; [by erewrite lookup_app_plus|].
  split; [by erewrite lookup_app_plus|].
  split; [by erewrite lookup_app_plus|].
  split; [|done].
  repeat (apply NoDup_cons; split;
          [rewrite ?not_elem_of_cons, ?elem_of_nil; lia|]).
  apply NoDup_nil_2.
Qed.

(** A new stream, consumed at once. *)
Lemma new_consumed executor c w :
  (let* d := Observable.new executor in
   let* p := Observable.forEach d (FUser c quiet) in
   ret (d, p)) w
  = let d := length (observables w) in
    match (executor (FTrigger d) (FDone d) (FFail d);;
           Observable.forEach d (FUser c quiet))
            (set_observables (observables w ++ [Some (length (arrays w))])
               (set_arrays (arrays w ++ [[]]) w)) with
    | Some (p, W) => Some ((d, p), W)
    | None => None
    end.
Proof.
  unfold bind, Observable.new. cbv zeta.
  destruct (executor _ _ _ _) as [[[] w1]|]; [|done].
  by destruct (Observable.forEach _ _ w1) as [[p W]|].
Qed.

Lemma fresh_stream_wired src a w :
  observables w !! src = Some (Some a) ->
  arrays w !! a = Some [] ->
  let d := length (observables w) in
  let ad := length (arrays w) in
  let w0 := set_observables (observables w ++ [Some ad])
              (set_arrays (arrays w ++ [[]]) w) in
  observables w0 !! src = Some (Some a) /\
  arrays w0 !! a = Some [] /\
  observables w0 !! d = Some (Some ad) /\
  arrays w0 !! ad = Some [] /\
  src <> d /\ a <> ad.
Proof.
  intros Ho Ha d ad w0.
  assert (src < length (observables w)) as Hlt by by eapply lookup_lt_Some.
  assert (a < length (arrays w)) as Hlta by by eapply lookup_lt_Some.
  subst w0. world.
  split; [by rewrite lookup_app_l|]. split; [by rewrite lookup_app_l|].
  split; [by apply list_lookup_middle|].
  split; [by apply list_lookup_middle|].
  subst d ad. lia.
Qed.

Lemma chained_setup mk src a c w :
  observables w !! src = Some (Some a) ->
  arrays w !! a = Some [] ->
  microtasks w = [] ->
  let d := length (observables w) in
  let p0 := length (promises w) in
  exists W,
    (let* d := chained mk src in
     let* p := Observable.forEach d (FUser c quiet) in
     ret (d, p)) w = Some ((d, p0 + 3), W) /\
    Wired W src d (mk (FTrigger d)) p0 c (p0 + 3) /\
    Chained W d p0 (p0 + 1) (p0 + 2) (p0 + 3) /\
    log W = log w /\ cells W = cells w.
Proof.
  intros Ho Ha Hm d p0.
  destruct (fresh_stream_wired src a w Ho Ha) as (H1 & H2 & H3 & H4 & H5 & H6).
  unfold chained. rewrite new_consumed. cbv zeta.
  edestruct (chain_consumed src a (mk (FTrigger d)) d (length (arrays w)) c)
    as (W & -> & HW); [exact H1|exact H2|exact H3|exact H4|done..|].
  by exists W.
Qed.

(** What the consumer of a chained stream gets of a run of the source that
    ends with a terminal signal; the calls after that signal change
    nothing. *)
Lemma chained_stream mk emit fuel src a c vs t rest w :
  (forall d p0 pc fuel v w,
     Wired w src d (mk (FTrigger d)) p0 c pc ->
     call (S (S (S fuel))) (mk (FTrigger d)) v w
     = returns (recordAll (List.map (Saw c) (emit v)) w)) ->
  observables w !! src = Some (Some a) ->
  arrays w !! a = Some [] ->
  microtasks w = [] ->
  let d := length (observables w) in
  let p := length (promises w) + 3 in
  exists W,
    consumeDerived (4 + fuel) (chained mk) src c
      (List.map PTrigger vs ++ PTerminal t :: rest) w = Some ((d, p), W) /\
    seen c (log W) = seen c (log w) ++ flat_map emit vs /\
    promises W !! p = Some (outcome t) /\
    observables W !! d = Some None /\
    observables W !! src = Some None.
Proof.
  intros Hemit Ho Ha Hm.
  destruct (chained_setup mk src a c w Ho Ha Hm)
    as (W0 & Hsetup & Hwired & Hchained & Hlog & _).
  set (d := length (observables w)) in *.
  set (p0 := length (promises w)) in *.
  pose proof (stateless_triggers (mk (FTrigger d)) emit src d p0 c (p0 + 3)
                (fun fuel v w => Hemit d p0 (p0 + 3) fuel v w) fuel vs W0 Hwired)
    as Htriggers.
  destruct (chained_turn fuel src d (mk (FTrigger d)) p0 (p0 + 1) (p0 + 2) c
              (p0 + 3) t (recordAll (List.map (Saw c) (flat_map emit vs)) W0))
    as (w1 & w2 & Hterm & Hsrc1 & Hturn & Hd & Hsrc & Hpc & Hseen & _);
    [done|done|].
  exists w2.
  split.
  - unfold consumeDerived, bind in *.
    destruct (chained mk src w) as [[d' w']|]; [|discriminate Hsetup].
    destruct (Observable.forEach d' (FUser c quiet) w') as [[p' w'']|];
      [|discriminate Hsetup].
    injection Hsetup as -> -> ->.
    rewrite producerCalls_app, Htriggers.
    cbn [producerCalls]. unfold bind. rewrite Hterm.
    change (4 + fuel) with (S (3 + fuel)) at 1.
    rewrite producerCalls_terminal by done.
    by rewrite Hturn.
  - split; [|done].
    rewrite Hseen. world. by rewrite seen_app, seen_saws, Hlog.
Qed.

(** ** [filter], [filterWhere] and [withConditions] *)

(** X1.  [filter(predicate)], consumed from the moment it is returned.  Of
    the values its source triggers before the first terminal signal, the
    consumer observes those the predicate accepts, in order.  When the turn
    of that signal has ended, the derived stream is terminal like its source
    and the consumer's result has the outcome of the signal: resolved after
    [done()], rejected with the error after [fail(error)].  What the producer
    calls afterwards changes nothing. *)
Theorem filter_forwards_accepted_values fuel src a c predicate vs t rest w :
  observables w !! src = Some (Some a) ->
  arrays w !! a = Some [] ->
  microtasks w = [] ->
  exists d p W,
    consumeDerived (4 + fuel) (fun this => Observable.filter this predicate)
      src c (List.map PTrigger vs ++ PTerminal t :: rest) w
    = Some ((d, p), W) /\
    seen c (log W) = seen c (log w) ++ List.filter predicate vs /\
    promises W !! p = Some (outcome t) /\
    observables W !! d = Some None /\
    observables W !! src = Some None.
Proof.
  intros Ho Ha Hm.
  destruct (chained_stream (FFilterListener predicate)
              (fun v => if predicate v then [v] else [])
              fuel src a c vs t rest w) as (W & H);
    [intros; by eapply filter_listener_emits|done..|].
  eexists _, _, W. rewrite <- flat_map_filter. exact H.
Qed.

(** An instance: the even numbers of 1, 2, 4, then [fail("global")], then
    one more value. *)
Lemma filter_forwards_accepted_values_witness :
  exists d p W,
    consumeDerived 4 (fun this => Observable.filter this isEven) 0 7
      (List.map PTrigger [VNum 1; VNum 2; VNum 4]
         ++ PTerminal (TFail (VStr "global")) :: [PTrigger (VNum 6)])
      sourceWorld
    = Some ((d, p), W) /\
    seen 7 (log W) = seen 7 (log sourceWorld)
                     ++ List.filter isEven [VNum 1; VNum 2; VNum 4] /\
    promises W !! p = Some (outcome (TFail (VStr "global"))) /\
    observables W !! d = Some None /\
    observables W !! 0 = Some None.
Proof.
  apply (filter_forwards_accepted_values 0 0 0 7 isEven
           [VNum 1; VNum 2; VNum 4] (TFail (VStr "global"))
           [PTrigger (VNum 6)] sourceWorld); reflexivity.
Defined.

(** X2.  [filterWhere(predicate)] gives its consumer the same: the values
    the type guard accepts, in order, then the outcome of the terminal
    signal of the source. *)
Theorem filterWhere_forwards_accepted_values
    fuel src a c predicate vs t rest w :
  observables w !! src = Some (Some a) ->
  arrays w !! a = Some [] ->
  microtasks w = [] ->
  exists d p W,
    consumeDerived (4 + fuel)
      (fun this => Observable.filterWhere this predicate)
      src c (List.map PTrigger vs ++ PTerminal t :: rest) w
    = Some ((d, p), W) /\
    seen c (log W) = seen c (log w) ++ List.filter predicate vs /\
    promises W !! p = Some (outcome t) /\
    observables W !! d = Some None /\
    observables W !! src = Some None.
Proof.
  intros Ho Ha Hm.
  destruct (chained_stream (FFilterListener predicate)
              (fun v => if predicate v then [v] else [])
              fuel src a c vs t rest w) as (W & H);
    [intros; by eapply filter_listener_emits|done..|].
  eexists _, _, W. rewrite <- flat_map_filter. exact H.
Qed.

(** An instance: the even numbers of 1, 2, 3, 4, then [done()]. *)
Lemma filterWhere_forwards_accepted_values_witness :
  exists d p W,
    consumeDerived 4 (fun this => Observable.filterWhere this isEven) 0 7
      (List.map PTrigger [VNum 1; VNum 2; VNum 3; VNum 4]
         ++ PTerminal TDone :: [])
      sourceWorld
    = Some ((d, p), W) /\
    seen 7 (log W) = seen 7 (log sourceWorld)
                     ++ List.filter isEven [VNum 1; VNum 2; VNum 3; VNum 4] /\
    promises W !! p = Some (outcome TDone) /\
    observables W !! d = Some None /\
    observables W !! 0 = Some None.
Proof.
  apply (filterWhere_forwards_accepted_values 0 0 0 7 isEven
           [VNum 1; VNum 2; VNum 3; VNum 4] TDone [] sourceWorld);
    reflexivity.
Defined.

(** X3.  [withConditions(...conditions)], consumed from the moment it is
    returned: the consumer observes the values that satisfy every condition,
    in order, and then gets the outcome of the terminal signal of the source.
    Without any condition every value passes. *)
Theorem withConditions_requires_every_condition
    fuel src a c conditions vs t rest w :
  observables w !! src = Some (Some a) ->
  arrays w !! a = Some [] ->
  microtasks w = [] ->
  exists d p W,
    consumeDerived (4 + fuel)
      (fun this => Observable.withConditions this conditions)
      src c (List.map PTrigger vs ++ PTerminal t :: rest) w
    = Some ((d, p), W) /\
    seen c (log W)
    = seen c (log w)
        ++ List.filter (fun v => forallb (fun cond => cond v) conditions) vs /\
    (conditions = [] -> seen c (log W) = seen c (log w) ++ vs) /\
    promises W !! p = Some (outcome t) /\
    observables W !! d = Some None /\
    observables W !! src = Some None.
Proof.
  intros Ho Ha Hm.
  destruct (chained_stream
              (FFilterListener (fun v => forallb (fun cond => cond v) conditions))
              (fun v => if forallb (fun cond => cond v) conditions
                        then [v] else [])
              fuel src a c vs t rest w) as (W & H1 & H2 & H3);
    [intros; by eapply filter_listener_emits|done..|].
  eexists _, _, W. rewrite flat_map_filter in H2.
  split; [done|]. split; [done|]. split; [|done].
  intros ->. rewrite H2. f_equal. simpl.
  clear. induction vs as [|v vs IH]; [done|]. simpl. by rewrite IH.
Qed.

(** An instance: the values of 1, 2, 4, 0 that are even and truthy, then
    [done()]. *)
Lemma withConditions_requires_every_condition_witness :
  exists d p W,
    consumeDerived 4
      (fun this => Observable.withConditions this [isEven; truthy]) 0 7
      (List.map PTrigger [VNum 1; VNum 2; VNum 4; VNum 0]
         ++ PTerminal TDone :: [])
      sourceWorld
    = Some ((d, p), W) /\
    seen 7 (log W)
    = seen 7 (log sourceWorld)
        ++ List.filter (fun v => forallb (fun cond => cond v) [isEven; truthy])
             [VNum 1; VNum 2; VNum 4; VNum 0] /\
    ([isEven; truthy] = [] ->
     seen 7 (log W)
     = seen 7 (log sourceWorld) ++ [VNum 1; VNum 2; VNum 4; VNum 0]) /\
    promises W !! p = Some (outcome TDone) /\
    observables W !! d = Some None /\
    observables W !! 0 = Some None.
Proof.
  apply (withConditions_requires_every_condition 0 0 0 7 [isEven; truthy]
           [VNum 1; VNum 2; VNum 4; VNum 0] TDone [] sourceWorld);
    reflexivity.
Defined.

Lemma forallb_every (conditions : list (Value -> bool)) v :
  forallb (fun cond => cond v) conditions = Predicates.every conditions v.
Proof.
  induction conditions as [|cond conditions IH]; [done|].
  simpl. rewrite IH. by destruct (cond v).
Qed.

(** X4.  [withConditions(...conditions)] and
    [filter(every(...conditions))], each consumed over the same run of the
    same source: the consumers observe the same values, their results are
    settled alike, and both derived streams are terminal at the end. *)
Theorem withConditions_is_filter_of_every
    fuel src a c conditions vs t rest w :
  observables w !! src = Some (Some a) ->
  arrays w !! a = Some [] ->
  microtasks w = [] ->
  exists d p W W',
    consumeDerived (4 + fuel)
      (fun this => Observable.withConditions this conditions)
      src c (List.map PTrigger vs ++ PTerminal t :: rest) w
    = Some ((d, p), W) /\
    consumeDerived (4 + fuel)
      (fun this => Observable.filter this (Predicates.every conditions))
      src c (List.map PTrigger vs ++ PTerminal t :: rest) w
    = Some ((d, p), W') /\
    seen c (log W) = seen c (log W') /\
    promises W !! p = promises W' !! p /\
    observables W !! d = Some None /\
    observables W' !! d = Some None.
Proof.
  intros Ho Ha Hm.
  destruct (chained_stream
              (FFilterListener (fun v => forallb (fun cond => cond v) conditions))
              (fun v => if forallb (fun cond => cond v) conditions
                        then [v] else [])
              fuel src a c vs t rest w) as (W & H1 & H2 & H3 & H4 & _);
    [intros; by eapply filter_listener_emits|done..|].
  destruct (chained_stream
              (FFilterListener (Predicates.every conditions))
              (fun v => if Predicates.every conditions v then [v] else [])
              fuel src a c vs t rest w) as (W' & H1' & H2' & H3' & H4' & _);
    [intros; by eapply filter_listener_emits|done..|].
  eexists _, _, W, W'.
  split; [exact H1|]. split; [exact H1'|].
  split; [|by rewrite H3, H3'].
  rewrite H2, H2', !flat_map_filter. f_equal.
  apply List.filter_ext. intros v. apply forallb_every.
Qed.

(** An instance: the conditions "even" and "truthy" on 1, 2, 4, 0, then
    [done()]. *)
Lemma withConditions_is_filter_of_every_witness :
  exists d p W W',
    consumeDerived 4
      (fun this => Observable.withConditions this [isEven; truthy]) 0 7
      (List.map PTrigger [VNum 1; VNum 2; VNum 4; VNum 0]
         ++ PTerminal TDone :: [])
      sourceWorld
    = Some ((d, p), W) /\
    consumeDerived 4
      (fun this => Observable.filter this
                     (Predicates.every [isEven; truthy])) 0 7
      (List.map PTrigger [VNum 1; VNum 2; VNum 4; VNum 0]
         ++ PTerminal TDone :: [])
      sourceWorld
    = Some ((d, p), W') /\
    seen 7 (log W) = seen 7 (log W') /\
    promises W !! p = promises W' !! p /\
    observables W !! d = Some None /\
    observables W' !! d = Some None.
Proof.
  apply (withConditions_is_filter_of_every 0 0 0 7 [isEven; truthy]
           [VNum 1; VNum 2; VNum 4; VNum 0] TDone [] sourceWorld);
    reflexivity.
Defined.

(** ** [map] *)

Lemma map_setup mapper src a c w :
  observables w !! src = Some (Some a) ->
  arrays w !! a = Some [] ->
  let d := length (observables w) in
  let p0 := length (promises w) in
  exists W,
    (let* d := Observable.map src mapper in
     let* p := Observable.forEach d (FUser c quiet) in
     ret (d, p)) w = Some ((d, p0 + 1), W) /\
    Wired W src d (FMapListener mapper (FTrigger d)) p0 c (p0 + 1) /\
    promises W !! p0 = Some (Pending []) /\
    promises W !! (p0 + 1) = Some (Pending []) /\
    microtasks W = microtasks w /\
    log W = log w.
Proof.
  intros Ho Ha d p0.
  destruct (fresh_stream_wired src a w Ho Ha) as (H1 & H2 & H3 & H4 & H5 & H6).
  assert (a < length (arrays w)) as Hlta by by eapply lookup_lt_Some.
  unfold Observable.map. rewrite new_consumed. cbv zeta.
  unfold bind.
  erewrite forEach_active; [|exact H1|exact H2].
  world. fold p0. cbn [ret app].
  erewrite forEach_active.
  2:{ world. exact H3. }
  2:{ world. rewrite list_lookup_insert_ne by done. exact H4. }
  world. rewrite length_app. cbn [length]. fold p0.
  rewrite <- app_assoc. cbn [app].
  eexists. split; [reflexivity|].
  split.
  { exists a, (length (arrays w)). world.
    split; [exact H1|].
    split.
    { rewrite list_lookup_insert_ne by done.
      rewrite list_lookup_insert_eq by (rewrite length_app; lia). done. }
    split; [exact H3|].
    split; [|done].
    rewrite list_lookup_insert_eq; [done|].
    rewrite length_insert, length_app. simpl. lia. }
  world.
  split; [by erewrite lookup_app_end|].
  split; [by erewrite lookup_app_plus|]. done.
Qed.

(** X5.  [map(mapper)], consumed from the moment it is returned: for every
    value its source triggers before the first terminal signal the consumer
    observes the image under the mapper, in order.  After the terminal
    signal of the source and the end of the turn, the derived stream is
    still not done and the consumer's result is still pending, whichever the
    signal was. *)
Theorem map_applies_mapper fuel src a c mapper vs t rest w :
  observables w !! src = Some (Some a) ->
  arrays w !! a = Some [] ->
  microtasks w = [] ->
  exists d p W,
    consumeDerived (4 + fuel) (fun this => Observable.map this mapper)
      src c (List.map PTrigger vs ++ PTerminal t :: rest) w
    = Some ((d, p), W) /\
    seen c (log W) = seen c (log w) ++ List.map mapper vs /\
    Observable.isDone d W = Some (false, W) /\
    promises W !! p = Some (Pending []) /\
    observables W !! src = Some None.
Proof.
  intros Ho Ha Hm.
  destruct (map_setup mapper src a c w Ho Ha)
    as (W0 & Hsetup & Hwired & Hp0 & Hpc & Hmicro & Hlog).
  set (d := length (observables w)) in *.
  set (p0 := length (promises w)) in *.
  pose proof (stateless_triggers (FMapListener mapper (FTrigger d))
                (fun v => [mapper v]) src d p0 c (p0 + 1)
                (fun fuel v w => map_listener_emits mapper src d p0 c (p0 + 1)
                                   fuel v w) fuel vs W0 Hwired)
    as Htriggers.
  rewrite flat_map_map in Htriggers.
  set (W1 := recordAll (List.map (Saw c) (List.map mapper vs)) W0) in *.
  destruct Hwired as (a' & ad & Hs & Has & Hd & Had & Hne).
  pose proof (producerCall_terminal_single_slot (2 + fuel) src a' _ p0 t W1
                Hs Has) as Hterm.
  rewrite (settledBy_pending t p0 [] W1 Hp0) in Hterm.
  exists d, (p0 + 1).
  eexists. split.
  - unfold consumeDerived, bind in *.
    destruct (Observable.map src mapper w) as [[d' w']|];
      [|discriminate Hsetup].
    destruct (Observable.forEach d' (FUser c quiet) w') as [[p' w'']|];
      [|discriminate Hsetup].
    injection Hsetup as -> -> ->.
    rewrite producerCalls_app, Htriggers.
    cbn [producerCalls]. unfold bind.
    change (4 + fuel) with (S (S (2 + fuel))) at 1. rewrite Hterm.
    change (4 + fuel) with (S (3 + fuel)) at 1.
    rewrite producerCalls_terminal by lookup_goal.
    unfold endOfTurn. rewrite runMicrotasks_nil; [reflexivity|].
    world. cbn [List.map]. rewrite app_nil_r. subst W1. world. congruence.
  - subst W1. world. split.
    { rewrite !seen_app, seen_saws, Hlog.
      destruct t; simpl; by rewrite app_nil_r. }
    assert (p0 <> p0 + 1) by lia.
    unfold Observable.isDone. world.
    split; [lookups; by rewrite Hd|].
    split; by lookups.
Qed.

(** An instance: the doubles of 1, 2, 3, then [done()]. *)
Lemma map_applies_mapper_witness :
  exists d p W,
    consumeDerived 4 (fun this => Observable.map this double) 0 7
      (List.map PTrigger [VNum 1; VNum 2; VNum 3] ++ PTerminal TDone :: [])
      sourceWorld
    = Some ((d, p), W) /\
    seen 7 (log W) = seen 7 (log sourceWorld)
                     ++ List.map double [VNum 1; VNum 2; VNum 3] /\
    Observable.isDone d W = Some (false, W) /\
    promises W !! p = Some (Pending []) /\
    observables W !! 0 = Some None.
Proof.
  apply (map_applies_mapper 0 0 0 7 double [VNum 1; VNum 2; VNum 3] TDone []
           sourceWorld); reflexivity.
Defined.

(** ** [reduce] *)

Lemma reduce_setup fuel reducer seed src a c w :
  observables w !! src = Some (Some a) ->
  arrays w !! a = Some [] ->
  microtasks w = [] ->
  let d := length (observables w) in
  let p0 := length (promises w) in
  let cell := length (cells w) in
  exists W,
    (let* d := Observable.reduce (S fuel) src seed reducer in
     let* p := Observable.forEach d (FUser c quiet) in
     ret (d, p)) w = Some ((d, p0 + 3), W) /\
    Wired W src d (FReduceListener cell reducer (FTrigger d)) p0 c (p0 + 3) /\
    Chained W d p0 (p0 + 1) (p0 + 2) (p0 + 3) /\
    log W = log w /\ cells W = cells w ++ [seed].
Proof.
  intros Ho Ha Hm d p0 cell.
  destruct (fresh_stream_wired src a w Ho Ha) as (H1 & H2 & H3 & H4 & H5 & H6).
  unfold Observable.reduce. rewrite new_consumed. cbv zeta.
  unfold bind at 1. unfold bind at 1.
  erewrite invoke_trigger_no_consumer; [|exact H3|exact H4].
  destruct (chain_consumed src a (FReduceListener cell reducer (FTrigger d))
               d (length (arrays w)) c
               (set_cells (cells w ++ [seed])
                  (set_observables
                     (observables w ++ [Some (length (arrays w))])
                     (set_arrays (arrays w ++ [[]]) w))))
    as (W & HW & Hrest); [exact H1|exact H2|exact H3|exact H4|done..|].
  unfold bind at 1 in HW. unfold chainBody in HW.
  exists W. split; [|exact Hrest].
  world. fold cell d. by rewrite HW.
Qed.

Lemma reduce_listener_emits reducer cell src d p0 c pc fuel acc v w :
  Wired w src d (FReduceListener cell reducer (FTrigger d)) p0 c pc ->
  cells w !! cell = Some acc ->
  call (S (S (S fuel))) (FReduceListener cell reducer (FTrigger d)) v w
  = returns (recordAll [Saw c (reducer acc v)]
               (set_cells (<[cell := reducer acc v]> (cells w)) w)).
Proof.
  intros (a & ad & _ & _ & Hd & Had & _) Hc.
  change (call (S (S (S fuel))) (FReduceListener cell reducer (FTrigger d)) v w)
    with (match cells w !! cell with
          | Some acc =>
              call (S (S fuel)) (FTrigger d) (reducer acc v)
                   (set_cells (<[cell := reducer acc v]> (cells w)) w)
          | None => None
          end).
  rewrite Hc. by erewrite trigger_quiet_consumer.
Qed.

Lemma reduce_triggers fuel reducer cell src d p0 c pc vs : forall acc w,
  Wired w src d (FReduceListener cell reducer (FTrigger d)) p0 c pc ->
  cells w !! cell = Some acc ->
  producerCalls (4 + fuel) src (List.map PTrigger vs) w
  = Some (tt, recordAll (List.map (Saw c) (runningFold reducer acc vs))
                (set_cells (<[cell := fold_left reducer vs acc]> (cells w)) w)).
Proof.
  induction vs as [|v vs IH]; intros acc w Hw Hc.
  - simpl. by rewrite list_insert_id, set_cells_id, recordAll_nil.
  - change (4 + fuel) with (S (S (S (S fuel)))) in *.
    cbn [List.map producerCalls producerCall runningFold fold_left].
    unfold bind, invoke.
    pose proof Hw as (a & ad & Hs & Has & Hrest).
    erewrite (trigger_one_slot _ src a (slotOf _ p0) v); [|done|done|].
    2:{ cbn [slotOf listener]. by eapply reduce_listener_emits. }
    unfold returns. cbn beta iota.
    erewrite IH; [| exact Hw |].
    2:{ world. apply list_lookup_insert_eq. by eapply lookup_lt_Some. }
    world. rewrite list_insert_insert_eq.
    unfold recordAll, set_log, set_cells. simpl. by rewrite <- app_assoc.
Qed.

(** X6.  [reduce(initialValue, reducer)], consumed from the moment it is
    returned: for the values v1, v2, ... of its source the consumer observes
    [reducer(initialValue, v1)], then the reducer applied to that result and
    v2, and so on, one result per value and never the initial value itself;
    then it gets the outcome of the terminal signal of the source, and the
    derived stream is terminal. *)
Theorem reduce_emits_running_results fuel src a c seed reducer vs t rest w :
  observables w !! src = Some (Some a) ->
  arrays w !! a = Some [] ->
  microtasks w = [] ->
  exists d p W,
    consumeDerived (4 + fuel)
      (fun this => Observable.reduce (4 + fuel) this seed reducer)
      src c (List.map PTrigger vs ++ PTerminal t :: rest) w
    = Some ((d, p), W) /\
    seen c (log W) = seen c (log w) ++ runningFold reducer seed vs /\
    promises W !! p = Some (outcome t) /\
    observables W !! d = Some None /\
    observables W !! src = Some None.
Proof.
  intros Ho Ha Hm.
  destruct (reduce_setup (3 + fuel) reducer seed src a c w Ho Ha Hm)
    as (W0 & Hsetup & Hwired & Hchained & Hlog & Hcells).
  set (d := length (observables w)) in *.
  set (p0 := length (promises w)) in *.
  set (cell := length (cells w)) in *.
  assert (cells W0 !! cell = Some seed) as Hcell.
  { rewrite Hcells. by apply list_lookup_middle. }
  pose proof (reduce_triggers fuel reducer cell src d p0 c (p0 + 3) vs seed W0
                Hwired Hcell) as Htriggers.
  destruct (chained_turn fuel src d (FReduceListener cell reducer (FTrigger d))
              p0 (p0 + 1) (p0 + 2) c (p0 + 3) t
              (recordAll (List.map (Saw c) (runningFold reducer seed vs))
                 (set_cells (<[cell := fold_left reducer vs seed]> (cells W0))
                    W0)))
    as (w1 & w2 & Hterm & Hsrc1 & Hturn & Hd & Hsrc & Hpc & Hseen & _);
    [done|done|].
  exists d, (p0 + 3), w2.
  split.
  - unfold consumeDerived, bind in *.
    destruct (Observable.reduce _ src seed reducer w) as [[d' w']|];
      [|discriminate Hsetup].
    destruct (Observable.forEach d' (FUser c quiet) w') as [[p' w'']|];
      [|discriminate Hsetup].
    injection Hsetup as -> -> ->.
    rewrite producerCalls_app, Htriggers.
    cbn [producerCalls]. unfold bind. rewrite Hterm.
    change (4 + fuel) with (S (3 + fuel)) at 1.
    rewrite producerCalls_terminal by done.
    by rewrite Hturn.
  - split; [|done].
    rewrite Hseen. world. by rewrite seen_app, seen_saws, Hlog.
Qed.

(** An instance: the running sums of 1, 2, 3 from 10, then
    [fail("global")]. *)
Lemma reduce_emits_running_results_witness :
  exists d p W,
    consumeDerived 4 (fun this => Observable.reduce 4 this (VNum 10) plus) 0 7
      (List.map PTrigger [VNum 1; VNum 2; VNum 3]
         ++ PTerminal (TFail (VStr "global")) :: [])
      sourceWorld
    = Some ((d, p), W) /\
    seen 7 (log W) = seen 7 (log sourceWorld)
                     ++ runningFold plus (VNum 10) [VNum 1; VNum 2; VNum 3] /\
    promises W !! p = Some (outcome (TFail (VStr "global"))) /\
    observables W !! d = Some None /\
    observables W !! 0 = Some None.
Proof.
  apply (reduce_emits_running_results 0 0 0 7 (VNum 10) plus
           [VNum 1; VNum 2; VNum 3] (TFail (VStr "global")) [] sourceWorld);
    reflexivity.
Defined.

(** ** [forEach] on a stream that is under way *)

Lemma registry_snoc cs c :
  registry cs ++ [Some (consumerItem c)] = registry (cs ++ [Some c]).
Proof. unfold registry. by rewrite map_app. Qed.

(** X7.  A consumer that registers with [forEach] on an active stream, next
    to the consumers already there: registering shows it nothing of what was
    triggered before.  Of the values triggered afterwards it observes all of
    them in order, or those before the first one its listener throws on, and
    its result is rejected with what the listener threw, or else takes the
    outcome of the terminal signal, whatever the other consumers do. *)
Theorem forEach_observes_later_values fuel this a cs c throws vs t w :
  observables w !! this = Some (Some a) ->
  arrays w !! a = Some (registry cs) ->
  c ∉ consumerIds cs ->
  NoDup (consumerIds cs) ->
  NoDup (promiseIds cs) ->
  Forall (fun q => q < length (promises w)) (promiseIds cs) ->
  exists p w0 W,
    Observable.forEach this (FUser c throws) w = Some (p, w0) /\
    log w0 = log w /\
    producerCalls (2 + fuel) this (List.map PTrigger vs ++ [PTerminal t]) w0
    = Some (tt, W) /\
    seen c (log W) = seen c (log w) ++ observedOf throws vs /\
    promises W !! p = Some (promiseOf throws vs (outcome t)).
Proof.
  intros Ho Ha Hfresh Hc Hp Hbound.
  set (p := length (promises w)).
  set (c' := {| cid := c; cthrows := throws; cpromise := p |}).
  set (cs' := cs ++ [Some c']).
  assert (cs' !! length cs = Some (Some c')) as Hi
    by by apply list_lookup_middle.
  assert (NoDup (consumerIds cs')) as Hc'.
  { unfold consumerIds, cs'. rewrite omap_app. apply NoDup_app.
    split; [done|]. split; [|apply NoDup_singleton].
    intros x Hx. simpl. rewrite list_elem_of_singleton. by intros ->. }
  assert (NoDup (promiseIds cs')) as Hp'.
  { unfold promiseIds, cs'. rewrite omap_app. apply NoDup_app.
    split; [done|]. split; [|apply NoDup_singleton].
    intros x Hx. simpl. rewrite list_elem_of_singleton. intros ->.
    rewrite Forall_forall in Hbound. specialize (Hbound _ Hx). lia. }
  pose proof (forEach_active this a (registry cs) (FUser c throws) w Ho Ha)
    as Hreg.
  fold p in Hreg. change (slotOf (FUser c throws) p) with (consumerItem c')
    in Hreg.
  rewrite registry_snoc in Hreg. fold cs' in Hreg.
  set (w0 := set_arrays (<[a:=registry cs']> (arrays w))
               (set_promises (promises w ++ [Pending []]) w)) in *.
  assert (arrays w0 !! a = Some (registry cs')) as Ha0.
  { simpl. apply list_lookup_insert_eq. by eapply lookup_lt_Some. }
  destruct (triggers_registry fuel this a vs cs' w0 Ho Ha0)
    as (w1 & Hrun1 & Ho1 & Ha1 & Hl1 & Hp1).
  destruct (terminal_registry fuel this a t (survivors vs cs') w1)
    as (w2 & Hrun2 & Ho2 & Hl2 & Hp2); [by rewrite Ho1 | done |].
  assert (promises w0 !! p = Some (Pending [])) as Hpend
    by (simpl; by apply list_lookup_middle).
  assert (Hp1c : promises w1 !! p
                 = Some (promiseOf throws vs (Pending []))).
  { rewrite Hp1. by apply (rejectAllThrowers_sole vs cs' (length cs) c'). }
  pose proof (survivors_lookup vs cs' (length cs) c' Hi) as Hsurv.
  exists p, w0, w2. split; [done|]. split; [done|]. split.
  { rewrite producerCalls_app. change (2 + fuel) with (S (S fuel)).
    rewrite Hrun1. cbn [producerCalls]. unfold bind. by rewrite Hrun2. }
  split.
  { rewrite Hl2, Hl1, !seen_app, seen_settleCalls, app_nil_r.
    pose proof (seen_triggersEvents vs cs' (length cs) c' Hc' Hi) as Hs.
    change (cid c') with c in Hs. change (cthrows c') with throws in Hs.
    by rewrite Hs. }
  rewrite Hp2. unfold promiseOf in *. simpl in Hsurv.
  destruct (firstThrow throws vs) as [[k e]|].
  - by eapply settleAll_settled.
  - eapply (settleAll_sole t _ (length cs) c' _ []); [|done|done].
    eapply sublist_NoDup; [exact Hp' | apply survivors_sublist].
Qed.

(** An instance: a third consumer, which throws "late" on 3, joins the two
    of [twoConsumersWorld]; then 1, 3, 5 and [done()]. *)
Lemma forEach_observes_later_values_witness :
  exists p w0 W,
    Observable.forEach 0 (FUser 2 (throwsOn 3 (VStr "late"))) twoConsumersWorld
    = Some (p, w0) /\
    log w0 = log twoConsumersWorld /\
    producerCalls 2 0
      (List.map PTrigger [VNum 1; VNum 3; VNum 5] ++ [PTerminal TDone]) w0
    = Some (tt, W) /\
    seen 2 (log W)
    = seen 2 (log twoConsumersWorld)
        ++ observedOf (throwsOn 3 (VStr "late")) [VNum 1; VNum 3; VNum 5] /\
    promises W !! p
    = Some (promiseOf (throwsOn 3 (VStr "late")) [VNum 1; VNum 3; VNum 5]
              (outcome TDone)).
Proof.
  apply (forEach_observes_later_values 0 0 0 twoConsumers 2
           (throwsOn 3 (VStr "late")) [VNum 1; VNum 3; VNum 5] TDone
           twoConsumersWorld).
  - reflexivity.
  - reflexivity.
  - apply (bool_decide_unpack _). vm_compute. exact I.
  - apply (bool_decide_unpack _). vm_compute. exact I.
  - apply (bool_decide_unpack _). vm_compute. exact I.
  - apply (bool_decide_unpack _). vm_compute. exact I.
Defined.

(** ** [Observable.throw] *)

Lemma throw_is_terminal fuel error w :
  Observable.throw (S fuel) error w
  = Some (length (observables w), withTerminalObservable w).
Proof.
  destruct (fresh_then_done w) as (Ho & Ha & Hd).
  cbv beta zeta delta [Observable.throw Observable.new].
  by rewrite (invoke_fail_no_consumer fuel _ _ _ _ Ho Ha), Hd.
Qed.

(** X8.  In any world [Observable.throw(error)] returns what
    [Observable.empty()] returns: [fail(error)] runs inside the constructor,
    on a registry nobody is in yet, so the error reaches nobody.  The stream
    is terminal, and a [forEach] on it gets a promise that is resolved, not
    rejected; nothing is observed and no reaction is queued. *)
Theorem throw_loses_its_error fuel error each w :
  Observable.throw (S fuel) error w = Observable.empty (S fuel) w /\
  exists d p W,
    (let* d := Observable.throw (S fuel) error in
     let* p := Observable.forEach d each in
     ret (d, p)) w = Some ((d, p), W) /\
    observables W !! d = Some None /\
    promises W !! p = Some (Fulfilled VUndefined) /\
    microtasks W = microtasks w /\
    log W = log w.
Proof.
  split; [by rewrite empty_is_terminal, throw_is_terminal|].
  unfold bind. rewrite throw_is_terminal.
  assert (observables (withTerminalObservable w) !! length (observables w)
          = Some None) as Ho by (simpl; by apply list_lookup_middle).
  rewrite (forEach_terminal _ _ _ Ho).
  eexists _, _, _. split; [reflexivity|]. split; [exact Ho|].
  split; [|done]. simpl. by apply list_lookup_middle.
Qed.

(** ** A chained stream of a source that has ended *)

(** X9.  [filter(predicate)] of a source that is already terminal, whether
    it was done or had failed, consumed from the moment it is returned: the
    derived stream is still active when it is returned; at the end of the
    turn it is done, and the consumer's result is resolved, nothing having
    been observed. *)
Theorem filter_of_ended_source_is_done fuel src c predicate w :
  observables w !! src = Some None ->
  microtasks w = [] ->
  exists d p W0 W,
    (let* d := Observable.filter src predicate in
     let* p := Observable.forEach d (FUser c quiet) in
     ret (d, p)) w = Some ((d, p), W0) /\
    Observable.isDone d W0 = Some (false, W0) /\
    endOfTurn (3 + fuel) W0 = Some (tt, W) /\
    Observable.isDone d W = Some (true, W) /\
    promises W !! p = Some (Fulfilled VUndefined) /\
    seen c (log W) = seen c (log w).
Proof.
  intros Ho Hm.
  assert (src < length (observables w)) as Hlt by by eapply lookup_lt_Some.
  set (d := length (observables w)). set (ad := length (arrays w)).
  set (p0 := length (promises w)).
  unfold Observable.filter. rewrite new_consumed. cbv zeta. fold d ad.
  unfold bind.
  erewrite forEach_terminal by (world; by rewrite lookup_app_l).
  world. fold p0. unfold promiseThen, promiseCatch.
  erewrite addReaction_fulfilled.
  2:{ world. by erewrite lookup_app_end. }
  world. rewrite length_app. cbn [length]. fold p0.
  rewrite <- app_assoc, Hm. cbn [app].
  erewrite addReaction_pending.
  2:{ world. by erewrite lookup_app_plus. }
  world. rewrite length_app. cbn [length]. fold p0.
  rewrite <- app_assoc. cbn [app ret].
  rewrite (insert_app_plus (promises w)) by done. cbn [insert list_insert].
  erewrite forEach_active.
  2:{ world. by apply list_lookup_middle. }
  2:{ world. by apply list_lookup_middle. }
  world. rewrite length_app. cbn [length app]. fold p0.
  rewrite <- app_assoc. cbn [app].
  rewrite (insert_app_end (arrays w)) by done. cbn [insert list_insert].
  eexists _, _, _, _. split; [reflexivity|].
  split.
  { unfold Observable.isDone. world.
    by rewrite (list_lookup_middle (observables w) [] (Some ad) d). }
  unfold endOfTurn. change (3 + fuel) with (S (S (S fuel))).
  erewrite runMicrotasks_cons by (world; reflexivity).
  erewrite runJob_handler by reflexivity.
  erewrite (call_terminal_single_slot _ d ad _ (p0 + 3) TDone VUndefined).
  2:{ world. by apply list_lookup_middle. }
  2:{ world. by apply list_lookup_middle. }
  erewrite (settledBy_pending TDone (p0 + 3)).
  2:{ world. by erewrite lookup_app_plus. }
  cbn [returns derivedPromise]. world. cbn [app List.map].
  rewrite (insert_app_plus (promises w)) by done. cbn [insert list_insert].
  erewrite settle_pending.
  2:{ world. by erewrite lookup_app_plus. }
  world. cbn [app List.map].
  rewrite (insert_app_plus (promises w)) by done. cbn [insert list_insert].
  erewrite runMicrotasks_cons by (world; reflexivity).
  erewrite runJob_passes by reflexivity.
  cbn [derivedPromise jobRejected jobValue].
  erewrite settle_pending.
  2:{ world. by erewrite lookup_app_plus. }
  world. cbn [app List.map].
  rewrite (insert_app_plus (promises w)) by done. cbn [insert list_insert].
  erewrite runMicrotasks_nil by (world; reflexivity).
  split; [reflexivity|].
  unfold Observable.isDone. world.
  rewrite (insert_app_end (observables w)) by done. cbn [insert list_insert].
  rewrite (list_lookup_middle (observables w) [] None d) by done.
  split; [done|].
  split; [by erewrite lookup_app_plus|].
  by rewrite seen_app, app_nil_r.
Qed.

(** An instance: the terminal stream of [withTerminalObservable]. *)
Lemma filter_of_ended_source_is_done_witness :
  exists d p W0 W,
    (let* d := Observable.filter 0 isEven in
     let* p := Observable.forEach d (FUser 7 quiet) in
     ret (d, p)) (withTerminalObservable initialWorld)
    = Some ((d, p), W0) /\
    Observable.isDone d W0 = Some (false, W0) /\
    endOfTurn 3 W0 = Some (tt, W) /\
    Observable.isDone d W = Some (true, W) /\
    promises W !! p = Some (Fulfilled VUndefined) /\
    seen 7 (log W) = seen 7 (log (withTerminalObservable initialWorld)).
Proof.
  apply (filter_of_ended_source_is_done 0 0 7 isEven
           (withTerminalObservable initialWorld)); reflexivity.
Defined.

(** ** Terminal signals on a registry of [forEach] *)

(** X26.  On an Observable with consumers registered by [forEach], after any
    run of [trigger] calls the first terminal signal calls the resolving (for
    [done]) or rejecting (for [fail]) function of every slot still registered
    exactly once, in registration order, and does nothing else observable;
    the pending results take the outcome; the registry is discarded.  From
    then on every [trigger], [done] and [fail] leaves the world as it is. *)
Theorem terminal_signal_is_final fuel this a cs vs t rest w :
  observables w !! this = Some (Some a) ->
  arrays w !! a = Some (registry cs) ->
  exists w1 w2,
    producerCalls (S (S fuel)) this (List.map PTrigger vs) w = Some (tt, w1) /\
    arrays w1 !! a = Some (registry (survivors vs cs)) /\
    producerCall (S (S fuel)) this (PTerminal t) w1 = Some (tt, w2) /\
    log w2 = log w1 ++ settleCalls t (survivors vs cs) /\
    (forall i c rs,
        survivors vs cs !! i = Some (Some c) ->
        promises w1 !! cpromise c = Some (Pending rs) ->
        promises w2 !! cpromise c = Some (outcome t)) /\
    observables w2 !! this = Some None /\
    producerCalls (S (S fuel)) this rest w2 = Some (tt, w2) /\
    producerCalls (S (S fuel)) this
      (List.map PTrigger vs ++ PTerminal t :: rest) w = Some (tt, w2).
Proof.
  intros Ho Ha.
  destruct (triggers_registry fuel this a vs cs w Ho Ha)
    as (w1 & Hrun1 & Ho1 & Ha1 & Hl1 & Hp1).
  destruct (terminal_registry fuel this a t (survivors vs cs) w1)
    as (w2 & Hrun2 & Ho2 & Hl2 & Hp2); [by rewrite Ho1 | done |].
  pose proof (producerCalls_terminal (S fuel) this rest w2 Ho2) as Habs.
  exists w1, w2. repeat split; try done.
  - intros i c rs Hi Hpend. rewrite Hp2.
    eapply settleAll_member; [|done]. by eapply promiseIds_lookup.
  - rewrite producerCalls_app, Hrun1. cbn [producerCalls]. unfold bind.
    by rewrite Hrun2.
Qed.

(** An instance: two consumers, the values 1, 2, 3, then [fail("global")],
    then a [trigger] and a [done]. *)
Lemma terminal_signal_is_final_witness :
  exists w1 w2,
    producerCalls 2 0 (List.map PTrigger [VNum 1; VNum 2; VNum 3])
                  twoConsumersWorld = Some (tt, w1) /\
    arrays w1 !! 0
    = Some (registry (survivors [VNum 1; VNum 2; VNum 3] twoConsumers)) /\
    producerCall 2 0 (PTerminal (TFail (VStr "global"))) w1 = Some (tt, w2) /\
    log w2 = log w1 ++ settleCalls (TFail (VStr "global"))
                         (survivors [VNum 1; VNum 2; VNum 3] twoConsumers) /\
    (forall i c rs,
        survivors [VNum 1; VNum 2; VNum 3] twoConsumers !! i = Some (Some c) ->
        promises w1 !! cpromise c = Some (Pending rs) ->
        promises w2 !! cpromise c = Some (outcome (TFail (VStr "global")))) /\
    observables w2 !! 0 = Some None /\
    producerCalls 2 0 [PTrigger (VNum 4); PTerminal TDone] w2 = Some (tt, w2) /\
    producerCalls 2 0
      (List.map PTrigger [VNum 1; VNum 2; VNum 3]
         ++ PTerminal (TFail (VStr "global"))
         :: [PTrigger (VNum 4); PTerminal TDone])
      twoConsumersWorld = Some (tt, w2).
Proof.
  apply (terminal_signal_is_final 0 0 0 twoConsumers
           [VNum 1; VNum 2; VNum 3] (TFail (VStr "global"))
           [PTrigger (VNum 4); PTerminal TDone] twoConsumersWorld);
    reflexivity.
Defined.

(** ** [then] *)

(** X10.  [then(action)] on an active stream nobody has registered on: the
    values triggered afterwards leave the action alone; [done()] runs the
    action, once, and resolves the promise with what the action returns;
    [fail(error)] rejects the promise with the error and never runs the
    action.  The stream is terminal afterwards. *)
Theorem then_runs_action_on_done_only fuel this a c result vs t rest w :
  observables w !! this = Some (Some a) ->
  arrays w !! a = Some [] ->
  exists p W,
    (let* p := Observable.then_ (3 + fuel) this (FAction c result) in
     producerCalls (3 + fuel) this
       (List.map PTrigger vs ++ PTerminal t :: rest);;
     ret p) w = Some (p, W) /\
    seen c (log W)
    = seen c (log w) ++ match t with
                        | TDone => [VUndefined]
                        | TFail _ => []
                        end /\
    promises W !! p = Some (match t with
                            | TDone => Fulfilled result
                            | TFail err => Rejected err
                            end) /\
    observables W !! this = Some None.
Proof.
  intros Ho Ha.
  assert (a < length (arrays w)) as Hlt by by eapply lookup_lt_Some.
  set (p := length (promises w)).
  set (w0 := set_arrays (<[a := [Some (thenItem (FAction c result) p)]]>
                           (arrays w))
               (set_promises (promises w ++ [Pending []]) w)).
  assert (arrays w0 !! a = Some [Some (thenItem (FAction c result) p)]) as Ha0
    by (simpl; by apply list_lookup_insert_eq).
  assert (promises w0 !! p = Some (Pending [])) as Hp
    by (simpl; by apply list_lookup_middle).
  assert (observables w0 !! this = Some (Some a)) as Ho0 by exact Ho.
  assert (p < length (promises w0)) as Hltp by by eapply lookup_lt_Some.
  assert (this < length (observables w0)) as Hlto by by eapply lookup_lt_Some.
  unfold bind. rewrite (then_active this a [] _ _ w Ho Ha).
  cbn [app]. fold p w0.
  rewrite producerCalls_app.
  change (3 + fuel) with (S (S (S fuel))).
  rewrite (triggers_noop_slot _ this a _ vs w0 Ho0 Ha0 eq_refl).
  cbn [producerCalls]. unfold bind.
  destruct t as [|err]; unfold producerCall, invoke.
  - rewrite call_done, Ho0. unfold arrayForEach. rewrite Ha0.
    cbn [length forEachFrom]. rewrite Ha0.
    cbn [lookup list_lookup doneEach thenItem resolve].
    change (call (S (S fuel)) (FThenResolve (FResolve p) (FAction c result))
                 VUndefined w0)
      with (returns (settle p false result
                       (record (CalledResolve p result)
                          (record (Saw c VUndefined) w0)))).
    erewrite settle_pending by exact Hp.
    cbn [returns andThen].
    rewrite producerCalls_terminal by lookup_goal.
    eexists _, _. split; [reflexivity|]. world.
    split; [by rewrite !seen_app; simpl; rewrite Nat.eqb_refl, app_nil_r|].
    split; by lookups.
  - rewrite call_fail, Ho0. unfold arrayForEach. rewrite Ha0.
    cbn [length forEachFrom]. rewrite Ha0.
    cbn [lookup list_lookup failEach thenItem reject].
    change (call (S (S fuel)) (FReject p) err w0)
      with (returns (settle p true err (record (CalledReject p err) w0))).
    erewrite settle_pending by exact Hp.
    cbn [returns andThen].
    rewrite producerCalls_terminal by lookup_goal.
    eexists _, _. split; [reflexivity|]. world.
    split; [by rewrite !seen_app; simpl; rewrite !app_nil_r|].
    split; by lookups.
Qed.

(** An instance: an action that returns 42; 1 and 2 are triggered, then
    [done()], then [fail("failed")]. *)
Lemma then_runs_action_on_done_only_witness :
  exists p W,
    (let* p := Observable.then_ 3 0 (FAction 7 (VNum 42)) in
     producerCalls 3 0
       (List.map PTrigger [VNum 1; VNum 2]
          ++ PTerminal TDone :: [PTerminal (TFail (VStr "failed"))]);;
     ret p) sourceWorld = Some (p, W) /\
    seen 7 (log W) = seen 7 (log sourceWorld) ++ [VUndefined] /\
    promises W !! p = Some (Fulfilled (VNum 42)) /\
    observables W !! 0 = Some None.
Proof.
  apply (then_runs_action_on_done_only 0 0 0 7 (VNum 42) [VNum 1; VNum 2]
           TDone [PTerminal (TFail (VStr "failed"))] sourceWorld);
    reflexivity.
Defined.

(** X11.  [then(action)] on a stream that is already terminal, whether it
    was done or had failed: the action runs at once, inside the call, and the
    promise returned is resolved with what the action returns; no reaction is
    queued. *)
Theorem then_after_terminal_runs_action fuel this c result w :
  observables w !! this = Some None ->
  exists p W,
    Observable.then_ (S fuel) this (FAction c result) w = Some (p, W) /\
    seen c (log W) = seen c (log w) ++ [VUndefined] /\
    promises W !! p = Some (Fulfilled result) /\
    microtasks W = microtasks w.
Proof.
  intros Ho.
  unfold Observable.then_, bind, Observable.isDone. rewrite Ho.
  eexists _, _. split; [reflexivity|]. simpl.
  split; [by rewrite seen_app; simpl; rewrite Nat.eqb_refl|].
  split; [by apply list_lookup_middle|done].
Qed.

(** An instance: an action that returns 42, on the terminal stream of
    [withTerminalObservable]. *)
Lemma then_after_terminal_runs_action_witness :
  exists p W,
    Observable.then_ 1 0 (FAction 7 (VNum 42))
      (withTerminalObservable initialWorld)
    = Some (p, W) /\
    seen 7 (log W)
    = seen 7 (log (withTerminalObservable initialWorld)) ++ [VUndefined] /\
    promises W !! p = Some (Fulfilled (VNum 42)) /\
    microtasks W = microtasks (withTerminalObservable initialWorld).
Proof.
  apply (then_after_terminal_runs_action 0 0 7 (VNum 42)
           (withTerminalObservable initialWorld)).
  reflexivity.
Defined.

(** X12.  An action of [then] that throws: the exception leaves [done()]
    before the registry is discarded.  With a [forEach] registered after the
    [then], the call of [done()] ends with the exception and changes
    nothing: the stream is still active, and the results of [then] and of
    [forEach] are still pending. *)
Theorem then_action_throw_blocks_done fuel this a c throws e c2 w :
  observables w !! this = Some (Some a) ->
  arrays w !! a = Some [] ->
  throws VUndefined = Some e ->
  exists p q W,
    (let* p := Observable.then_ (3 + fuel) this (FUser c throws) in
     let* q := Observable.forEach this (FUser c2 quiet) in
     ret (p, q)) w = Some ((p, q), W) /\
    call (3 + fuel) (FDone this) VUndefined W = Some (Throw e, W) /\
    Observable.isDone this W = Some (false, W) /\
    promises W !! p = Some (Pending []) /\
    promises W !! q = Some (Pending []).
Proof.
  intros Ho Ha Hthrows.
  assert (a < length (arrays w)) as Hlt by by eapply lookup_lt_Some.
  unfold bind. rewrite (then_active this a [] _ _ w Ho Ha). cbn [app].
  erewrite forEach_active; [|exact Ho|].
  2:{ simpl. by apply list_lookup_insert_eq. }
  cbn [app ret]. world. rewrite list_insert_insert_eq, length_app.
  cbn [length]. rewrite <- app_assoc. cbn [app].
  set (p := length (promises w)).
  eexists _, _, _. split; [reflexivity|].
  split.
  { change (3 + fuel) with (S (S (S fuel))).
    rewrite call_done. world. rewrite Ho. unfold arrayForEach. world.
    rewrite list_lookup_insert_eq by done.
    cbn [length forEachFrom]. world. rewrite list_lookup_insert_eq by done.
    cbn [lookup list_lookup doneEach thenItem resolve].
    change (call (S (S fuel)) (FThenResolve (FResolve p) (FUser c throws))
                 VUndefined ?w0)
      with (andThen (match throws VUndefined with
                     | Some e => Some (Throw e, w0)
                     | None => returns (record (Saw c VUndefined) w0)
                     end)
                    (fun r w' => call (S fuel) (FResolve p) r w')).
    rewrite Hthrows. reflexivity. }
  unfold Observable.isDone. world. rewrite Ho.
  split; [done|].
  split; [by erewrite lookup_app_end|by erewrite lookup_app_plus].
Qed.

(** An instance: an action that throws "boom" whatever it is given. *)
Lemma then_action_throw_blocks_done_witness :
  exists p q W,
    (let* p := Observable.then_ 3 0
                 (FUser 7 (fun _ => Some (VStr "boom"))) in
     let* q := Observable.forEach 0 (FUser 8 quiet) in
     ret (p, q)) sourceWorld = Some ((p, q), W) /\
    call 3 (FDone 0) VUndefined W = Some (Throw (VStr "boom"), W) /\
    Observable.isDone 0 W = Some (false, W) /\
    promises W !! p = Some (Pending []) /\
    promises W !! q = Some (Pending []).
Proof.
  apply (then_action_throw_blocks_done 0 0 0 7
           (fun _ => Some (VStr "boom")) (VStr "boom") 8 sourceWorld);
    reflexivity.
Defined.

(** ** The pull adapter, end to end *)

(** The constructor, on a source nobody has registered on. *)
Lemma new_adapter src a w :
  observables w !! src = Some (Some a) ->
  arrays w !! a = Some [] ->
  let it := length (iterators w) in
  let p0 := length (promises w) in
  ObservableAsyncIterator.new src w
  = Some (it,
          set_promises
            (promises w ++
               [Pending [{| onFulfilled := Some (FIterDone it);
                            onRejected := None;
                            derivedPromise := p0 + 1 |}];
                Pending [{| onFulfilled := None;
                            onRejected := Some (FIterFail it);
                            derivedPromise := p0 + 2 |}];
                Pending []])
            (set_arrays (<[a := [Some (slotOf (FIterValue it) p0)]]> (arrays w))
               (set_iterators (iterators w ++ [iteratorState [] [] None]) w))).
Proof.
  intros Ho Ha it p0.
  pose proof (chainBody_runs src a (FIterValue it) (FIterDone it)
                (FIterFail it)
                (set_iterators (iterators w ++ [iteratorState [] [] None]) w)
                Ho Ha) as H.
  cbv zeta in H. unfold chainBody, bind in H.
  unfold ObservableAsyncIterator.new, bind. fold it.
  fold (iteratorState [] [] None).
  destruct (Observable.forEach src (FIterValue it) _) as [[p w1]|];
    [|discriminate H].
  destruct (promiseThen p (FIterDone it) w1) as [[p' w2]|]; [|discriminate H].
  destruct (promiseCatch p' (FIterFail it) w2) as [[p'' w3]|];
    [|discriminate H].
  cbn [ret] in *. by injection H as ->.
Qed.

(** Buffered truthy values are handed out first in, first out. *)
Lemma pulls_buffered this vs : forall dm q dn w,
  iterators w !! this = Some (iteratorState dm (vs ++ q) dn) ->
  Forall (fun v => truthy v = true) vs ->
  pulls this (length vs) w
  = Some (seq (length (promises w)) (length vs),
          set_iterators (<[this := iteratorState dm q dn]> (iterators w))
            (set_promises (promises w ++ List.map Fulfilled vs) w)).
Proof.
  induction vs as [|v vs IH]; intros dm q dn w Hit Hall.
  - cbn [length pulls seq List.map app ret].
    rewrite app_nil_r, list_insert_id by done.
    by destruct w.
  - apply Forall_cons in Hall as [Hv Hall].
    cbn [length pulls seq]. unfold bind.
    destruct (next_truthy_head this dm v (vs ++ q) dn w Hit Hv)
      as (w' & Hnext & Hp & Hit').
    rewrite Hnext.
    rewrite (IH dm q dn w' Hit' Hall). cbn [ret].
    rewrite Hp, length_app. cbn [length].
    rewrite Nat.add_1_r. do 2 f_equal.
    rewrite <- app_assoc. cbn [app List.map].
    unfold ObservableAsyncIterator.next in Hnext. rewrite Hit in Hnext.
    cbn in Hnext. unfold iteratorState in *. cbn in Hnext.
    rewrite Hv in Hnext. injection Hnext as <-.
    cbn. by rewrite list_insert_insert_eq.
Qed.

(** Pulls on an empty queue, before the end of the source, wait. *)
Lemma pulls_pending this n : forall dm w,
  iterators w !! this = Some (iteratorState dm [] None) ->
  pulls this n w
  = Some (seq (length (promises w)) n,
          set_iterators
            (<[this := iteratorState
                         (dm ++ List.map pullOf (seq (length (promises w)) n))
                         [] None]> (iterators w))
            (set_promises (promises w ++ replicate n (Pending [])) w)).
Proof.
  induction n as [|n IH]; intros dm w Hit.
  - cbn [pulls seq List.map replicate ret].
    rewrite !app_nil_r, list_insert_id by done. by destruct w.
  - assert (this < length (iterators w)) as Hlt by by eapply lookup_lt_Some.
    cbn [pulls seq]. unfold bind.
    unfold ObservableAsyncIterator.next at 1. rewrite Hit.
    cbn [iteratorState queued demanded done truthy allocPromise tail].
    world. rewrite list_insert_insert_eq.
    erewrite IH.
    2:{ world. by apply list_lookup_insert_eq. }
    cbn [ret]. world.
    rewrite list_insert_insert_eq, length_app. cbn [length].
    rewrite Nat.add_1_r, <- !app_assoc. reflexivity.
Qed.

(** A run of values on a source that feeds the adapter: the values go to
    the waiting pulls, oldest first, and the rest is queued. *)
Lemma feed_adapter fuel src a it p0 vs : forall ps q dn w,
  observables w !! src = Some (Some a) ->
  arrays w !! a = Some [Some (slotOf (FIterValue it) p0)] ->
  iterators w !! it = Some (iteratorState (List.map pullOf ps) q dn) ->
  NoDup ps ->
  Forall (fun p => promises w !! p = Some (Pending [])) ps ->
  producerCalls (3 + fuel) src (List.map PTrigger vs) w
  = Some (tt,
          set_log (log w ++ resolveCalls (zip ps vs))
            (set_promises (fulfil (zip ps vs) (promises w))
               (set_iterators
                  (<[it := iteratorState
                             (List.map pullOf (drop (length vs) ps))
                             (q ++ drop (length ps) vs) dn]> (iterators w))
                  w))).
Proof.
  change (3 + fuel) with (S (S (S fuel))).
  induction vs as [|v vs IH]; intros ps q dn w Ho Ha Hit Hnd Hpend.
  - cbn [List.map producerCalls length drop ret].
    rewrite zip_with_nil_r, drop_nil, !app_nil_r.
    rewrite list_insert_id by done. by destruct w.
  - assert (it < length (iterators w)) as Hlt by by eapply lookup_lt_Some.
    cbn [List.map producerCalls producerCall]. unfold bind, invoke.
    destruct ps as [|p ps].
    + erewrite (trigger_one_slot _ src a _ v VUndefined w); [|done|done|].
      2:{ cbn [slotOf listener]. by erewrite value_is_queued. }
      cbn [returns].
      erewrite (IH [] (q ++ [v]) dn); [|done|done| |done|done].
      2:{ world. by apply list_lookup_insert_eq. }
      world. rewrite list_insert_insert_eq.
      cbn [length drop zip_with resolveCalls fulfil fold_left List.map].
      rewrite drop_nil, <- app_assoc. reflexivity.
    + apply NoDup_cons in Hnd as [Hp Hnd].
      apply Forall_cons in Hpend as [Hpp Hpend].
      erewrite (trigger_one_slot _ src a _ v VUndefined w); [|done|done|].
      2:{ cbn [slotOf listener].
          erewrite (value_feeds_oldest_pull fuel it p); [|exact Hit].
          erewrite settle_pending by (world; exact Hpp).
          reflexivity. }
      cbn [returns].
      erewrite (IH ps q dn); [|done|done| |done|].
      2:{ world. by apply list_lookup_insert_eq. }
      2:{ apply Forall_forall. intros x Hx. world.
          rewrite Forall_forall in Hpend.
          rewrite list_lookup_insert_ne by (intros ->; done).
          by apply Hpend. }
      world. rewrite list_insert_insert_eq.
      cbn [length drop zip_with resolveCalls fulfil fold_left List.map fst snd
           app].
      rewrite app_nil_r, <- app_assoc.
      unfold set_log, set_promises, set_iterators, set_microtasks. simpl.
      reflexivity.
Qed.

Lemma fulfil_other pvs p : forall l,
  p ∉ List.map fst pvs -> fulfil pvs l !! p = l !! p.
Proof.
  induction pvs as [|pv pvs IH]; intros l Hp; [done|].
  cbn [List.map] in Hp. apply not_elem_of_cons in Hp as [Hne Hp].
  cbn [fulfil fold_left]. fold (fulfil pvs).
  rewrite IH by done. by rewrite list_lookup_insert_ne.
Qed.

Lemma zip_fst_subset (ps : list nat) (vs : list Value) p :
  p ∈ List.map fst (zip ps vs) -> p ∈ ps.
Proof.
  revert vs. induction ps as [|q ps IH]; intros [|v vs]; simpl;
    try (by intros H; apply elem_of_nil in H).
  intros H. apply elem_of_cons in H as [->|H]; [by left|].
  right. by eapply IH.
Qed.

Lemma fulfil_lookup ps : forall vs l i p,
  NoDup ps -> ps !! i = Some p -> p < length l ->
  fulfil (zip ps vs) l !! p
  = match vs !! i with
    | Some v => Some (Fulfilled v)
    | None => l !! p
    end.
Proof.
  induction ps as [|q ps IH]; intros vs l i p Hnd Hi Hlt; [done|].
  apply NoDup_cons in Hnd as [Hq Hnd].
  destruct vs as [|v vs]; [by destruct i|].
  cbn [zip_with fulfil fold_left fst snd]. fold (fulfil (zip ps vs)).
  destruct i as [|i]; simpl in Hi.
  - injection Hi as ->. rewrite fulfil_other.
    + simpl. by rewrite list_lookup_insert_eq.
    + intros H. by apply zip_fst_subset in H.
  - rewrite (IH vs _ i p Hnd Hi) by (by rewrite length_insert).
    simpl. destruct (vs !! i); [done|].
    rewrite list_lookup_insert_ne; [done|].
    intros ->. apply Hq. by eapply list_elem_of_lookup_2.
Qed.

(** X14.  Pulls made before the values arrive.  After [n] calls of [next()]
    on a new adapter, the values the source triggers go to the promises of
    those calls in the order of the calls, whatever the values are: the i-th
    promise is resolved with the i-th value, or still pending when there
    have been fewer values.  The calls not yet served stay in [demanded];
    the values beyond the n-th are queued. *)
Theorem pending_pulls_are_served_in_order fuel src a n vs w :
  observables w !! src = Some (Some a) ->
  arrays w !! a = Some [] ->
  exists it ps W,
    (let* it := ObservableAsyncIterator.new src in
     let* ps := pulls it n in
     producerCalls (3 + fuel) src (List.map PTrigger vs);;
     ret (it, ps)) w = Some ((it, ps), W) /\
    length ps = n /\
    NoDup ps /\
    (forall i p,
        ps !! i = Some p ->
        promises W !! p = Some (match vs !! i with
                                | Some v => Fulfilled v
                                | None => Pending []
                                end)) /\
    iterators W !! it
    = Some (iteratorState (List.map pullOf (drop (length vs) ps))
                          (drop n vs) None).
Proof.
  intros Ho Ha.
  assert (a < length (arrays w)) as Hlta by by eapply lookup_lt_Some.
  unfold bind. rewrite (new_adapter src a w Ho Ha).
  set (it := length (iterators w)). set (p0 := length (promises w)).
  erewrite (pulls_pending it n []).
  2:{ world. by apply list_lookup_middle. }
  world. cbn [app].
  set (P := promises w ++ _).
  set (ps := seq (length P) n).
  assert (forall i p, ps !! i = Some p ->
            (P ++ replicate n (Pending [])) !! p = Some (Pending [])) as Hpend.
  { intros i p Hi. apply lookup_seq in Hi as [-> Hi].
    rewrite lookup_app_r by lia. apply lookup_replicate. split; [done|lia]. }
  erewrite (feed_adapter fuel src a it p0 vs ps [] None).
  - cbn [ret]. eexists _, _, _. split; [reflexivity|]. world.
    split; [apply length_seq|]. split; [apply NoDup_seq|].
    split.
    + intros i p Hi. erewrite fulfil_lookup; [|apply NoDup_seq|exact Hi|].
      * destruct (vs !! i); [done|]. by eapply Hpend.
      * eapply lookup_lt_Some. by eapply Hpend.
    + rewrite list_insert_insert_eq.
      replace (length ps) with n by (symmetry; apply length_seq).
      cbn [app].
      apply list_lookup_insert_eq. rewrite length_app. simpl. lia.
  - exact Ho.
  - world. by apply list_lookup_insert_eq.
  - world. apply list_lookup_insert_eq. rewrite length_app. simpl. lia.
  - apply NoDup_seq.
  - apply Forall_forall. intros p Hp. world.
    apply list_elem_of_lookup in Hp as [i Hi]. by eapply Hpend.
Qed.

(** An instance: three pulls, then the values 0 and 5. *)
Lemma pending_pulls_are_served_in_order_witness :
  exists it ps W,
    (let* it := ObservableAsyncIterator.new 0 in
     let* ps := pulls it 3 in
     producerCalls 3 0 (List.map PTrigger [VNum 0; VNum 5]);;
     ret (it, ps)) sourceWorld = Some ((it, ps), W) /\
    length ps = 3 /\
    NoDup ps /\
    (forall i p,
        ps !! i = Some p ->
        promises W !! p = Some (match [VNum 0; VNum 5] !! i with
                                | Some v => Fulfilled v
                                | None => Pending []
                                end)) /\
    iterators W !! it
    = Some (iteratorState
              (List.map pullOf (drop (length [VNum 0; VNum 5]) ps))
              (drop 3 [VNum 0; VNum 5]) None).
Proof.
  apply (pending_pulls_are_served_in_order 0 0 0 3 [VNum 0; VNum 5]
           sourceWorld); reflexivity.
Defined.

(** X15.  Values that arrive before the pulls.  When the source has
    triggered values that are all truthy on a new adapter, as many calls of
    [next()] return promises resolved with those values, in the order in
    which they were triggered, and the queue is empty again. *)
Theorem buffered_values_are_pulled_in_order fuel src a vs w :
  observables w !! src = Some (Some a) ->
  arrays w !! a = Some [] ->
  Forall (fun v => truthy v = true) vs ->
  exists it ps W,
    (let* it := ObservableAsyncIterator.new src in
     producerCalls (3 + fuel) src (List.map PTrigger vs);;
     let* ps := pulls it (length vs) in
     ret (it, ps)) w = Some ((it, ps), W) /\
    List.map (fun p => promises W !! p) ps
    = List.map (fun v => Some (Fulfilled v)) vs /\
    iterators W !! it = Some (iteratorState [] [] None).
Proof.
  intros Ho Ha Htruthy.
  assert (a < length (arrays w)) as Hlta by by eapply lookup_lt_Some.
  unfold bind. rewrite (new_adapter src a w Ho Ha).
  set (it := length (iterators w)). set (p0 := length (promises w)).
  erewrite (feed_adapter fuel src a it p0 vs [] [] None).
  2:{ exact Ho. }
  2:{ world. by apply list_lookup_insert_eq. }
  2:{ world. by apply list_lookup_middle. }
  2:{ apply NoDup_nil_2. }
  2:{ apply Forall_nil_2. }
  cbn [zip_with fulfil fold_left resolveCalls List.map length drop app].
  world. rewrite drop_nil. cbn [List.map].
  erewrite (pulls_buffered it vs [] [] None); [| |exact Htruthy].
  2:{ world. rewrite app_nil_r. apply list_lookup_insert_eq.
      rewrite length_app. simpl. lia. }
  cbn [ret]. eexists _, _, _. split; [reflexivity|]. world.
  set (P := promises w ++ _).
  split.
  - clearbody P. clear. revert P.
    induction vs as [|v vs IH]; intros P; [done|].
    cbn [length seq List.map]. f_equal.
    + by apply list_lookup_middle.
    + specialize (IH (P ++ [Fulfilled v])).
      rewrite length_app, <- app_assoc in IH. cbn [length app] in IH.
      by rewrite Nat.add_1_r in IH.
  - apply list_lookup_insert_eq.
    rewrite length_insert, length_app. simpl. lia.
Qed.

(** An instance: the values 3, 1, 2, then three pulls. *)
Lemma buffered_values_are_pulled_in_order_witness :
  exists it ps W,
    (let* it := ObservableAsyncIterator.new 0 in
     producerCalls 3 0 (List.map PTrigger [VNum 3; VNum 1; VNum 2]);;
     let* ps := pulls it (length [VNum 3; VNum 1; VNum 2]) in
     ret (it, ps)) sourceWorld = Some ((it, ps), W) /\
    List.map (fun p => promises W !! p) ps
    = List.map (fun v => Some (Fulfilled v)) [VNum 3; VNum 1; VNum 2] /\
    iterators W !! it = Some (iteratorState [] [] None).
Proof.
  apply (buffered_values_are_pulled_in_order 0 0 0 [VNum 3; VNum 1; VNum 2]
           sourceWorld).
  - reflexivity.
  - reflexivity.
  - repeat constructor.
Defined.

(** *** The end of the source *)

Lemma settleEach_cons st p ps l :
  settleEach st (p :: ps) l = settleEach st ps (<[p := st]> l).
Proof. reflexivity. Qed.

Lemma settleEach_length st ps : forall l,
  length (settleEach st ps l) = length l.
Proof.
  induction ps as [|p ps IH]; intros l; [done|].
  by rewrite settleEach_cons, IH, length_insert.
Qed.

Lemma settleEach_other st ps p : forall l,
  p ∉ ps -> settleEach st ps l !! p = l !! p.
Proof.
  induction ps as [|q ps IH]; intros l Hp; [done|].
  apply not_elem_of_cons in Hp as [Hne Hp].
  rewrite settleEach_cons, IH by done. by rewrite list_lookup_insert_ne.
Qed.

Lemma settleEach_member st ps p : forall l,
  p ∈ ps -> p < length l -> settleEach st ps l !! p = Some st.
Proof.
  induction ps as [|q ps IH]; intros l Hp Hlt.
  - by apply elem_of_nil in Hp.
  - rewrite settleEach_cons.
    destruct (decide (p ∈ ps)) as [Hin|Hout].
    + apply IH; [done|]. by rewrite length_insert.
    + apply elem_of_cons in Hp as [->|Hp]; [|done].
      rewrite settleEach_other by done. by apply list_lookup_insert_eq.
Qed.

Lemma settled_pulls st ps l :
  Forall (fun p => p < length l) ps ->
  (forall p, p ∉ ps -> p < length l ->
             settleEach st ps (l ++ [st]) !! p = l !! p) /\
  length (settleEach st ps (l ++ [st])) = S (length l) /\
  Forall (fun p => settleEach st ps (l ++ [st]) !! p = Some st) ps /\
  settleEach st ps (l ++ [st]) !! length l = Some st.
Proof.
  intros Hlt. split; [|split; [|split]].
  - intros p Hp Hl. rewrite settleEach_other by done. by apply lookup_app_l.
  - rewrite settleEach_length, length_app. simpl. lia.
  - apply Forall_forall. intros p Hp. apply settleEach_member; [done|].
    rewrite Forall_forall in Hlt. specialize (Hlt p Hp).
    rewrite length_app. lia.
  - rewrite settleEach_other.
    + by apply list_lookup_middle.
    + intros Hin. rewrite Forall_forall in Hlt. specialize (Hlt _ Hin). lia.
Qed.

(** The loop [for (const demanded of this.demanded) demanded.resolve(v)],
    or [.reject(err)], on pulls that are still pending. *)
Lemma forOf_settles fuel t ps : forall w,
  NoDup ps ->
  Forall (fun p => promises w !! p = Some (Pending [])) ps ->
  forOf (fun r w => call (S fuel) r (match t with
                                     | TDone => VIterDone
                                     | TFail err => err
                                     end) w)
        (List.map (match t with TDone => fst | TFail _ => snd end)
                  (List.map pullOf ps)) w
  = returns (set_log (log w ++ terminalCalls t ps)
               (set_promises (settleEach (iterOutcome t) ps (promises w)) w)).
Proof.
  induction ps as [|p ps IH]; intros w Hnd Hpend.
  - cbn [List.map forOf terminalCalls settleEach fold_left].
    rewrite app_nil_r. by destruct w.
  - apply NoDup_cons in Hnd as [Hp Hnd].
    apply Forall_cons in Hpend as [Hpp Hpend].
    cbn [List.map forOf].
    assert (Forall (fun q => <[p := iterOutcome t]> (promises w) !! q
                             = Some (Pending [])) ps) as Hpend'.
    { apply Forall_forall. intros x Hx. rewrite Forall_forall in Hpend.
      rewrite list_lookup_insert_ne by (intros ->; done). by apply Hpend. }
    destruct t as [|err]; cbn [pullOf fst snd].
    + change (call (S fuel) (FResolve p) VIterDone w)
        with (returns (settle p false VIterDone
                         (record (CalledResolve p VIterDone) w))).
      erewrite settle_pending by (world; exact Hpp).
      cbn [andThen returns]. rewrite IH; [|done|by world].
      world. cbn [terminalCalls List.map settleEach fold_left iterOutcome].
      rewrite app_nil_r, <- app_assoc.
      unfold set_log, set_promises, set_microtasks. simpl. reflexivity.
    + change (call (S fuel) (FReject p) err w)
        with (returns (settle p true err (record (CalledReject p err) w))).
      erewrite settle_pending by (world; exact Hpp).
      cbn [andThen returns]. rewrite IH; [|done|by world].
      world. cbn [terminalCalls List.map settleEach fold_left iterOutcome].
      rewrite app_nil_r, <- app_assoc.
      unfold set_log, set_promises, set_microtasks. simpl. reflexivity.
Qed.

Lemma call_iterDone fuel this arg w :
  call (S fuel) (FIterDone this) arg w
  = match iterators w !! this with
    | Some it =>
        let (p, w1) := allocPromise (Fulfilled VIterDone) w in
        let w2 :=
          set_iterators
            (<[this := {| demanded := demanded it; queued := queued it;
                          done := Some p |}]> (iterators w1)) w1 in
        andThen
          (forOf (fun r w => call fuel r VIterDone w)
                 (List.map fst (demanded it)) w2)
          (fun _ w3 =>
             match iterators w3 !! this with
             | Some it' =>
                 returns
                   (set_iterators
                      (<[this := {| demanded := []; queued := queued it';
                                    done := done it' |}]> (iterators w3))
                      w3)
             | None => None
             end)
    | None => None
    end.
Proof. reflexivity. Qed.

Lemma call_iterFail fuel this arg w :
  call (S fuel) (FIterFail this) arg w
  = match iterators w !! this with
    | Some it =>
        let (p, w1) := allocPromise (Rejected arg) w in
        let w2 :=
          set_iterators
            (<[this := {| demanded := demanded it; queued := queued it;
                          done := Some p |}]> (iterators w1)) w1 in
        andThen
          (forOf (fun r w => call fuel r arg w)
                 (List.map snd (demanded it)) w2)
          (fun _ w3 =>
             match iterators w3 !! this with
             | Some it' =>
                 returns
                   (set_iterators
                      (<[this := {| demanded := []; queued := queued it';
                                    done := done it' |}]> (iterators w3))
                      w3)
             | None => None
             end)
    | None => None
    end.
Proof. reflexivity. Qed.

(** The handler of the adapter for the end of its source: the promise it
    keeps for later pulls is created, every waiting pull is settled like it,
    and [demanded] is emptied. *)
Lemma iterEnd_runs fuel t it ps q dn arg w :
  iterators w !! it = Some (iteratorState (List.map pullOf ps) q dn) ->
  NoDup ps ->
  Forall (fun p => promises w !! p = Some (Pending [])) ps ->
  call (S (S fuel)) (iterEnd t it)
       (match t with TDone => arg | TFail err => err end) w
  = returns
      (set_iterators
         (<[it := iteratorState [] q (Some (length (promises w)))]>
            (iterators w))
         (set_log (log w ++ terminalCalls t ps)
            (set_promises
               (settleEach (iterOutcome t) ps (promises w ++ [iterOutcome t]))
               w))).
Proof.
  intros Hit Hnd Hpend.
  assert (it < length (iterators w)) as Hlt by by eapply lookup_lt_Some.
  assert (Forall (fun p => (promises w ++ [iterOutcome t]) !! p
                           = Some (Pending [])) ps) as Hpend'.
  { apply Forall_forall. intros x Hx. rewrite Forall_forall in Hpend.
    rewrite lookup_app_l; [by apply Hpend|].
    eapply lookup_lt_Some. by apply Hpend. }
  destruct t as [|err]; cbn [iterEnd].
  - rewrite call_iterDone, Hit.
    cbn [allocPromise iteratorState demanded queued done]. cbv zeta.
    rewrite (forOf_settles fuel TDone ps); [|done|by world].
    cbn [andThen returns]. world.
    rewrite list_lookup_insert_eq by done.
    cbn [queued done]. by rewrite list_insert_insert_eq.
  - rewrite call_iterFail, Hit.
    cbn [allocPromise iteratorState demanded queued done]. cbv zeta.
    rewrite (forOf_settles fuel (TFail err) ps); [|done|by world].
    cbn [andThen returns]. world.
    rewrite list_lookup_insert_eq by done.
    cbn [queued done]. by rewrite list_insert_insert_eq.
Qed.

(** The terminal signal of the source and the turn in which the chain of
    the constructor reaches the handler. *)
Lemma adapter_turn fuel src it p0 p1 p2 ps q t w :
  Adapted w src it p0 p1 p2 ps q ->
  exists W,
    (producerCall (4 + fuel) src (PTerminal t);; endOfTurn (4 + fuel)) w
    = Some (tt, W) /\
    iterators W !! it
    = Some (iteratorState [] q (Some (length (promises w)))) /\
    promises W !! length (promises w) = Some (iterOutcome t) /\
    Forall (fun p => promises W !! p = Some (iterOutcome t)) ps /\
    length (promises W) = S (length (promises w)) /\
    microtasks W = [] /\
    observables W !! src = Some None.
Proof.
  intros (a & Ho & Ha & Hp0 & Hp1 & Hp2 & Hit & Hnd & Hpend & Hm).
  apply NoDup_cons in Hnd as [H0 Hnd]. apply NoDup_cons in Hnd as [H1 Hnd].
  apply NoDup_cons in Hnd as [H2 Hnd].
  apply not_elem_of_cons in H0 as [N01 H0].
  apply not_elem_of_cons in H0 as [N02 H0].
  apply not_elem_of_cons in H1 as [N12 H1].
  assert (p0 < length (promises w)) as L0 by by eapply lookup_lt_Some.
  assert (p1 < length (promises w)) as L1 by by eapply lookup_lt_Some.
  assert (p2 < length (promises w)) as L2 by by eapply lookup_lt_Some.
  assert (it < length (iterators w)) as Lit by by eapply lookup_lt_Some.
  assert (src < length (observables w)) as Lsrc by by eapply lookup_lt_Some.
  assert (Forall (fun p => p < length (promises w)) ps) as Lps.
  { eapply Forall_impl; [exact Hpend|]. intros p Hp. cbn beta in Hp.
    by eapply lookup_lt_Some. }
  set (pd := length (promises w)).
  unfold bind. change (4 + fuel) with (S (S (S (S fuel)))).
  rewrite (producerCall_terminal_single_slot _ src a _ p0 t w Ho Ha).
  rewrite (settledBy_pending _ p0 _ w Hp0), Hm.
  unfold endOfTurn. cbn [app List.map].
  erewrite runMicrotasks_cons by (world; reflexivity).
  destruct t as [|err]; cbn [terminalRejects terminalValue].
  - set (l := <[p0 := outcome TDone]> (promises w)).
    assert (length l = pd) as Ll by apply length_insert.
    destruct (settled_pulls (iterOutcome TDone) ps l)
      as (HP & LP & Hps & Hpd); [by rewrite Ll|].
    rewrite Ll in *.
    erewrite runJob_handler by reflexivity.
    erewrite (iterEnd_runs _ TDone it ps q None VUndefined);
      [|by world|done|].
    2:{ world. apply Forall_forall. intros x Hx.
        rewrite Forall_forall in Hpend. unfold l.
        rewrite list_lookup_insert_ne by (intros ->; done).
        by apply Hpend. }
    cbn [returns derivedPromise]. world. fold l. rewrite Ll.
    erewrite settle_pending.
    2:{ world. rewrite HP by done. unfold l.
        by rewrite list_lookup_insert_ne. }
    world. cbn [app List.map].
    erewrite runMicrotasks_cons by (world; reflexivity).
    erewrite runJob_passes by reflexivity.
    cbn [derivedPromise jobRejected jobValue].
    erewrite settle_pending.
    2:{ world. rewrite list_lookup_insert_ne by done. rewrite HP by done.
        unfold l. by rewrite list_lookup_insert_ne. }
    erewrite runMicrotasks_nil by (world; reflexivity).
    eexists. split; [reflexivity|]. world.
    split; [by apply list_lookup_insert_eq|].
    split; [by rewrite !list_lookup_insert_ne by (subst pd; lia)|].
    split.
    { apply Forall_forall. intros p Hp.
      rewrite !list_lookup_insert_ne by (intros ->; done).
      rewrite Forall_forall in Hps. by apply Hps. }
    split; [by rewrite !length_insert|].
    split; [done|]. by apply list_lookup_insert_eq.
  - set (l := <[p1 := Rejected err]>
                (<[p0 := outcome (TFail err)]> (promises w))).
    assert (length l = pd) as Ll by (unfold l; by rewrite !length_insert).
    destruct (settled_pulls (iterOutcome (TFail err)) ps l)
      as (HP & LP & Hps & Hpd); [by rewrite Ll|].
    rewrite Ll in *.
    erewrite runJob_passes by reflexivity.
    cbn [derivedPromise jobRejected jobValue].
    erewrite settle_pending.
    2:{ world. by rewrite list_lookup_insert_ne. }
    world. cbn [app List.map].
    erewrite runMicrotasks_cons by (world; reflexivity).
    erewrite runJob_handler by reflexivity.
    erewrite (iterEnd_runs _ (TFail err) it ps q None VUndefined);
      [|by world|done|].
    2:{ world. apply Forall_forall. intros x Hx.
        rewrite Forall_forall in Hpend. unfold l.
        rewrite !list_lookup_insert_ne by (intros ->; done).
        by apply Hpend. }
    cbn [returns derivedPromise]. world. fold l. rewrite Ll.
    erewrite settle_pending.
    2:{ world. rewrite HP by done. unfold l.
        by rewrite !list_lookup_insert_ne. }
    erewrite runMicrotasks_nil by (world; reflexivity).
    eexists. split; [reflexivity|]. world.
    split; [by apply list_lookup_insert_eq|].
    split; [by rewrite !list_lookup_insert_ne by (subst pd; lia)|].
    split.
    { apply Forall_forall. intros p Hp.
      rewrite !list_lookup_insert_ne by (intros ->; done).
      rewrite Forall_forall in Hps. by apply Hps. }
    split; [by rewrite !length_insert|].
    split; [done|]. by apply list_lookup_insert_eq.
Qed.

(** X16.  The end of the source reaches every waiting pull.  After [n]
    calls of [next()] on a new adapter, a terminal signal of the source and
    the end of the turn, every promise those calls returned is settled:
    resolved with the Done marker after [done()], rejected with the error
    after [fail(error)].  Each later [next()] returns one and the same
    promise, settled likewise, and [demanded] is empty. *)
Theorem end_of_source_settles_every_pull fuel src a n t w :
  observables w !! src = Some (Some a) ->
  arrays w !! a = Some [] ->
  microtasks w = [] ->
  exists it ps p W,
    (let* it := ObservableAsyncIterator.new src in
     let* ps := pulls it n in
     producerCall (4 + fuel) src (PTerminal t);;
     endOfTurn (4 + fuel);;
     let* p := ObservableAsyncIterator.next it in
     let* p' := ObservableAsyncIterator.next it in
     ret (it, ps, p, p')) w = Some ((it, ps, p, p), W) /\
    length ps = n /\
    Forall (fun q => promises W !! q = Some (iterOutcome t)) (p :: ps) /\
    iterators W !! it = Some (iteratorState [] [] (Some p)).
Proof.
  intros Ho Ha Hm.
  assert (a < length (arrays w)) as Hlta by by eapply lookup_lt_Some.
  unfold bind at 1. rewrite (new_adapter src a w Ho Ha).
  set (it := length (iterators w)). set (p0 := length (promises w)).
  unfold bind at 1.
  erewrite (pulls_pending it n []).
  2:{ world. by apply list_lookup_middle. }
  world. cbn [app].
  set (P := promises w ++ _).
  set (ps := seq (length P) n).
  assert (length P = p0 + 3) as LP
    by (unfold P; rewrite length_app; simpl; lia).
  assert (forall p, p ∈ ps -> length P <= p) as Hge.
  { intros p Hp. apply list_elem_of_lookup in Hp as [i Hi].
    apply lookup_seq in Hi as [-> _]. lia. }
  match goal with
  | |- context [bind (producerCall _ _ _) _ ?w0] => set (W0 := w0)
  end.
  destruct (adapter_turn fuel src it p0 (p0 + 1) (p0 + 2) ps [] t W0)
    as (W & Hturn & Hit & Hpd & Hps & Hlen & HmW & HoW).
  { exists a. unfold W0. world.
    split; [exact Ho|].
    split; [by apply list_lookup_insert_eq|].
    assert (forall k, k < length P ->
              (P ++ replicate n (Pending [])) !! k = P !! k) as HP
      by (intros k Hk; by apply lookup_app_l).
    split; [rewrite HP by lia; unfold P; by erewrite lookup_app_end|].
    split; [rewrite HP by lia; unfold P; by erewrite lookup_app_plus|].
    split; [rewrite HP by lia; unfold P; by erewrite lookup_app_plus|].
    split.
    { apply list_lookup_insert_eq. rewrite length_app. simpl. lia. }
    split.
    { repeat (apply NoDup_cons; split;
              [rewrite ?not_elem_of_cons;
               repeat split; try lia; intros Hin; apply Hge in Hin; lia|]).
      apply NoDup_seq. }
    split; [|exact Hm].
    apply Forall_forall. intros p Hp.
    apply list_elem_of_lookup in Hp as [i Hi].
    apply lookup_seq in Hi as [-> Hi].
    rewrite lookup_app_r by lia. apply lookup_replicate. split; [done|lia]. }
  unfold bind in Hturn. unfold bind.
  destruct (producerCall (4 + fuel) src (PTerminal t) W0) as [[[] W1]|];
    [|discriminate Hturn].
  destruct (endOfTurn (4 + fuel) W1) as [[[] W2]|]; [|discriminate Hturn].
  injection Hturn as ->.
  rewrite (next_after_terminal it [] _ W Hit).
  rewrite (next_after_terminal it [] _ W Hit).
  eexists _, _, _, _. split; [reflexivity|].
  split; [apply length_seq|]. split; [|exact Hit].
  apply Forall_cons. split; [exact Hpd|exact Hps].
Qed.

(** An instance: two pulls, then [fail("global")]. *)
Lemma end_of_source_settles_every_pull_witness :
  exists it ps p W,
    (let* it := ObservableAsyncIterator.new 0 in
     let* ps := pulls it 2 in
     producerCall 4 0 (PTerminal (TFail (VStr "global")));;
     endOfTurn 4;;
     let* p := ObservableAsyncIterator.next it in
     let* p' := ObservableAsyncIterator.next it in
     ret (it, ps, p, p')) sourceWorld = Some ((it, ps, p, p), W) /\
    length ps = 2 /\
    Forall (fun q => promises W !! q
                     = Some (iterOutcome (TFail (VStr "global")))) (p :: ps) /\
    iterators W !! it = Some (iteratorState [] [] (Some p)).
Proof.
  apply (end_of_source_settles_every_pull 0 0 0 2 (TFail (VStr "global"))
           sourceWorld); reflexivity.
Defined.

(** X17.  An adapter built on a source that is already terminal, whether
    the source was done or had failed: at the end of the turn the adapter
    has recorded the end, and [next()] returns a promise resolved with the
    Done marker. *)
Theorem adapter_of_ended_source_reports_done fuel src w :
  observables w !! src = Some None ->
  microtasks w = [] ->
  exists it p W,
    (let* it := ObservableAsyncIterator.new src in
     endOfTurn (3 + fuel);;
     let* p := ObservableAsyncIterator.next it in
     ret (it, p)) w = Some ((it, p), W) /\
    promises W !! p = Some (Fulfilled VIterDone) /\
    iterators W !! it = Some (iteratorState [] [] (Some p)).
Proof.
  intros Ho Hm.
  set (it := length (iterators w)). set (p0 := length (promises w)).
  unfold bind at 1.
  unfold ObservableAsyncIterator.new, bind. fold it.
  fold (iteratorState [] [] None).
  erewrite forEach_terminal by (world; exact Ho).
  world. fold p0. unfold promiseThen, promiseCatch.
  erewrite addReaction_fulfilled.
  2:{ world. by erewrite lookup_app_end. }
  world. rewrite length_app. cbn [length]. fold p0.
  rewrite <- app_assoc, Hm. cbn [app].
  erewrite addReaction_pending.
  2:{ world. by erewrite lookup_app_plus. }
  world. rewrite length_app. cbn [length]. fold p0.
  rewrite <- app_assoc. cbn [app ret].
  rewrite (insert_app_plus (promises w)) by done. cbn [insert list_insert].
  unfold endOfTurn. change (3 + fuel) with (S (S (S fuel))).
  erewrite runMicrotasks_cons by (world; reflexivity).
  erewrite runJob_handler by reflexivity.
  erewrite (iterEnd_runs _ TDone it [] [] None VUndefined).
  2:{ world. by apply list_lookup_middle. }
  2:{ apply NoDup_nil_2. }
  2:{ apply Forall_nil_2. }
  cbn [returns derivedPromise]. world.
  cbn [settleEach fold_left terminalCalls List.map iterOutcome].
  rewrite length_app, <- app_assoc. cbn [length app]. fold p0.
  erewrite settle_pending.
  2:{ world. by erewrite lookup_app_plus. }
  world. cbn [app List.map].
  rewrite (insert_app_plus (promises w)) by done. cbn [insert list_insert].
  erewrite runMicrotasks_cons by (world; reflexivity).
  erewrite runJob_passes by reflexivity.
  cbn [derivedPromise jobRejected jobValue].
  erewrite settle_pending.
  2:{ world. by erewrite lookup_app_plus. }
  world. cbn [app List.map].
  rewrite (insert_app_plus (promises w)) by done. cbn [insert list_insert].
  erewrite runMicrotasks_nil by (world; reflexivity).
  erewrite next_after_terminal.
  2:{ world. apply list_lookup_insert_eq. rewrite length_app. simpl. lia. }
  eexists _, _, _. split; [reflexivity|]. world.
  split; [by erewrite lookup_app_plus|].
  apply list_lookup_insert_eq. rewrite length_app. simpl. lia.
Qed.

(** An instance: the terminal stream of [withTerminalObservable]. *)
Lemma adapter_of_ended_source_reports_done_witness :
  exists it p W,
    (let* it := ObservableAsyncIterator.new 0 in
     endOfTurn 3;;
     let* p := ObservableAsyncIterator.next it in
     ret (it, p)) (withTerminalObservable initialWorld) = Some ((it, p), W) /\
    promises W !! p = Some (Fulfilled VIterDone) /\
    iterators W !! it = Some (iteratorState [] [] (Some p)).
Proof.
  apply (adapter_of_ended_source_reports_done 0 0
           (withTerminalObservable initialWorld)); reflexivity.
Defined.

(** ** Predicate combinators *)

(** X18.  [every(...predicates)] accepts an object exactly when each of the
    predicates accepts it, and [some(...predicates)] exactly when at least
    one does; without predicates [every] accepts everything and [some]
    nothing. *)
Theorem every_and_some_decide {T : Type}
    (ps : list (Predicates.Predicate T)) (x : T) :
  (Predicates.every ps x = true <-> Forall (fun p => p x = true) ps) /\
  (Predicates.some ps x = true <-> Exists (fun p => p x = true) ps) /\
  Predicates.every [] x = true /\
  Predicates.some [] x = false.
Proof.
  split; [|split; [|done]].
  - induction ps as [|p ps IH]; simpl.
    + split; [constructor | done].
    + rewrite Forall_cons. destruct (p x); simpl.
      * rewrite IH. split; [by split | by intros [_ ?]].
      * split; [done | by intros [? _]].
  - induction ps as [|p ps IH]; simpl.
    + split; [done | intros H; inversion H].
    + rewrite Exists_cons. destruct (p x); simpl.
      * split; [by left | done].
      * rewrite IH. split; [by right | by intros [?|?]].
Qed.

Lemma noneOf_negb_some {T : Type}
    (ps : list (Predicates.Predicate T)) (x : T) :
  Predicates.noneOf ps x = negb (Predicates.some ps x).
Proof.
  unfold Predicates.noneOf.
  induction ps as [|p ps IH]; simpl; [done|].
  unfold Predicates.not at 1. destruct (p x); simpl; [done | apply IH].
Qed.

(** X19.  [noneOf(...predicates)] is the complement of
    [some(...predicates)] on every object: it accepts an object exactly when
    every predicate rejects it. *)
Theorem noneOf_is_not_some {T : Type}
    (ps : list (Predicates.Predicate T)) (x : T) :
  Predicates.noneOf ps x = negb (Predicates.some ps x) /\
  (Predicates.noneOf ps x = true <-> Forall (fun p => p x = false) ps).
Proof.
  split; [apply noneOf_negb_some|].
  rewrite noneOf_negb_some.
  induction ps as [|p ps IH]; simpl.
  - split; [constructor | done].
  - rewrite Forall_cons. destruct (p x); simpl.
    + split; [done | by intros [? _]].
    + rewrite IH. split; [by split | by intros [_ ?]].
Qed.

Lemma filter_nil_iff {T : Type} (f : T -> bool) (l : list T) :
  List.filter f l = [] <-> Forall (fun q => f q = false) l.
Proof.
  induction l as [|q l IH]; simpl.
  - split; [constructor | done].
  - rewrite Forall_cons. destruct (f q).
    + split; [done | by intros [? _]].
    + rewrite IH. split; [by split | by intros [_ ?]].
Qed.

(** X20.  [oneOf(...predicates)] accepts an object exactly when one of the
    predicates, counted by its position in the list, accepts it and all the
    others reject it. *)
Theorem oneOf_accepts_exactly_one {T : Type}
    (ps : list (Predicates.Predicate T)) (x : T) :
  Predicates.oneOf ps x = true <->
  exists pre p suf,
    ps = pre ++ p :: suf /\ p x = true /\
    Forall (fun q => q x = false) (pre ++ suf).
Proof.
  unfold Predicates.oneOf. rewrite Nat.eqb_eq.
  induction ps as [|p ps IH]; simpl.
  - split; [done|]. intros (pre & q & suf & H & _). by destruct pre.
  - destruct (p x) eqn:Hp; simpl.
    + split.
      * intros H. exists [], p, ps. split; [done|]. split; [done|]. simpl.
        apply (filter_nil_iff (fun pred => pred x)).
        by destruct (List.filter (fun pred => pred x) ps).
      * intros (pre & q & suf & Heq & Hq & Hall). f_equal.
        destruct pre as [|p' pre]; simpl in *.
        -- injection Heq as -> ->.
           by rewrite (proj2 (filter_nil_iff (fun pred => pred x) suf)).
        -- injection Heq as -> ->.
           apply Forall_cons in Hall as [Hfalse _]. congruence.
    + rewrite IH. split.
      * intros (pre & q & suf & -> & Hq & Hall).
        exists (p :: pre), q, suf. split; [done|]. split; [done|].
        simpl. by constructor.
      * intros (pre & q & suf & Heq & Hq & Hall).
        destruct pre as [|p' pre]; simpl in *.
        -- injection Heq as -> ->. congruence.
        -- injection Heq as -> ->.
           apply Forall_cons in Hall as [_ Hall]. by exists pre, q, suf.
Qed.

(** X21.  [map(mapper, predicate)] commutes with the combinators: mapping
    each predicate and combining gives, on an object, what combining the
    predicates gives on the mapped object, for [every], [some], [oneOf] and
    [noneOf]. *)
Theorem map_commutes_with_combinators {T1 T2 : Type} (mapper : T1 -> T2)
    (ps : list (Predicates.Predicate T2)) (x : T1) :
  let mapped := List.map (Predicates.map mapper) ps in
  Predicates.every mapped x = Predicates.every ps (mapper x) /\
  Predicates.some mapped x = Predicates.some ps (mapper x) /\
  Predicates.oneOf mapped x = Predicates.oneOf ps (mapper x) /\
  Predicates.noneOf mapped x = Predicates.noneOf ps (mapper x).
Proof.
  cbv zeta. split; [|split; [|split]].
  - unfold Predicates.map. induction ps as [|p ps IH]; simpl; [done|].
    by rewrite IH.
  - unfold Predicates.map. induction ps as [|p ps IH]; simpl; [done|].
    by rewrite IH.
  - unfold Predicates.oneOf, Predicates.map. f_equal.
    induction ps as [|p ps IH]; simpl; [done|].
    destruct (p (mapper x)); simpl; by rewrite IH.
  - rewrite !noneOf_negb_some. f_equal.
    unfold Predicates.map. induction ps as [|p ps IH]; simpl; [done|].
    by rewrite IH.
Qed.

(** ** Maybe *)

(** X22.  [flatMap] obeys the laws of a monad whose unit is the identity on
    values: on a value it is the function, [undefined] is passed on, the
    identity changes nothing, and two steps in a row are one step with the
    composed function. *)
Theorem Maybe_flatMap_laws (m : Value) (f g : Value -> Value) :
  (Maybe.hasValue m = true -> Maybe.flatMap m f = f m) /\
  Maybe.flatMap VUndefined f = VUndefined /\
  Maybe.flatMap m (fun x => x) = m /\
  Maybe.flatMap (Maybe.flatMap m f) g
  = Maybe.flatMap m (fun x => Maybe.flatMap (f x) g).
Proof.
  unfold Maybe.flatMap. repeat split.
  - by intros ->.
  - by destruct (Maybe.hasValue m).
  - by destruct (Maybe.hasValue m) eqn:H; rewrite ?H.
Qed.

(** X23.  [map] twice is [map] of the composed function, except when the
    first function returns [undefined] on a value: then the second function
    is not called and the result is [undefined]. *)
Theorem Maybe_map_composes (m : Value) (f g : Value -> Value) :
  Maybe.map (Maybe.map m f) g
  = if Maybe.hasValue m && negb (Maybe.hasValue (f m)) then VUndefined
    else Maybe.map m (fun x => g (f x)).
Proof.
  unfold Maybe.map.
  destruct (Maybe.hasValue m) eqn:Hm; simpl; [|by rewrite Hm].
  destruct (Maybe.hasValue (f m)) eqn:Hf; simpl; [done|].
  by destruct (f m).
Qed.

(** X24.  [filter] twice is [filter] with both conditions, the second one
    being asked only when the first holds; [filter] never turns [undefined]
    into a value, and what it returns is its argument or [undefined]. *)
Theorem Maybe_filter_composes (m : Value) (f g : Value -> bool) :
  Maybe.filter (Maybe.filter m f) g = Maybe.filter m (fun x => f x && g x) /\
  Maybe.filter VUndefined f = VUndefined /\
  (Maybe.filter m f = m \/ Maybe.filter m f = VUndefined).
Proof.
  unfold Maybe.filter. split; [|split; [done|]].
  - destruct (Maybe.hasValue m) eqn:H; simpl; [|done].
    destruct (f m); simpl; [|done]. by rewrite H.
  - destruct (Maybe.hasValue m && f m); [by left | by right].
Qed.

(** X25.  [getOrElse] is associative, like an "or else" on values:
    falling back on [a] and then on [b] is falling back on [a] or else [b].
    Its result has a value exactly when the argument or the fallback has
    one, and [undefined] is a neutral fallback. *)
Theorem Maybe_getOrElse_laws (m a b : Value) :
  Maybe.getOrElse (Maybe.getOrElse m a) b
  = Maybe.getOrElse m (Maybe.getOrElse a b) /\
  Maybe.hasValue (Maybe.getOrElse m a)
  = Maybe.hasValue m || Maybe.hasValue a /\
  Maybe.getOrElse m VUndefined = m /\
  Maybe.getOrElse VUndefined a = a.
Proof.
  unfold Maybe.getOrElse. repeat split.
  - destruct (Maybe.hasValue m) eqn:Hm; [by rewrite Hm|done].
  - by destruct (Maybe.hasValue m) eqn:Hm.
  - by destruct m.
Qed.
